(** * hipify-clang: the rewrite engine of [Cuda2Hip.cpp]

    A shallow embedding of [src/hipify-clang/src/Cuda2Hip.cpp].

    The handlers of the translator ([Cuda2Hip], [HipifyPPCallbacks],
    [Cuda2HipCallback]) never read the shared objects they write to (the
    replacement set [Replace], the global [Statistics::current()] and
    [llvm::errs()]), with the single exception of [insertHipHeaders], which
    tests [Replace.size()].  They are therefore embedded as functions from
    the node or token they are given to the sequence of calls they make on
    those objects (a writer monad); [perform] gives each call its effect on
    the state, following the body of [Cuda2Hip::insertReplacement] and
    [Cuda2Hip::printHipifyMessage].

    What the clang front-end computes (source locations, macro expansion,
    source text of a range, the AST nodes and the tokens) is data of the
    model: a [SourceManager] record of oracles and records for the nodes.
    Sizes and offsets ([size_t], [unsigned]) are natural numbers: they are
    bounded by the size of a buffer in memory and never wrap.

    The driver ([main]) acts on a world of files and streams.  It tests
    the outcome of none of its operations on files, so that each of them
    can fail without notice: a [System] says which ones the operating
    system refuses.

    Three headers of the repository are not at hand: [CUDA2HipMap.h] (the
    tables and [hipCounter], and the [Statistics] class), [LLVMCompat.h]
    ([llcompat::insertReplacement]) and [StringUtils.h].  The tables are
    parameters; what is needed of the rest is modelled from the
    specification and marked as such. *)

From Stdlib Require Import String Ascii List Arith Lia Bool DecimalString.
From stdpp Require Import base option gmap strings list sorting.

Open Scope string_scope.

(** ** [llvm::StringRef] *)

Module StringRef.

(** [npos] is [None]. *)
Definition size (s : string) : nat := String.length s.

(** [s.find(str, from)] *)
Definition find (str : string) (from : nat) (s : string) : option nat :=
  String.index from str s.

Fixpoint contains (c : ascii) (chars : string) : bool :=
  match chars with
  | EmptyString => false
  | String d chars' => if Ascii.eqb c d then true else contains c chars'
  end.

Fixpoint find_if (p : ascii -> bool) (from : nat) (s : string) : option nat :=
  match s with
  | EmptyString => None
  | String c s' =>
      match from with
      | O => if p c then Some O else option_map S (find_if p O s')
      | S from' => option_map S (find_if p from' s')
      end
  end.

(** [s.find_first_of(chars, from)] *)
Definition find_first_of (chars : string) (from : nat) (s : string) : option nat :=
  find_if (fun c => contains c chars) from s.

(** [s.find_first_not_of(chars)] *)
Definition find_first_not_of (chars : string) (s : string) : option nat :=
  find_if (fun c => negb (contains c chars)) 0 s.

(** [s.slice(start, end)]: [start] and [end] are clamped to the size, an
    [end] before [start] gives the empty string. *)
Definition slice (start : nat) (end_ : option nat) (s : string) : string :=
  match end_ with
  | Some e => String.substring start (e - start) s
  | None => String.substring start (String.length s - start) s
  end.

End StringRef.

(** ** The rename tables ([CUDA2HipMap.h]) *)

(** Modelled from the spec: the enum [ConvTypes] is declared in
    [CUDA2HipMap.h], which is not part of the sources at hand; the tags that
    [Cuda2Hip.cpp] names are constructors, every other tag is [CONV_other]. *)
Inductive ConvTypes :=
| CONV_MEM
| CONV_KERN
| CONV_INCLUDE_CUDA_MAIN_H
| CONV_LITERAL
| CONV_other (tag : nat).

(** Modelled from the spec: the enum [ApiTypes] of [CUDA2HipMap.h]. *)
Inductive ApiTypes :=
| API_RUNTIME
| API_other (tag : nat).

(** Modelled from the spec: the rename entry [hipCounter] of
    [CUDA2HipMap.h], with the four fields that the initialisers of
    [Cuda2Hip.cpp] fill in this order. *)
Record hipCounter := {
  hipName : string;
  countType : ConvTypes;
  countApiType : ApiTypes;
  unsupported : bool
}.

#[global] Instance ConvTypes_eq_dec : EqDecision ConvTypes.
Proof. solve_decision. Defined.
#[global] Instance ApiTypes_eq_dec : EqDecision ApiTypes.
Proof. solve_decision. Defined.
#[global] Instance hipCounter_eq_dec : EqDecision hipCounter.
Proof. solve_decision. Defined.

(** The maps are data compiled into the tool; they are parameters here. *)
Record RenameTables := {
  CUDA_RENAMES_MAP : gmap string hipCounter;
  CUDA_IDENTIFIER_MAP : gmap string hipCounter;
  CUDA_TYPE_NAME_MAP : gmap string hipCounter;
  CUDA_INCLUDE_MAP : gmap string hipCounter
}.

(** ** Source locations, replacements and the calls of a handler *)

(** A [SourceLocation] is modelled by the byte offset it decomposes to. *)
Definition SourceLocation := nat.
Definition SourceRange := (SourceLocation * SourceLocation)%type.

Definition getLocWithOffset (sl : SourceLocation) (n : nat) : SourceLocation := sl + n.

(** [clang::tooling::Replacement], for the one file of a job. *)
Record Replacement := {
  getOffset : nat;
  getLength : nat;
  getReplacementText : string
}.

#[global] Instance Replacement_eq_dec : EqDecision Replacement.
Proof. solve_decision. Defined.

(** The character [\n], as a string. *)
Definition newline : string := String (ascii_of_nat 10) EmptyString.

Inductive msgTypes := HIPIFY_ERROR | HIPIFY_WARNING.

Definition getMsgType (type : msgTypes) : string :=
  match type with
  | HIPIFY_ERROR => "error"
  | HIPIFY_WARNING => "warning"
  end.

(** The three calls through which a handler acts on shared state. *)
Inductive Call :=
| incrementCounter (counter : hipCounter) (name : string)
| insertReplacement (rep : Replacement) (fullSL : SourceLocation)
| printHipifyMessage (sl : SourceLocation) (message : string) (msgType : msgTypes).

Definition Rep (sl : SourceLocation) (length : nat) (text : string) : Replacement :=
  {| getOffset := sl; getLength := length; getReplacementText := text |}.

(** What the handlers ask of [clang::SourceManager] and [clang::Lexer].
    [getCharacterData] is the offset itself: the handlers only subtract two
    pointers into the same buffer. *)
Record SourceManager := {
  isWrittenInMainFile : SourceLocation -> bool;
  getExpansionLineNumber : SourceLocation -> nat;
  getExpansionColumnNumber : SourceLocation -> nat;
  isMacroBodyExpansion : SourceLocation -> bool;
  isAtStartOfMacroExpansion : SourceLocation -> bool;
  isAtEndOfMacroExpansion : SourceLocation -> bool;
  getFileLoc : SourceLocation -> SourceLocation;
  getSpellingLoc : SourceLocation -> SourceLocation;
  getLocForEndOfToken : SourceLocation -> SourceLocation;
  getSourceText : SourceRange -> string   (* [Lexer::getSourceText] of the token range *)
}.

Definition getCharacterData (sl : SourceLocation) : nat := sl.

(** [SM.getLocForStartOfFile(SM.getMainFileID())] *)
Definition getLocForStartOfFile : SourceLocation := 0.

(** ** Tokens and AST nodes, as far as the handlers look at them *)

(** The token kinds of [clang::tok] that the handlers tell apart. *)
Inductive TokenKind :=
| tok_identifier
| tok_raw_identifier
| tok_string_literal
| tok_wide_string_literal
| tok_utf8_string_literal
| tok_utf16_string_literal
| tok_utf32_string_literal
| tok_eof
| tok_other.

#[global] Instance TokenKind_eq_dec : EqDecision TokenKind.
Proof. solve_decision. Defined.

Record Token := {
  getKind : TokenKind;
  getLiteralData : string;      (* the [getLength()] bytes of the spelling *)
  getLocation : SourceLocation;
  getIdentifierName : string    (* [getIdentifierInfo()->getName()] *)
}.

Definition isAnyIdentifier (t : Token) : bool :=
  bool_decide (getKind t = tok_identifier) || bool_decide (getKind t = tok_raw_identifier).

(** [tok::isStringLiteral] *)
Definition isStringLiteral (k : TokenKind) : bool :=
  match k with
  | tok_string_literal | tok_wide_string_literal | tok_utf8_string_literal
  | tok_utf16_string_literal | tok_utf32_string_literal => true
  | _ => false
  end.

(** The width in bytes of one character of the literal a token of kind [k]
    spells ([StringLiteral::mapCharByteWidth]); [wchar] is the target's
    width of [wchar_t]. *)
Definition tokenCharByteWidth (wchar : nat) (k : TokenKind) : nat :=
  match k with
  | tok_wide_string_literal => wchar
  | tok_utf16_string_literal => 2
  | tok_utf32_string_literal => 4
  | _ => 1
  end.

Inductive MacroDirectiveKind := MD_Define | MD_Undefine | MD_Visibility.

#[global] Instance MacroDirectiveKind_eq_dec : EqDecision MacroDirectiveKind.
Proof. solve_decision. Defined.

Record MacroDirective := {
  MD_getLocation : SourceLocation;
  MD_getKind : MacroDirectiveKind;
  MD_tokens : list Token           (* [getMacroInfo()->tokens()] *)
}.

(** The arguments of a macro expansion: [lexUnexpArgument i] is the token
    sequence, closed by an [eof] token, that the preprocessor lexes from
    [Args->getUnexpArgument(i)]. *)
Record MacroArgs := {
  lexUnexpArgument : nat -> list Token
}.

Record Expr := {
  isCXXDefaultArgExpr : bool;
  getSourceRange : SourceRange
}.

Definition getLocStart (e : Expr) : SourceLocation := fst (getSourceRange e).
Definition getLocEnd (e : Expr) : SourceLocation := snd (getSourceRange e).

Record CallExpr := {
  getDirectCalleeName : string;    (* [getDirectCallee()->getDeclName().getAsString()] *)
  CallExpr_getLocStart : SourceLocation
}.

(** The configuration call of a kernel launch always has four arguments,
    the last two defaulted. *)
Record CUDAKernelCallExpr := {
  getCallee : Expr;
  getConfigArg0 : Expr;
  getConfigArg1 : Expr;
  getConfigArg2 : Expr;
  getConfigArg3 : Expr;
  getArgs : list Expr;
  Launch_getLocStart : SourceLocation;
  Launch_getLocEnd : SourceLocation
}.

Inductive SourceExpr :=
| DeclRefExpr_of (declName : string)
| OtherSourceExpr.

Inductive BaseExpr :=
| OpaqueValueExpr (source : SourceExpr)
| OtherBaseExpr.

Record MemberExpr := {
  getBase : BaseExpr;
  getMemberDeclName : string;
  Member_getLocStart : SourceLocation
}.

Record DeclRefExpr := {
  getDeclName : string;
  DeclRef_getLocStart : SourceLocation
}.

Record TypeLoc := {
  getTypeAsString : string;        (* [getUnqualifiedLoc().getType().getAsString()] *)
  isEnumeralType : bool;
  isStructureType : bool;
  getBeginLoc : SourceLocation
}.

(** The element type of an incomplete array type. *)
Record ElementType := {
  isBuiltinType : bool;
  getBuiltinName : option string;  (* the canonical type as a [BuiltinType], if it is one *)
  getAsString : string
}.

Record VarDecl := {
  hasExternalFormalLinkage : bool;
  getIncompleteArrayElement : option ElementType;   (* [None]: not an incomplete array *)
  getNameAsString : string;
  Var_getLocStart : SourceLocation;
  Var_getLocEnd : SourceLocation
}.

Record StringLiteral := {
  getCharByteWidth : nat;
  getString : string;
  Literal_getLocStart : SourceLocation
}.

(** [MatchFinder::MatchResult]: every matcher of [addAllMatchers] binds one
    node, under the name of the constructor. *)
Inductive MatchResult :=
| cudaCall_node (call : CallExpr)
| cudaType_node (ret : TypeLoc)
| stringLiteral_node (sLiteral : StringLiteral)
| cudaLaunchKernel_node (launchKernel : CUDAKernelCallExpr)
| cudaBuiltin_node (threadIdx : MemberExpr)
| cudaEnumConstantRef_node (enumConstantRef : DeclRefExpr)
| cudaSharedIncompleteArrayVar_node (sharedVar : VarDecl).

(** ** [StringUtils.h] *)

(** Modelled from the spec: [unquoteStr] of [StringUtils.h], which is not
    part of the sources at hand: the body of a string literal token,
    "already unquoted", that is without its first and last character when
    these are double quotes. *)
Definition unquoteStr (s : string) : string :=
  let n := String.length s in
  if (1 <? n)%nat && bool_decide (String.get 0 s = Some (ascii_of_nat 34))
     && bool_decide (String.get (n - 1) s = Some (ascii_of_nat 34))
  then String.substring 1 (n - 2) s
  else s.

(** Modelled from the spec: [removePrefixIfPresent] of [StringUtils.h]:
    "strip the leading [enum ] or [struct ] word from the printed name". *)
Definition removePrefixIfPresent (s prefix : string) : string :=
  if String.prefix prefix s
  then String.substring (String.length prefix) (String.length s - String.length prefix) s
  else s.

(** ** [Cuda2Hip::processString] *)

Section Handlers.

Variable T : RenameTables.
Variable SM : SourceManager.

(** One turn of the [while] loop for the occurrence found at [begin];
    [end_] and [name] are the loop's locals. *)
Definition processString_body (s : string) (start : SourceLocation) (begin : nat)
    (name : string) : list Call :=
  match CUDA_RENAMES_MAP T !! name with
  | Some found =>
      let repName := hipName found in
      let counter := {| hipName := "[string literal]"; countType := CONV_LITERAL;
                        countApiType := API_RUNTIME; unsupported := unsupported found |} in
      incrementCounter counter name ::
      (if negb (unsupported counter) then
         let sl := getLocWithOffset start (begin + 1) in
         [insertReplacement (Rep sl (StringRef.size name) repName) sl]
       else [])
  | None => []
  end.

(** The loop, entered with the local [begin]; [None] when the fuel runs out. *)
Fixpoint processString_loop (fuel : nat) (s : string) (start : SourceLocation)
    (begin : nat) : option (list Call) :=
  match fuel with
  | O => None
  | S fuel' =>
      match StringRef.find "cu" begin s with
      | None => Some []
      | Some begin' =>
          let end_ := StringRef.find_first_of " " (begin' + 4) s in
          let name := StringRef.slice begin' end_ s in
          let calls := processString_body s start begin' name in
          match end_ with
          | None => Some calls
          | Some e => option_map (app calls) (processString_loop fuel' s start (e + 1))
          end
      end
  end.

Definition processString_opt (s : string) (start : SourceLocation) : option (list Call) :=
  processString_loop (S (String.length s)) s start 0.

Definition processString (s : string) (start : SourceLocation) : list Call :=
  default [] (processString_opt s start).

(** ** [Cuda2Hip::insertHipHeaders] *)

Definition hipHeaderName : string := "#include <hip/hip_runtime.h>".

Definition hipHeaderCounter : hipCounter :=
  {| hipName := hipHeaderName; countType := CONV_INCLUDE_CUDA_MAIN_H;
     countApiType := API_RUNTIME; unsupported := false |}.

Definition hipHeaderRep : Replacement :=
  Rep getLocForStartOfFile 0 (hipHeaderName ++ newline).

(** [Replace_size] is [Replace.size()] at the time of the call. *)
Definition insertHipHeaders (Replace_size : nat) : list Call :=
  if (0 <? Replace_size)%nat then
    let repName := hipHeaderName in
    let sl := getLocForStartOfFile in
    [incrementCounter hipHeaderCounter "#include <cuda>";
     insertReplacement hipHeaderRep sl]
  else [].

(** ** [HipifyPPCallbacks] *)

Definition InclusionDirective (hash_loc : SourceLocation) (file_name : string)
    (is_angled : bool) (filename_range : SourceRange) : list Call :=
  if negb (isWrittenInMainFile SM hash_loc) || negb is_angled then []
  else
    match CUDA_INCLUDE_MAP T !! file_name with
    | None => []
    | Some found =>
        incrementCounter found file_name ::
        (if unsupported found then
           [printHipifyMessage hash_loc ("Unsupported CUDA header used: " ++ file_name)
              HIPIFY_WARNING]
         else
           let repName := hipName found in
           let sl := fst filename_range in
           let sle := snd filename_range in
           let B := getCharacterData sl in
           let E := getCharacterData sle in
           [insertReplacement (Rep sl (E - B) ("<" ++ repName ++ ">")) sl])
    end.

Definition RewriteToken (t : Token) : list Call :=
  if bool_decide (getKind t = tok_string_literal) then
    let s := getLiteralData t in
    processString (unquoteStr s) (getLocation t)
  else if negb (isAnyIdentifier t) then []
  else
    let name := getIdentifierName t in
    match CUDA_RENAMES_MAP T !! name with
    | None => []
    | Some found =>
        let sl := getLocation t in
        incrementCounter found name ::
        (if unsupported found then
           [printHipifyMessage sl ("Unsupported CUDA identifier used: " ++ name)
              HIPIFY_WARNING]
         else
           let repName := hipName found in
           [insertReplacement (Rep sl (StringRef.size name) repName) sl])
    end.

Definition MacroDefined (MD : MacroDirective) : list Call :=
  if negb (isWrittenInMainFile SM (MD_getLocation MD))
     || negb (bool_decide (MD_getKind MD = MD_Define))
  then []
  else flat_map RewriteToken (MD_tokens MD).

(** [numArgs] is [MD.getMacroInfo()->GET_NUM_ARGS()]; [Args] is [None]
    for the null pointer. *)
Definition MacroExpands (MacroNameTok : Token) (numArgs : nat)
    (Args : option MacroArgs) : list Call :=
  if negb (isWrittenInMainFile SM (getLocation MacroNameTok)) then []
  else
    RewriteToken MacroNameTok ++
    match Args with
    | None => []
    | Some args =>
        flat_map (fun i => flat_map RewriteToken (lexUnexpArgument args i))
                 (seq 0 numArgs)
    end.

(** ** [Cuda2HipCallback] *)

(** A handler returns what the C++ method returns, and the calls it made. *)
Definition Handled := (bool * list Call)%type.

Definition cudaCall (Result : MatchResult) : Handled :=
  match Result with
  | cudaCall_node call =>
      let name := getDirectCalleeName call in
      let sl := CallExpr_getLocStart call in
      match CUDA_IDENTIFIER_MAP T !! name with
      | None =>
          let msg := "the following reference is not handled: '" ++ name
                     ++ "' [function call]." in
          (true, [printHipifyMessage sl msg HIPIFY_WARNING])
      | Some hipCtr =>
          (true,
           incrementCounter hipCtr name ::
           (if unsupported hipCtr then []
            else
              let length := StringRef.size name in
              [insertReplacement (Rep sl length (hipName hipCtr)) sl]))
      end
  | _ => (false, [])
  end.

Definition getReadRange (exprRange : SourceRange) : SourceRange :=
  let begin := fst exprRange in
  let end_ := snd exprRange in
  let beginSafe := negb (isMacroBodyExpansion SM begin) || isAtStartOfMacroExpansion SM begin in
  let endSafe := negb (isMacroBodyExpansion SM end_) || isAtEndOfMacroExpansion SM end_ in
  if beginSafe && endSafe then (getFileLoc SM begin, getFileLoc SM end_)
  else (getSpellingLoc SM begin, getSpellingLoc SM end_).

Definition getWriteRange (exprRange : SourceRange) : SourceRange :=
  let begin := fst exprRange in
  let end_ := snd exprRange in
  if negb (isMacroBodyExpansion SM begin) || negb (isMacroBodyExpansion SM end_)
  then (getFileLoc SM begin, getFileLoc SM end_)
  else (getSpellingLoc SM begin, getSpellingLoc SM end_).

Definition readSourceText (exprRange : SourceRange) : string :=
  getSourceText SM (getReadRange exprRange).

Definition stringifyZeroDefaultedArg (arg : Expr) : string :=
  if isCXXDefaultArgExpr arg then "0"
  else readSourceText (getSourceRange arg).

(** The text that [cudaLaunchKernel] streams into [OS], one [<<] after
    the other. *)
Definition launchKernelText (launchKernel : CUDAKernelCallExpr) : string :=
  let OS := EmptyString in
  let calleeExpr := getCallee launchKernel in
  let OS := OS ++ "hipLaunchKernelGGL(" ++ readSourceText (getSourceRange calleeExpr) ++ ", " in
  let OS := OS ++ "dim3(" ++ readSourceText (getSourceRange (getConfigArg0 launchKernel)) ++ "), " in
  let OS := OS ++ "dim3(" ++ readSourceText (getSourceRange (getConfigArg1 launchKernel)) ++ "), " in
  let OS := OS ++ stringifyZeroDefaultedArg (getConfigArg2 launchKernel) ++ ", " in
  let OS := OS ++ stringifyZeroDefaultedArg (getConfigArg3 launchKernel) in
  let OS :=
    match getArgs launchKernel with
    | [] => OS                       (* [numArgs == 0] *)
    | arg0 :: rest =>
        let OS := OS ++ ", " in
        let argStart := getLocStart arg0 in
        let argEnd := getLocEnd (List.last rest arg0) in   (* [getArg(numArgs - 1)] *)
        OS ++ readSourceText (argStart, argEnd)
    end in
  OS ++ ")".

Definition cudaLaunchKernel (Result : MatchResult) : Handled :=
  let refName := "cudaLaunchKernel" in
  match Result with
  | cudaLaunchKernel_node launchKernel =>
      let replacementRange :=
        getWriteRange (Launch_getLocStart launchKernel, Launch_getLocEnd launchKernel) in
      let launchStart := fst replacementRange in
      let launchEnd := snd replacementRange in
      let length := getCharacterData (getLocForEndOfToken SM launchEnd)
                    - getCharacterData launchStart in
      let counter := {| hipName := "hipLaunchKernelGGL"; countType := CONV_KERN;
                        countApiType := API_RUNTIME; unsupported := false |} in
      (true,
       [insertReplacement (Rep launchStart length (launchKernelText launchKernel)) launchStart;
        incrementCounter counter refName])
  | _ => (false, [])
  end.

Definition cudaBuiltin (Result : MatchResult) : Handled :=
  match Result with
  | cudaBuiltin_node threadIdx =>
      match getBase threadIdx with
      | OpaqueValueExpr (DeclRefExpr_of declName) =>
          let sl := Member_getLocStart threadIdx in
          let name := declName in
          let memberName := getMemberDeclName threadIdx in
          let pos := StringRef.find_first_not_of "__fetch_builtin_" memberName in
          let memberName :=
            match pos with
            | Some pos => StringRef.slice pos (Some (StringRef.size memberName)) memberName
            | None => EmptyString             (* [slice(npos, size)] is empty *)
            end in
          let name := name ++ "." ++ memberName in
          match CUDA_IDENTIFIER_MAP T !! name with
          | Some found =>
              (true,
               incrementCounter found name ::
               (if negb (unsupported found) then
                  let repName := hipName found in
                  [insertReplacement (Rep sl (StringRef.size name) repName) sl]
                else []))
          | None =>
              let msg := "the following reference is not handled: '" ++ name
                         ++ "' [builtin]." in
              (true, [printHipifyMessage sl msg HIPIFY_WARNING])
          end
      | _ => (true, [])
      end
  | _ => (false, [])
  end.

Definition cudaEnumConstantRef (Result : MatchResult) : Handled :=
  match Result with
  | cudaEnumConstantRef_node enumConstantRef =>
      let name := getDeclName enumConstantRef in
      let sl := DeclRef_getLocStart enumConstantRef in
      match CUDA_IDENTIFIER_MAP T !! name with
      | Some found =>
          (true,
           incrementCounter found name ::
           (if negb (unsupported found) then
              let repName := hipName found in
              [insertReplacement (Rep sl (StringRef.size name) repName) sl]
            else []))
      | None =>
          let msg := "the following reference is not handled: '" ++ name
                     ++ "' [enum constant ref]." in
          (true, [printHipifyMessage sl msg HIPIFY_WARNING])
      end
  | _ => (false, [])
  end.

(** The local [typeName] of [cudaType] when the table is looked up. *)
Definition cudaType_typeName (ret : TypeLoc) : string :=
  let typeName := getTypeAsString ret in
  let typeName :=
    if isEnumeralType ret then removePrefixIfPresent typeName "enum " else typeName in
  let typeName :=
    if isStructureType ret then removePrefixIfPresent typeName "struct " else typeName in
  typeName.

Definition cudaType (Result : MatchResult) : Handled :=
  match Result with
  | cudaType_node ret =>
      let typeName := cudaType_typeName ret in
      match CUDA_TYPE_NAME_MAP T !! typeName with
      | None => (false, [])
      | Some hipCtr =>
          let sl := getBeginLoc ret in
          if unsupported hipCtr then
            (false, [printHipifyMessage sl ("Unsupported CUDA '" ++ typeName) HIPIFY_WARNING])
          else
            (true, [insertReplacement (Rep sl (StringRef.size typeName) (hipName hipCtr)) sl])
      end
  | _ => (false, [])
  end.

Definition cudaSharedIncompleteArrayVar (Result : MatchResult) : Handled :=
  let refName := "cudaSharedIncompleteArrayVar" in
  match Result with
  | cudaSharedIncompleteArrayVar_node sharedVar =>
      if hasExternalFormalLinkage sharedVar then
        let typeName :=
          match getIncompleteArrayElement sharedVar with
          | Some QT =>
              if isBuiltinType QT then
                match getBuiltinName QT with
                | Some BT => BT
                | None => EmptyString
                end
              else getAsString QT
          | None => EmptyString
          end in
        if negb (bool_decide (typeName = EmptyString)) then
          let slStart := Var_getLocStart sharedVar in
          let slEnd := Var_getLocEnd sharedVar in
          let repLength := getCharacterData slEnd - getCharacterData slStart + 1 in
          let varName := getNameAsString sharedVar in
          let repName := "HIP_DYNAMIC_SHARED(" ++ typeName ++ ", " ++ varName ++ ")" in
          let counter := {| hipName := "HIP_DYNAMIC_SHARED"; countType := CONV_MEM;
                            countApiType := API_RUNTIME; unsupported := false |} in
          (true,
           [insertReplacement (Rep slStart repLength repName) slStart;
            incrementCounter counter refName])
        else (true, [])
      else (true, [])
  | _ => (false, [])
  end.

Definition stringLiteral (Result : MatchResult) : Handled :=
  match Result with
  | stringLiteral_node sLiteral =>
      if bool_decide (getCharByteWidth sLiteral = 1) then
        let s := getString sLiteral in
        (true, processString s (Literal_getLocStart sLiteral))
      else (true, [])
  | _ => (false, [])
  end.

(** [if (h(Result)) return;] followed by the rest of [run]. *)
Definition orElse (h : Handled) (rest : list Call) : list Call :=
  if fst h then snd h else snd h ++ rest.

Definition run (Result : MatchResult) : list Call :=
  orElse (cudaType Result)
    (orElse (cudaCall Result)
       (orElse (cudaBuiltin Result)
          (orElse (cudaEnumConstantRef Result)
             (orElse (cudaLaunchKernel Result)
                (orElse (cudaSharedIncompleteArrayVar Result)
                   (orElse (stringLiteral Result) [])))))).

End Handlers.

(** ** The shared state of a job *)

Definition ConvTypes_encode (c : ConvTypes) : nat :=
  match c with
  | CONV_MEM => 0
  | CONV_KERN => 1
  | CONV_INCLUDE_CUDA_MAIN_H => 2
  | CONV_LITERAL => 3
  | CONV_other tag => 4 + tag
  end.

Definition ConvTypes_decode (n : nat) : ConvTypes :=
  match n with
  | 0 => CONV_MEM
  | 1 => CONV_KERN
  | 2 => CONV_INCLUDE_CUDA_MAIN_H
  | 3 => CONV_LITERAL
  | S (S (S (S tag))) => CONV_other tag
  end.

#[global] Program Instance ConvTypes_countable : Countable ConvTypes :=
  inj_countable' ConvTypes_encode ConvTypes_decode _.
Next Obligation. by intros []. Qed.

Definition ApiTypes_encode (a : ApiTypes) : nat :=
  match a with
  | API_RUNTIME => 0
  | API_other tag => S tag
  end.

Definition ApiTypes_decode (n : nat) : ApiTypes :=
  match n with
  | 0 => API_RUNTIME
  | S tag => API_other tag
  end.

#[global] Program Instance ApiTypes_countable : Countable ApiTypes :=
  inj_countable' ApiTypes_encode ApiTypes_decode _.
Next Obligation. by intros []. Qed.

(** Modelled from the spec: the class [Statistics], which is not part of
    the sources at hand: "a mapping from [(conv_type, api_family)] to an
    integer hit count; a set of line numbers where an edit landed; total
    bytes changed". *)
Record Statistics := {
  counters : gmap (ConvTypes * ApiTypes) nat;
  touchedLines : gset nat;
  touchedBytes : nat
}.

Definition Statistics_empty : Statistics :=
  {| counters := ∅; touchedLines := ∅; touchedBytes := 0 |}.

Definition counterKey (counter : hipCounter) : ConvTypes * ApiTypes :=
  (countType counter, countApiType counter).

Definition hitCount (key : ConvTypes * ApiTypes) (s : Statistics) : nat :=
  default 0 (counters s !! key).

Definition Statistics_incrementCounter (counter : hipCounter) (name : string)
    (s : Statistics) : Statistics :=
  {| counters := <[counterKey counter := S (hitCount (counterKey counter) s)]> (counters s);
     touchedLines := touchedLines s;
     touchedBytes := touchedBytes s |}.

Definition Statistics_lineTouched (lineNumber : nat) (s : Statistics) : Statistics :=
  {| counters := counters s;
     touchedLines := {[lineNumber]} ∪ touchedLines s;
     touchedBytes := touchedBytes s |}.

Definition Statistics_bytesChanged (bytes : nat) (s : Statistics) : Statistics :=
  {| counters := counters s;
     touchedLines := touchedLines s;
     touchedBytes := touchedBytes s + bytes |}.

(** The replacement set of a job, in insertion order. *)
Definition Replacements := list Replacement.

(** Two edits overlap when they share a byte of the buffer. *)
Definition overlaps (a b : Replacement) : bool :=
  (getOffset a <? getOffset b + getLength b)%nat
  && (getOffset b <? getOffset a + getLength a)%nat.

(** Modelled from the spec: [llcompat::insertReplacement] of [LLVMCompat.h],
    which is not part of the sources at hand: "If an existing edit at the
    same offset has identical [(old_length, new_text)], silently drop the
    duplicate.  If overlap is detected with differing content, reject the
    second insertion". *)
Definition llcompat_insertReplacement (Replace : Replacements) (rep : Replacement)
    : Replacements :=
  if bool_decide (rep ∈ Replace) then Replace
  else if existsb (overlaps rep) Replace then Replace
  else (Replace ++ [rep])%list.

Record State := {
  Replace : Replacements;
  stats : Statistics;          (* [Statistics::current()] *)
  errs : list string           (* what was written to [llvm::errs()] *)
}.

Definition State_init : State :=
  {| Replace := []; stats := Statistics_empty; errs := [] |}.

Definition decimal (n : nat) : string := NilZero.string_of_uint (Nat.to_uint n).

Section Perform.

Variable PrintStats : bool.          (* the option, as set when the job runs *)
Variable mainFileName : string.
Variable SM : SourceManager.

(** The bodies of [Cuda2Hip::insertReplacement] and
    [Cuda2Hip::printHipifyMessage], and the counter increment. *)
Definition perform (st : State) (c : Call) : State :=
  match c with
  | incrementCounter counter name =>
      {| Replace := Replace st;
         stats := Statistics_incrementCounter counter name (stats st);
         errs := errs st |}
  | insertReplacement rep fullSL =>
      {| Replace := llcompat_insertReplacement (Replace st) rep;
         stats :=
           if PrintStats then
             Statistics_bytesChanged (getLength rep)
               (Statistics_lineTouched (getExpansionLineNumber SM fullSL) (stats st))
           else stats st;
         errs := errs st |}
  | printHipifyMessage sl message msgType =>
      {| Replace := Replace st;
         stats := stats st;
         errs := (errs st ++
           ["[HIPIFY] " ++ getMsgType msgType ++ ": " ++ mainFileName ++ ":"
            ++ decimal (getExpansionLineNumber SM sl) ++ ":"
            ++ decimal (getExpansionColumnNumber SM sl) ++ ": " ++ message
            ++ newline]%string)%list |}
  end.

Definition performAll (st : State) (calls : list Call) : State :=
  foldl perform st calls.

End Perform.

(** ** One front-end run over a file *)

(** What the front-end reports while it processes the file: the
    preprocessor callbacks and the matches of the AST matchers. *)
Inductive Event :=
| PP_InclusionDirective (hash_loc : SourceLocation) (file_name : string)
    (is_angled : bool) (filename_range : SourceRange)
| PP_MacroDefined (MD : MacroDirective)
| PP_MacroExpands (MacroNameTok : Token) (numArgs : nat) (Args : option MacroArgs)
| AST_match (Result : MatchResult).

Section Job.

Variable T : RenameTables.
Variable PrintStats : bool.
Variable mainFileName : string.
Variable SM : SourceManager.

Definition handle (ev : Event) : list Call :=
  match ev with
  | PP_InclusionDirective hash_loc file_name is_angled filename_range =>
      InclusionDirective T SM hash_loc file_name is_angled filename_range
  | PP_MacroDefined MD => MacroDefined T SM MD
  | PP_MacroExpands MacroNameTok numArgs Args => MacroExpands T SM MacroNameTok numArgs Args
  | AST_match Result => run T SM Result
  end.

(** The state when the front-end reaches the end of the source. *)
Definition handleEvents (events : list Event) (st : State) : State :=
  performAll PrintStats mainFileName SM st (flat_map handle events).

(** [HipifyPPCallbacks::handleEndSource] *)
Definition handleEndSource (st : State) : State :=
  performAll PrintStats mainFileName SM st (insertHipHeaders (List.length (Replace st))).

Definition runJob (events : list Event) (st : State) : State :=
  handleEndSource (handleEvents events st).

End Job.

(** ** Applying the replacements ([Rewriter]) *)

Definition splice (buffer : string) (rep : Replacement) : string :=
  let stop := getOffset rep + getLength rep in
  String.substring 0 (getOffset rep) buffer
  ++ getReplacementText rep
  ++ String.substring stop (String.length buffer - stop) buffer.

(** [a] is applied before [b]: it lies further in the buffer; of two edits
    at one offset the insertion comes last, so that it ends in front. *)
Definition appliedBefore (a b : Replacement) : Prop :=
  (getOffset b < getOffset a ∨ (getOffset b = getOffset a ∧ getLength b ≤ getLength a))%nat.

#[global] Instance appliedBefore_dec a b : Decision (appliedBefore a b).
Proof. unfold appliedBefore. apply _. Defined.

(** Modelled from the spec: [RefactoringTool::applyAllReplacements] is
    clang's: "Apply edits in decreasing offset order so earlier offsets
    remain valid". *)
Definition applyAllReplacements (Replace : Replacements) (buffer : string) : string :=
  foldl splice buffer (merge_sort appliedBefore Replace).

(** ** The driver ([main]) *)

Record Options := {
  OutputFilename : string;         (* -o *)
  Inplace : bool;                  (* -inplace *)
  NoBackup : bool;                 (* -no-backup *)
  NoOutput : bool;                 (* -no-output *)
  PrintStats : bool;               (* -print-stats *)
  OutputStatsFilename : string;    (* -o-stats *)
  Examine : bool;                  (* -examine *)
  fileSources : list string        (* the positional arguments *)
}.

(** What a stream receives: text, or a report of the [Statistics] class,
    whose layout is not part of the sources at hand. *)
Inductive Output :=
| text (s : string)
| statsReport (file : string) (s : Statistics)
| aggregateReport (all : list (string * Statistics)).

(** What the operating system lets the process do with a path.  [main]
    tests the outcome of none of its operations on files; the only outcome
    it keeps is the value of [overwriteChangedFiles], which it adds to its
    result. *)
Record System := {
  opens : string → bool;             (* an output stream on the path opens *)
  overwrites : string → bool;        (* the rewriter can save the file *)
  renames : string → string → bool;  (* [rename(2)] of an existing file succeeds *)
  removes : string → bool            (* [remove(3)] of an existing file succeeds *)
}.

Record World := {
  files : gmap string string;      (* the file system: path to content *)
  stderr : list Output;            (* [llvm::errs()] *)
  csv : option (list Output);      (* what the stream of -o-stats was sent *)
  system : System
}.

(** What a run of the [RefactoringTool] over a file gives: the source
    manager, the callbacks in the order they fire, and the value of
    [Tool.run]. *)
Record ToolRun := {
  tool_SM : SourceManager;
  tool_events : list Event;
  tool_result : nat
}.

(** The front end, given the path of a file and its text, or [None] when
    the file cannot be read. *)
Definition FrontEnd := string -> option string -> ToolRun.

(** [copyFile]: the output stream truncates [dst] when it opens, and
    receives the content of [src], nothing when [src] cannot be read; when
    it does not open, nothing is written. *)
Definition copyFile (sys : System) (src dst : string) (fs : gmap string string)
    : gmap string string :=
  if opens sys dst then <[dst := default EmptyString (fs !! src)]> fs else fs.

(** [std::ofstream(path, std::ios_base::trunc)]: the file is created, or
    emptied, when the stream opens. *)
Definition truncate (sys : System) (path : string) (fs : gmap string string)
    : gmap string string :=
  if opens sys path then <[path := EmptyString]> fs else fs.

(** [rename(2)]; a call that fails changes nothing. *)
Definition rename (sys : System) (old new : string) (fs : gmap string string)
    : gmap string string :=
  match fs !! old with
  | Some content =>
      if renames sys old new then <[new := content]> (delete old fs) else fs
  | None => fs
  end.

(** [remove(3)] *)
Definition remove (sys : System) (path : string) (fs : gmap string string)
    : gmap string string :=
  if removes sys path then delete path fs else fs.

(** Modelled from the spec: [Tool.applyAllReplacements(Rewrite)] followed
    by [Rewrite.overwriteChangedFiles()], which are clang's: "overwrite the
    tmp file with rewritten content".  The rewriter holds a changed buffer
    for the file when there are replacements and the file can be read;
    the value is [true] when a changed buffer could not be saved. *)
Definition overwriteChangedFiles (sys : System) (path : string) (Replace : Replacements)
    (fs : gmap string string) : bool * gmap string string :=
  match Replace, fs !! path with
  | _ :: _, Some buffer =>
      if overwrites sys path
      then (false, <[path := applyAllReplacements Replace buffer]> fs)
      else (true, fs)
  | _, _ => (false, fs)
  end.

Definition isEmpty (s : string) : bool := bool_decide (s = EmptyString).

Definition print (o : Output) (stream : option (list Output)) : option (list Output) :=
  (fun l => l ++ [o])%list <$> stream.

Section Driver.

Variable T : RenameTables.
Variable frontEnd : FrontEnd.

(** One turn of the [for] loop of [main], from [copyFile] to the move of
    the working copy: the state of the job, what the turn adds to [Result]
    and the file system afterwards.  The front end reads the working copy,
    which is not there when it could not be created. *)
Definition translate (sys : System) (NoOutput_ PrintStats_ : bool) (src dst : string)
    (fs : gmap string string) : State * nat * gmap string string :=
  let tmpFile := src ++ ".hipify-tmp" in
  let fs := copyFile sys src tmpFile fs in
  let tool := frontEnd tmpFile (fs !! tmpFile) in
  let st := runJob T PrintStats_ tmpFile (tool_SM tool) (tool_events tool) State_init in
  let Result := tool_result tool in
  if negb NoOutput_ then
    let '(failed, fs) := overwriteChangedFiles sys tmpFile (Replace st) fs in
    let Result := Result + (if failed then 1 else 0) in
    (st, Result, rename sys tmpFile dst fs)
  else (st, Result, remove sys tmpFile fs).

(** The [for] loop of [main] and the code after it; [dst], [Result] and
    the streams are the locals of [main], [NoOutput_] and [PrintStats_]
    the two options after [-examine] was looked at, [many] is
    [fileSources.size() > 1], [seen] the statistics of the files done. *)
Fixpoint mainLoop (o : Options) (NoOutput_ PrintStats_ : bool) (many : bool)
    (sources : list string) (dst : string) (Result : nat)
    (seen : list (string * Statistics)) (w : World) : nat * World :=
  match sources with
  | [] =>
      if many then
        (Result,
         {| files := files w;
            stderr := if PrintStats_ then (stderr w ++ [aggregateReport seen])%list
                      else stderr w;
            csv := print (aggregateReport seen) (csv w);
            system := system w |})
      else (Result, w)
  | src :: sources' =>
      if negb (isEmpty dst) && Inplace o then
        (1, {| files := files w;
               stderr := (stderr w ++
                 [text ("[HIPIFY] conflict: both -o and -inplace options are specified."
                        ++ newline)])%list;
               csv := csv w;
               system := system w |})
      else
        let dst := if isEmpty dst then (if Inplace o then src else src ++ ".hip") else dst in
        let '(st, result, fs) :=
          translate (system w) NoOutput_ PrintStats_ src dst (files w) in
        let Result := Result + result in
        let w :=
          {| files := fs;
             stderr := ((stderr w ++ (text <$> errs st)) ++
                        (if PrintStats_ then [statsReport src (stats st)] else []))%list;
             csv := print (statsReport src (stats st)) (csv w);
             system := system w |} in
        mainLoop o NoOutput_ PrintStats_ many sources' EmptyString Result
                 (seen ++ [(src, stats st)])%list w
  end.

Definition conflict (message : string) (w : World) : nat * World :=
  (1, {| files := files w;
         stderr := (stderr w ++ [text ("[HIPIFY] conflict: " ++ message ++ newline)])%list;
         csv := csv w;
         system := system w |}).

Definition main (o : Options) (w : World) : nat * World :=
  let dst := OutputFilename o in
  if negb (isEmpty dst) && (1 <? List.length (fileSources o))%nat then
    conflict "-o and multiple source files are specified." w
  else if NoOutput o && Inplace o then
    conflict "both -no-output and -inplace options are specified." w
  else if NoOutput o && negb (isEmpty dst) then
    conflict "both -no-output and -o options are specified." w
  else
    let NoOutput_ := if Examine o then true else NoOutput o in
    let PrintStats_ := if Examine o then true else PrintStats o in
    let w :=
      {| files := if negb (isEmpty (OutputStatsFilename o))
                  then truncate (system w) (OutputStatsFilename o) (files w)
                  else files w;
         stderr := stderr w;
         csv := if negb (isEmpty (OutputStatsFilename o)) then Some [] else None;
         system := system w |} in
    mainLoop o NoOutput_ PrintStats_ (1 <? List.length (fileSources o))%nat
             (fileSources o) dst 0 [] w.

End Driver.
(** * The fill and copy kernels of [hip_hcc.h]

    [src/include/hcc_detail/hip_hcc.h] defines two kernels,
    [ihipMemsetKernel] and [ihipMemcpyKernel].  Both compute a number of
    threads from the compute units of the device and the size, and launch
    that many work-items, tiled by 256; every work-item runs the same
    strided loop.  The integers are modelled in [Z].  The number of threads
    is at most 2048 (proved below), so that its computation never wraps.
    The loop counter [i] is an [int] that is compared with the [size_t]
    [sizeBytes]: its addition wraps at 32 bits, as on the device (C++ leaves
    the overflow undefined), and the comparison converts it to 64 unsigned
    bits.  An array is a function from the index to the element, and the
    two arrays of the copy do not overlap.  The work-items are run one after
    the other in the order of their global id; for the sizes that keep the
    counter in range they write disjoint indices (proved below), so that
    the order does not matter. *)

Module HipHcc.

Open Scope Z_scope.

Definition threads_per_wg : Z := 256.

(** The extent of the launch: the local [threads] of both kernels, for a
    device of [compute_units] units. *)
Definition launchThreads (compute_units sizeBytes : Z) : Z :=
  let wg := Z.min 8 compute_units in
  let threads := wg * threads_per_wg in
  if threads >? sizeBytes
  then ((sizeBytes + threads_per_wg - 1) / threads_per_wg) * threads_per_wg
  else threads.

(** [amp_get_local_size(0) * hc_get_num_groups(0)] in a launch of
    [threads] work-items tiled by [threads_per_wg]. *)
Definition launchStride (threads : Z) : Z :=
  threads_per_wg * (threads / threads_per_wg).

(** The [int] that an addition of two [int]s leaves in a register of 32
    bits, two's complement. *)
Definition wrap_int (z : Z) : Z := (z + 2 ^ 31) `mod` 2 ^ 32 - 2 ^ 31.

(** An [int] converted to [size_t], of 64 bits. *)
Definition to_size_t (z : Z) : Z := z `mod` 2 ^ 64.

Section Kernel.

Context {Array : Type}.

(** The loop [for (int i = offset; i < sizeBytes; i += stride) body(i)] of
    one work-item: [i] is converted to [size_t] for the test, and [i +=
    stride] wraps; [None] when the fuel runs out. *)
Fixpoint workItem (fuel : nat) (i stride sizeBytes : Z) (body : Z → Array → Array)
    (a : Array) : option Array :=
  match fuel with
  | O => None
  | S fuel' =>
      if to_size_t i <? sizeBytes
      then workItem fuel' (wrap_int (i + stride)) stride sizeBytes body (body i a)
      else Some a
  end.

(** [hc::parallel_for_each] over the extent [threads]: the work-item of
    global id [offset] starts its loop at [offset]; an empty extent
    launches no work-item. *)
Definition parallel_for_each (threads sizeBytes : Z) (body : Z → Array → Array)
    (a : Array) : option Array :=
  let stride := launchStride threads in
  foldl (λ (acc : option Array) (offset : Z),
           match acc with
           | Some a' => workItem (S (Z.to_nat sizeBytes)) offset stride sizeBytes body a'
           | None => None
           end)
        (Some a) (seqZ 0 threads).

End Kernel.

(** [ptr[i] = x] *)
Definition store {T : Type} (i : Z) (x : T) (ptr : Z → T) : Z → T :=
  λ j, if decide (j = i) then x else ptr j.

Definition ihipMemsetKernel {T : Type} (compute_units : Z) (ptr : Z → T) (val : T)
    (sizeBytes : Z) : option (Z → T) :=
  let threads := launchThreads compute_units sizeBytes in
  parallel_for_each threads sizeBytes (λ i ptr, store i val ptr) ptr.

Definition ihipMemcpyKernel {T : Type} (compute_units : Z) (c a : Z → T)
    (sizeBytes : Z) : option (Z → T) :=
  let threads := launchThreads compute_units sizeBytes in
  parallel_for_each threads sizeBytes (λ i c, store i (a i) c) c.

(** The indices that the work-items write, in the order of the writes. *)
Definition writtenIndices (compute_units sizeBytes : Z) : option (list Z) :=
  let threads := launchThreads compute_units sizeBytes in
  parallel_for_each threads sizeBytes (λ i (written : list Z), written ++ [i])%list [].

End HipHcc.

(** ** The string-literal scan, described by the positions it visits *)

Definition occursAt (str s : string) (p : nat) : Prop :=
  String.substring p (String.length str) s = str.

(** [b] is the first position at or after [from] where [str] occurs. *)
Definition firstOccurrence (str : string) (from : nat) (s : string) (b : nat) : Prop :=
  (from ≤ b)%nat ∧ occursAt str s b ∧ ∀ p, (from ≤ p < b)%nat → ¬ occursAt str s p.

Definition noOccurrence (str : string) (from : nat) (s : string) : Prop :=
  ∀ p, (from ≤ p)%nat → ¬ occursAt str s p.

Definition space : ascii := ascii_of_nat 32.

(** [e] is the position of the first space character at or after [from]. *)
Definition firstSpace (from : nat) (s : string) (e : nat) : Prop :=
  (from ≤ e)%nat ∧ String.get e s = Some space
  ∧ ∀ p, (from ≤ p < e)%nat → String.get p s ≠ Some space.

Definition noSpace (from : nat) (s : string) : Prop :=
  ∀ p, (from ≤ p)%nat → String.get p s ≠ Some space.

(** [Scan s r visits]: resumed at position [r], the scan of [s] visits the
    occurrences [b] of the prefix with the ends [e] listed in [visits]
    ([None] is the end of the string). *)
Inductive Scan (s : string) : nat → list (nat * option nat) → Prop :=
| Scan_done r :
    noOccurrence "cu" r s → Scan s r []
| Scan_last r b :
    firstOccurrence "cu" r s b → noSpace (b + 4) s → Scan s r [(b, None)]
| Scan_more r b e rest :
    firstOccurrence "cu" r s b → firstSpace (b + 4) s e → Scan s (e + 1) rest →
    Scan s r ((b, Some e) :: rest).

(** What the scan does with the candidate [[b, e)], in the words of the
    specification: the counter of string literals is incremented when the
    candidate is in the table, and one edit replaces the candidate by the
    DST name when the entry is supported. *)
Definition candidateCalls (T : RenameTables) (s : string) (start : SourceLocation)
    (visit : nat * option nat) : list Call :=
  let b := fst visit in
  let candidate := StringRef.slice b (snd visit) s in
  match CUDA_RENAMES_MAP T !! candidate with
  | None => []
  | Some entry =>
      let counter := {| hipName := "[string literal]"; countType := CONV_LITERAL;
                        countApiType := API_RUNTIME; unsupported := unsupported entry |} in
      if unsupported entry then [incrementCounter counter candidate]
      else [incrementCounter counter candidate;
            insertReplacement (Rep (start + b + 1) (String.length candidate) (hipName entry))
                              (start + b + 1)]
  end.

(** ** Counting the calls of a handler *)

Definition editOf (c : Call) : option Replacement :=
  match c with
  | insertReplacement rep _ => Some rep
  | _ => None
  end.

(** The edits a sequence of calls emits, in order. *)
Definition editsOf (calls : list Call) : list Replacement := omap editOf calls.

Definition isIncrement (c : Call) : bool :=
  match c with
  | incrementCounter _ _ => true
  | _ => false
  end.

(** An increment of a counter that is not flagged unsupported. *)
Definition isSupportedIncrement (c : Call) : bool :=
  match c with
  | incrementCounter counter _ => negb (unsupported counter)
  | _ => false
  end.

Definition isWarning (c : Call) : bool :=
  match c with
  | printHipifyMessage _ _ HIPIFY_WARNING => true
  | _ => false
  end.

Definition countEdits (calls : list Call) : nat := List.length (editsOf calls).
Definition countIncrements (calls : list Call) : nat := List.length (List.filter isIncrement calls).
Definition countSupportedIncrements (calls : list Call) : nat :=
  List.length (List.filter isSupportedIncrement calls).
Definition countWarnings (calls : list Call) : nat := List.length (List.filter isWarning calls).

(** The edits of the calls are as many as the increments of a counter
    that is not flagged unsupported. *)
Definition balanced (calls : list Call) : Prop :=
  countEdits calls = countSupportedIncrements calls.

(** The calls write no warning. *)
Definition quiet (calls : list Call) : Prop := countWarnings calls = 0.

(** Counts the calls of a list that is written out. *)
Ltac count_calls :=
  unfold balanced, quiet, countEdits, countSupportedIncrements, countIncrements, countWarnings;
  cbn;
  repeat match goal with H : unsupported _ = _ |- _ => rewrite H end;
  cbn; try done; try lia.

Definition isTypeMatch (ev : Event) : bool :=
  match ev with
  | AST_match (cudaType_node _) => true
  | _ => false
  end.

(** ** The launch replacement, as the specification writes it *)


(** The line that [printHipifyMessage] writes for a warning. *)
Definition warningLine (mainFileName : string) (SM : SourceManager) (sl : SourceLocation)
    (message : string) : string :=
  "[HIPIFY] warning: " ++ mainFileName ++ ":" ++ decimal (getExpansionLineNumber SM sl)
  ++ ":" ++ decimal (getExpansionColumnNumber SM sl) ++ ": " ++ message ++ newline.

(** ** Reports without touched lines and bytes *)



(** ** The output path of a source *)

(** The destination that [main] computes for [src] on the first turn of
    its loop. *)
Definition destination (o : Options) (src : string) : string :=
  if isEmpty (OutputFilename o) then (if Inplace o then src else src ++ ".hip")
  else OutputFilename o.

Definition setNoBackup (b : bool) (o : Options) : Options :=
  {| OutputFilename := OutputFilename o; Inplace := Inplace o; NoBackup := b;
     NoOutput := NoOutput o; PrintStats := PrintStats o;
     OutputStatsFilename := OutputStatsFilename o; Examine := Examine o;
     fileSources := fileSources o |}.

(** The command line [-examine -inplace src]. *)
Definition examine_inplace (src : string) : Options :=
  {| OutputFilename := EmptyString; Inplace := true; NoBackup := false; NoOutput := false;
     PrintStats := false; OutputStatsFilename := EmptyString; Examine := true;
     fileSources := [src] |}.

(** The command line [-no-output -print-stats -inplace src]. *)
Definition no_output_print_stats_inplace (src : string) : Options :=
  {| OutputFilename := EmptyString; Inplace := true; NoBackup := false; NoOutput := true;
     PrintStats := true; OutputStatsFilename := EmptyString; Examine := false;
     fileSources := [src] |}.

(** The command line [-inplace src]. *)
Definition inplace (src : string) : Options :=
  {| OutputFilename := EmptyString; Inplace := true; NoBackup := false; NoOutput := false;
     PrintStats := false; OutputStatsFilename := EmptyString; Examine := false;
     fileSources := [src] |}.

(** ** Predicates of the specification *)

(** The characters that count as whitespace (those of [isspace]): the
    space, and the controls from the tabulation to the carriage return. *)
Definition isWhitespace (c : ascii) : bool :=
  let n := nat_of_ascii c in
  (n =? 32)%nat || ((9 <=? n)%nat && (n <=? 13)%nat).

(** [e] is the position of the first whitespace character of [s] at or
    after [from]. *)
Definition firstWhitespace (from : nat) (s : string) (e : nat) : Prop :=
  (from ≤ e)%nat
  ∧ (∃ c, String.get e s = Some c ∧ isWhitespace c = true)
  ∧ ∀ p c, (from ≤ p < e)%nat → String.get p s = Some c → isWhitespace c = false.

(** The number of positions of [s] at which [str] occurs. *)
Fixpoint occurrences (str s : string) : nat :=
  match s with
  | EmptyString => 0
  | String _ s' => (if String.prefix str s then 1 else 0) + occurrences str s'
  end.


(** The width of a character of the literal that adjacent string-literal
    tokens spell together: an encoding prefix on one of them makes the
    whole literal one of wide characters. *)
Definition literalCharByteWidth (wchar : nat) (toks : list Token) : nat :=
  foldr (λ t width, Nat.max (tokenCharByteWidth wchar (getKind t)) width) 1 toks.




(** The text that the front end finds in the working copy of [src], after
    [copyFile]; [None] when there is no working copy. *)
Definition workingText (src : string) (w : World) : option string :=
  let tmpFile := src ++ ".hipify-tmp" in
  copyFile (system w) src tmpFile (files w) !! tmpFile.

(** A system that refuses nothing. *)
Definition permissive : System :=
  {| opens := λ _, true; overwrites := λ _, true; renames := λ _ _, true;
     removes := λ _, true |}.

(** ** The turns of the loop of [main] *)

(** The destination of [src] in a turn that the loop enters with the local
    [dst]. *)
Definition destinationIn (o : Options) (dst src : string) : string :=
  if isEmpty dst then (if Inplace o then src else src ++ ".hip") else dst.

(** The sources with their destinations, in the order of the turns: the
    loop is entered with [dst], which is empty from the second turn on. *)
Definition jobsOf (o : Options) (dst : string) (sources : list string)
    : list (string * string) :=
  match sources with
  | [] => []
  | src :: sources' =>
      (src, destinationIn o dst src)
      :: ((λ src', (src', destinationIn o EmptyString src')) <$> sources')
  end.

(** ** Concrete inputs for the examples *)

Definition hipMalloc_entry : hipCounter :=
  {| hipName := "hipMalloc"; countType := CONV_MEM; countApiType := API_RUNTIME;
     unsupported := false |}.

Definition tables_cudaMalloc : RenameTables :=
  {| CUDA_RENAMES_MAP := {[ "cudaMalloc" := hipMalloc_entry ]};
     CUDA_IDENTIFIER_MAP := {[ "cudaMalloc" := hipMalloc_entry ]};
     CUDA_TYPE_NAME_MAP := ∅;
     CUDA_INCLUDE_MAP := ∅ |}.


Definition sourceManager_example : SourceManager :=
  {| isWrittenInMainFile := λ _, true;
     getExpansionLineNumber := λ _, 1;
     getExpansionColumnNumber := λ sl, S sl;
     isMacroBodyExpansion := λ _, false;
     isAtStartOfMacroExpansion := λ _, false;
     isAtEndOfMacroExpansion := λ _, false;
     getFileLoc := λ sl, sl;
     getSpellingLoc := λ sl, sl;
     getLocForEndOfToken := λ sl, S sl;
     getSourceText := λ _, EmptyString |}.

(** The token [u"cudaMalloc"]. *)
Definition utf16_token : Token :=
  {| getKind := tok_utf16_string_literal;
     getLiteralData := "u" ++ String (ascii_of_nat 34) ("cudaMalloc" ++ String (ascii_of_nat 34) EmptyString);
     getLocation := 0;
     getIdentifierName := EmptyString |}.

(** The literal [L"cudaMalloc"], of four bytes a character. *)
Definition wide_literal : StringLiteral :=
  {| getCharByteWidth := 4; getString := "cudaMalloc"; Literal_getLocStart := 0 |}.

Definition unsupported_entry : hipCounter :=
  {| hipName := "hipUnsupported"; countType := CONV_other 0; countApiType := API_RUNTIME;
     unsupported := true |}.

(** Tables that flag the name [cudaOld] as unsupported at every lookup. *)
Definition tables_unsupported : RenameTables :=
  {| CUDA_RENAMES_MAP := {[ "cudaOld" := unsupported_entry ]};
     CUDA_IDENTIFIER_MAP := {[ "cudaOld" := unsupported_entry ]};
     CUDA_TYPE_NAME_MAP := {[ "cudaOld" := unsupported_entry ]};
     CUDA_INCLUDE_MAP := {[ "cudaOld" := unsupported_entry ]} |}.

Definition tables_empty : RenameTables :=
  {| CUDA_RENAMES_MAP := ∅; CUDA_IDENTIFIER_MAP := ∅;
     CUDA_TYPE_NAME_MAP := ∅; CUDA_INCLUDE_MAP := ∅ |}.

Definition call_cudaOld : CallExpr :=
  {| getDirectCalleeName := "cudaOld"; CallExpr_getLocStart := 7 |}.

Definition token_cudaOld : Token :=
  {| getKind := tok_identifier; getLiteralData := "cudaOld"; getLocation := 7;
     getIdentifierName := "cudaOld" |}.

Definition type_cudaOld : TypeLoc :=
  {| getTypeAsString := "struct cudaOld"; isEnumeralType := false; isStructureType := true;
     getBeginLoc := 7 |}.

Definition call_cuFoo : CallExpr :=
  {| getDirectCalleeName := "cuFoo"; CallExpr_getLocStart := 7 |}.

(** The file [a.cu]: a kernel and its launch, and no name of any table.
    The launch is on line 2, from offset 36 to the closing parenthesis at
    offset 48. *)
Definition launch_source : string :=
  "__global__ void k(int x){}" ++ newline ++ "void f(){k<<<1,1>>>(0);}".

(** A source manager for a file without macros, whose second line begins at
    offset 27; the tokens that are asked for are one character long. *)
Definition sourceManager_of (buffer : string) : SourceManager :=
  {| isWrittenInMainFile := λ _, true;
     getExpansionLineNumber := λ sl, if (sl <? 27)%nat then 1 else 2;
     getExpansionColumnNumber := λ sl, if (sl <? 27)%nat then S sl else sl - 26;
     isMacroBodyExpansion := λ _, false;
     isAtStartOfMacroExpansion := λ _, false;
     isAtEndOfMacroExpansion := λ _, false;
     getFileLoc := λ sl, sl;
     getSpellingLoc := λ sl, sl;
     getLocForEndOfToken := λ sl, S sl;
     getSourceText := λ r, String.substring (fst r) (S (snd r) - fst r) buffer |}.

Definition written (at_ : nat) : Expr :=
  {| isCXXDefaultArgExpr := false; getSourceRange := (at_, at_) |}.

Definition defaulted : Expr :=
  {| isCXXDefaultArgExpr := true; getSourceRange := (0, 0) |}.

(** [k<<<1,1>>>(0)] *)
Definition launch_node : CUDAKernelCallExpr :=
  {| getCallee := written 36;
     getConfigArg0 := written 40;
     getConfigArg1 := written 42;
     getConfigArg2 := defaulted;
     getConfigArg3 := defaulted;
     getArgs := [written 47];
     Launch_getLocStart := 36;
     Launch_getLocEnd := 48 |}.

Definition builtin_type (name : string) (at_ : nat) : TypeLoc :=
  {| getTypeAsString := name; isEnumeralType := false; isStructureType := false;
     getBeginLoc := at_ |}.

(** The run of the tool over a file that cannot be read: an error, and no
    callback. *)
Definition unreadable : ToolRun :=
  {| tool_SM := sourceManager_of EmptyString; tool_events := []; tool_result := 1 |}.

(** The matches in [a.cu]: the types written in it and the launch. *)
Definition frontEnd_launch : FrontEnd :=
  λ _ file,
    match file with
    | Some buffer =>
        {| tool_SM := sourceManager_of buffer;
           tool_events :=
             [AST_match (cudaType_node (builtin_type "void" 11));
              AST_match (cudaType_node (builtin_type "int" 18));
              AST_match (cudaType_node (builtin_type "void" 27));
              AST_match (cudaLaunchKernel_node launch_node)];
           tool_result := 0 |}
    | None => unreadable
    end.

Definition world_a_cu : World :=
  {| files := {[ "a.cu" := launch_source ]}; stderr := []; csv := None;
     system := permissive |}.

Definition options_default : Options :=
  {| OutputFilename := EmptyString; Inplace := false; NoBackup := false; NoOutput := false;
     PrintStats := false; OutputStatsFilename := EmptyString; Examine := false;
     fileSources := ["a.cu"] |}.

(** [hipify-clang -inplace a.cu] *)
Definition options_inplace : Options :=
  {| OutputFilename := EmptyString; Inplace := true; NoBackup := false; NoOutput := false;
     PrintStats := false; OutputStatsFilename := EmptyString; Examine := false;
     fileSources := ["a.cu"] |}.

(** [hipify-clang -examine -inplace a.cu] *)
Definition options_examine_inplace : Options :=
  {| OutputFilename := EmptyString; Inplace := true; NoBackup := false; NoOutput := false;
     PrintStats := false; OutputStatsFilename := EmptyString; Examine := true;
     fileSources := ["a.cu"] |}.

(** [hipify-clang -no-output -print-stats -inplace a.cu] *)
Definition options_no_output_inplace : Options :=
  {| OutputFilename := EmptyString; Inplace := true; NoBackup := false; NoOutput := true;
     PrintStats := true; OutputStatsFilename := EmptyString; Examine := false;
     fileSources := ["a.cu"] |}.

(** [hipify-clang -o-stats stats.csv a.cu] *)
Definition options_o_stats : Options :=
  {| OutputFilename := EmptyString; Inplace := false; NoBackup := false; NoOutput := false;
     PrintStats := false; OutputStatsFilename := "stats.csv"; Examine := false;
     fileSources := ["a.cu"] |}.

Definition launch_translated : string :=
  "#include <hip/hip_runtime.h>" ++ newline
  ++ "__global__ void k(int x){}" ++ newline
  ++ "void f(){hipLaunchKernelGGL(k, dim3(1), dim3(1), 0, 0, 0);}".

Definition enum_cuFoo : DeclRefExpr :=
  {| getDeclName := "cuFoo"; DeclRef_getLocStart := 7 |}.

(** [threadIdx.x], as clang represents it. *)
Definition member_threadIdx_x : MemberExpr :=
  {| getBase := OpaqueValueExpr (DeclRefExpr_of "threadIdx");
     getMemberDeclName := "__fetch_builtin_x";
     Member_getLocStart := 7 |}.

Definition hipThreadIdx_x_entry : hipCounter :=
  {| hipName := "hipThreadIdx_x"; countType := CONV_other 1; countApiType := API_RUNTIME;
     unsupported := false |}.

Definition tables_builtin : RenameTables :=
  {| CUDA_RENAMES_MAP := ∅;
     CUDA_IDENTIFIER_MAP := {[ "threadIdx.x" := hipThreadIdx_x_entry ]};
     CUDA_TYPE_NAME_MAP := ∅;
     CUDA_INCLUDE_MAP := ∅ |}.

Definition call_cudaMalloc : CallExpr :=
  {| getDirectCalleeName := "cudaMalloc"; CallExpr_getLocStart := 7 |}.

Definition token_cudaMalloc : Token :=
  {| getKind := tok_identifier; getLiteralData := "cudaMalloc"; getLocation := 7;
     getIdentifierName := "cudaMalloc" |}.

(** [extern __shared__ float buf[];], from offset 0 to the bracket at 27. *)
Definition shared_buf : VarDecl :=
  {| hasExternalFormalLinkage := true;
     getIncompleteArrayElement :=
       Some {| isBuiltinType := true; getBuiltinName := Some "float"; getAsString := "float" |};
     getNameAsString := "buf";
     Var_getLocStart := 0;
     Var_getLocEnd := 27 |}.

(** ** A file with an include directive of the runtime header *)

(** The entry of [cuda_runtime.h] in the table of includes. *)
Definition hip_runtime_entry : hipCounter :=
  {| hipName := "hip/hip_runtime.h"; countType := CONV_INCLUDE_CUDA_MAIN_H;
     countApiType := API_RUNTIME; unsupported := false |}.

Definition tables_include : RenameTables :=
  {| CUDA_RENAMES_MAP := ∅; CUDA_IDENTIFIER_MAP := ∅; CUDA_TYPE_NAME_MAP := ∅;
     CUDA_INCLUDE_MAP := {[ "cuda_runtime.h" := hip_runtime_entry ]} |}.

(** The file [inc.cu]: the name of the header, with its angle brackets,
    goes from offset 9 to offset 25. *)
Definition include_source : string :=
  "#include <cuda_runtime.h>" ++ newline ++ "int x;".

Definition frontEnd_include : FrontEnd :=
  λ _ file,
    match file with
    | Some buffer =>
        {| tool_SM := sourceManager_of buffer;
           tool_events :=
             [PP_InclusionDirective 0 "cuda_runtime.h" true (9, 25);
              AST_match (cudaType_node (builtin_type "int" 26))];
           tool_result := 0 |}
    | None => unreadable
    end.

Definition world_inc_cu : World :=
  {| files := {[ "inc.cu" := include_source ]}; stderr := []; csv := None;
     system := permissive |}.

(** [hipify-clang inc.cu] *)
Definition options_inc_cu : Options :=
  {| OutputFilename := EmptyString; Inplace := false; NoBackup := false; NoOutput := false;
     PrintStats := false; OutputStatsFilename := EmptyString; Examine := false;
     fileSources := ["inc.cu"] |}.

Definition include_translated : string :=
  "#include <hip/hip_runtime.h>" ++ newline
  ++ "#include <hip/hip_runtime.h>" ++ newline ++ "int x;".

(** ** A file without any name of the source API *)

(** The file [b.cpp]. *)
Definition plain_source : string := "int main(){return 0;}".

(** The front end on [a.cu] and on [b.cpp]: it reports the launch in the
    first, and in the second only the types that are written in it, that of
    the function and that of its result. *)
Definition frontEnd_by_content : FrontEnd :=
  λ path file,
    if bool_decide (file = Some plain_source) then
      {| tool_SM := sourceManager_of plain_source;
         tool_events := [AST_match (cudaType_node (builtin_type "int ()" 0));
                         AST_match (cudaType_node (builtin_type "int" 0))];
         tool_result := 0 |}
    else frontEnd_launch path file.

Definition world_two_files : World :=
  {| files := {[ "a.cu" := launch_source; "b.cpp" := plain_source ]};
     stderr := []; csv := None; system := permissive |}.

(** [hipify-clang a.cu b.cpp] *)
Definition options_two_files : Options :=
  {| OutputFilename := EmptyString; Inplace := false; NoBackup := false; NoOutput := false;
     PrintStats := false; OutputStatsFilename := EmptyString; Examine := false;
     fileSources := ["a.cu"; "b.cpp"] |}.

(** ** A literal of wide characters spelled by two tokens *)

(** The tokens of [L"x" "cudaMalloc failed"], at the offsets 20 and 25. *)
Definition wide_part : Token :=
  {| getKind := tok_wide_string_literal;
     getLiteralData := "L" ++ String (ascii_of_nat 34) ("x" ++ String (ascii_of_nat 34) EmptyString);
     getLocation := 20;
     getIdentifierName := EmptyString |}.

Definition plain_part : Token :=
  {| getKind := tok_string_literal;
     getLiteralData := String (ascii_of_nat 34)
                         ("cudaMalloc failed" ++ String (ascii_of_nat 34) EmptyString);
     getLocation := 25;
     getIdentifierName := EmptyString |}.

(** [#define MSG L"x" "cudaMalloc failed"] *)
Definition define_MSG : MacroDirective :=
  {| MD_getLocation := 8; MD_getKind := MD_Define; MD_tokens := [wide_part; plain_part] |}.

(** The bytes of a string of wide characters, four for each. *)
Fixpoint widen (s : string) : string :=
  match s with
  | EmptyString => EmptyString
  | String c s' => String c (String zero (String zero (String zero (widen s'))))
  end.

(** The literal that the two tokens form, as the AST has it. *)
Definition MSG_literal : StringLiteral :=
  {| getCharByteWidth := 4; getString := widen "xcudaMalloc failed";
     Literal_getLocStart := 20 |}.

(** ** Systems that refuse an operation *)

(** A system on which no file can be moved: the directory of the
    destination does not exist. *)
Definition system_no_rename : System :=
  {| opens := λ _, true; overwrites := λ _, true; renames := λ _ _, false;
     removes := λ _, true |}.

Definition world_no_rename : World :=
  {| files := {[ "b.cpp" := plain_source ]}; stderr := []; csv := None;
     system := system_no_rename |}.

(** [hipify-clang -o nodir/out.cpp b.cpp] *)
Definition options_o_nodir : Options :=
  {| OutputFilename := "nodir/out.cpp"; Inplace := false; NoBackup := false;
     NoOutput := false; PrintStats := false; OutputStatsFilename := EmptyString;
     Examine := false; fileSources := ["b.cpp"] |}.

(** ** A run whose first output is its second input *)

(** A front end for files that hold no name of the source API: it reports
    the type at the begin of the file. *)
Definition frontEnd_plain : FrontEnd :=
  λ _ file,
    match file with
    | Some buffer =>
        {| tool_SM := sourceManager_of buffer;
           tool_events := [AST_match (cudaType_node (builtin_type "int" 0))];
           tool_result := 0 |}
    | None => unreadable
    end.

Definition world_shadowed : World :=
  {| files := {[ "x.cpp" := plain_source; "x.cpp.hip" := "int y;" ]};
     stderr := []; csv := None; system := permissive |}.

(** [hipify-clang x.cpp x.cpp.hip] *)
Definition options_shadowed : Options :=
  {| OutputFilename := EmptyString; Inplace := false; NoBackup := false; NoOutput := false;
     PrintStats := false; OutputStatsFilename := EmptyString; Examine := false;
     fileSources := ["x.cpp"; "x.cpp.hip"] |}.

(** ** Edits in the order of the buffer *)

(** [a] ends before [b] begins, with at least one byte between them. *)
Definition precedes (a b : Replacement) : Prop :=
  (getOffset a + getLength a < getOffset b)%nat.

(** The edit lies inside the literal that begins at [start] (the opening
    quote) and has the body [s]. *)
Definition insideLiteral (start : SourceLocation) (s : string) (rep : Replacement) : Prop :=
  (start + 1 ≤ getOffset rep ∧ getOffset rep + getLength rep ≤ start + 1 + String.length s)%nat.

(** What a call of the string rewriter may be: the count of a name that
    begins with the prefix, or the edit of such a name of the table. *)
Definition literalCall (T : RenameTables) (c : Call) : Prop :=
  match c with
  | incrementCounter counter name =>
      String.prefix "cu" name = true
      ∧ hipName counter = "[string literal]"
      ∧ countType counter = CONV_LITERAL
      ∧ ∃ entry, CUDA_RENAMES_MAP T !! name = Some entry ∧ unsupported counter = unsupported entry
  | insertReplacement rep _ =>
      ∃ name entry, CUDA_RENAMES_MAP T !! name = Some entry
                    ∧ unsupported entry = false
                    ∧ String.prefix "cu" name = true
                    ∧ getLength rep = String.length name
                    ∧ getReplacementText rep = hipName entry
  | printHipifyMessage _ _ _ => False
  end.

(** ** Callbacks that the preprocessor observer ignores *)

(** A callback for a directive or a macro use that is not written in the
    main file. *)
Definition outsideMainFile (SM : SourceManager) (ev : Event) : bool :=
  match ev with
  | PP_InclusionDirective hash_loc _ _ _ => negb (isWrittenInMainFile SM hash_loc)
  | PP_MacroDefined MD => negb (isWrittenInMainFile SM (MD_getLocation MD))
  | PP_MacroExpands MacroNameTok _ _ => negb (isWrittenInMainFile SM (getLocation MacroNameTok))
  | AST_match _ => false
  end.

(** The handler that [run] lets act on a match. *)
Definition handlerOf (T : RenameTables) (SM : SourceManager) (Result : MatchResult) : Handled :=
  match Result with
  | cudaCall_node _ => cudaCall T Result
  | cudaType_node _ => cudaType T Result
  | stringLiteral_node _ => stringLiteral T Result
  | cudaLaunchKernel_node _ => cudaLaunchKernel SM Result
  | cudaBuiltin_node _ => cudaBuiltin T Result
  | cudaEnumConstantRef_node _ => cudaEnumConstantRef T Result
  | cudaSharedIncompleteArrayVar_node _ => cudaSharedIncompleteArrayVar Result
  end.

(** The line that [printHipifyMessage] writes. *)
Definition messageLine (mainFileName : string) (SM : SourceManager) (sl : SourceLocation)
    (message : string) (msgType : msgTypes) : string :=
  "[HIPIFY] " ++ getMsgType msgType ++ ": " ++ mainFileName ++ ":"
  ++ decimal (getExpansionLineNumber SM sl) ++ ":"
  ++ decimal (getExpansionColumnNumber SM sl) ++ ": " ++ message ++ newline.

(** The lines that a sequence of calls writes to stderr, in order. *)
Definition linesOf (mainFileName : string) (SM : SourceManager) (calls : list Call)
    : list string :=
  omap (λ c, match c with
             | printHipifyMessage sl message msgType =>
                 Some (messageLine mainFileName SM sl message msgType)
             | _ => None
             end) calls.

(** The bytes that the edits of a sequence of calls replace, whether the
    replacement set takes them or not. *)
Definition bytesOf (calls : list Call) : nat :=
  foldr (λ rep n, getLength rep + n) 0 (editsOf calls).

(** A call that is not a diagnostic of type error. *)
Definition warnsOnly (c : Call) : Prop :=
  match c with
  | printHipifyMessage _ _ msgType => msgType = HIPIFY_WARNING
  | _ => True
  end.

(** ** Command lines *)

(** The four conflicts of options that [main] reports. *)
Definition optionsConflict (o : Options) : bool :=
  (negb (isEmpty (OutputFilename o)) && (1 <? List.length (fileSources o))%nat)
  || (NoOutput o && Inplace o)
  || (NoOutput o && negb (isEmpty (OutputFilename o)))
  || (negb (isEmpty (OutputFilename o)) && Inplace o
      && negb (bool_decide (fileSources o = []))).

(** The conflicts that [main] finds before it touches any file. *)
Definition earlyConflict (o : Options) : bool :=
  (negb (isEmpty (OutputFilename o)) && (1 <? List.length (fileSources o))%nat)
  || (NoOutput o && Inplace o)
  || (NoOutput o && negb (isEmpty (OutputFilename o))).

Definition workingCopy (src : string) : string := src ++ ".hipify-tmp".

(** The reports of a stream as a list: one per file, then the aggregate
    when [many] is set. *)
Definition reportsOf (many : bool) (entries : list (string * Statistics)) : list Output :=
  ((λ entry, statsReport (fst entry) (snd entry)) <$> entries)
  ++ (if many then [aggregateReport entries] else []).

Definition isReport (o : Output) : bool :=
  match o with
  | text _ => false
  | _ => true
  end.

(** ** The strided loop of a work-item *)

(** The work-item that starts at [offset] reaches the index [j]. *)
Definition reaches (stride sizeBytes offset j : Z) : Prop :=
  (offset ≤ j < sizeBytes ∧ (j - offset) `mod` stride = 0)%Z.

#[global] Instance reaches_dec stride sizeBytes offset j :
  Decision (reaches stride sizeBytes offset j).
Proof. unfold reaches. apply _. Defined.

(** The largest [int]: the loop counter of a work-item stays below it when
    the size and one stride do. *)
Definition INT_MAX : Z := 2147483647.

(** * Properties *)

(** ** Strings *)

Lemma index_bounds str : ∀ s n m,
  str ≠ EmptyString → String.index n str s = Some m → (n ≤ m ∧ m < String.length s)%nat.
Proof.
  induction s as [|c s IH]; intros n m Hne H.
  - destruct n, str; simpl in H; congruence.
  - destruct n as [|n]; cbn [String.index] in H.
    + destruct (String.prefix str (String c s)).
      * injection H as <-. simpl. lia.
      * destruct (String.index 0 str s) as [k|] eqn:E; [|discriminate].
        injection H as <-. apply IH in E; [|done]. simpl. lia.
    + destruct (String.index n str s) as [k|] eqn:E; [|discriminate].
      injection H as <-. apply IH in E; [|done]. simpl. lia.
Qed.

Lemma find_firstOccurrence str from s b :
  str ≠ EmptyString → StringRef.find str from s = Some b → firstOccurrence str from s b.
Proof.
  unfold StringRef.find. intros Hne H. split; [|split].
  - eapply index_bounds; eauto.
  - eapply index_correct1; eauto.
  - intros p [Hp1 Hp2]. eapply index_correct2; eauto.
Qed.

Lemma find_noOccurrence str from s :
  str ≠ EmptyString → StringRef.find str from s = None → noOccurrence str from s.
Proof.
  unfold StringRef.find. intros Hne H p Hp. eapply index_correct3; eauto.
Qed.

Lemma find_if_Some p : ∀ s from e,
  StringRef.find_if p from s = Some e →
  (from ≤ e < String.length s)%nat
  ∧ (∃ c, String.get e s = Some c ∧ p c = true)
  ∧ ∀ q c, (from ≤ q < e)%nat → String.get q s = Some c → p c = false.
Proof.
  induction s as [|c s IH]; intros from e H; [discriminate|].
  destruct from as [|from]; simpl in H.
  - destruct (p c) eqn:Hc.
    + injection H as <-. simpl. split; [lia|]. split; [eauto|]. intros; lia.
    + destruct (StringRef.find_if p 0 s) as [k|] eqn:E; [|discriminate].
      injection H as <-. destruct (IH _ _ E) as (Hb & Hc' & Hq).
      simpl. split; [lia|]. split; [done|].
      intros [|q] c' Hq' Hg; simpl in Hg; [congruence|].
      eapply Hq; [|done]. lia.
  - destruct (StringRef.find_if p from s) as [k|] eqn:E; [|discriminate].
    injection H as <-. destruct (IH _ _ E) as (Hb & Hc' & Hq).
    simpl. split; [lia|]. split; [done|].
    intros [|q] c' Hq' Hg; [lia|]. simpl in Hg. eapply Hq; [|done]. lia.
Qed.

Lemma find_if_None p : ∀ s from,
  StringRef.find_if p from s = None →
  ∀ q c, (from ≤ q)%nat → String.get q s = Some c → p c = false.
Proof.
  induction s as [|c s IH]; intros from H q c' Hq Hg; [discriminate|].
  destruct from as [|from]; simpl in H.
  - destruct (p c) eqn:Hc; [discriminate|].
    destruct (StringRef.find_if p 0 s) eqn:E; [discriminate|].
    destruct q as [|q]; simpl in Hg; [congruence|].
    eapply IH; [done| |done]. lia.
  - destruct (StringRef.find_if p from s) eqn:E; [discriminate|].
    destruct q as [|q]; [lia|]. simpl in Hg. eapply IH; [done| |done]. lia.
Qed.

Lemma contains_space c : StringRef.contains c " " = true ↔ c = space.
Proof.
  simpl. destruct (Ascii.eqb_spec c " "%char); split; intros; try done.
Qed.

Lemma find_first_of_firstSpace from s e :
  StringRef.find_first_of " " from s = Some e →
  firstSpace from s e ∧ (e < String.length s)%nat.
Proof.
  intros H. apply find_if_Some in H as (Hb & (c & Hg & Hc) & Hq).
  apply contains_space in Hc as ->.
  split; [|lia]. split; [lia|]. split; [done|].
  intros q Hq' Hg'. specialize (Hq _ _ Hq' Hg'). simpl in Hq. discriminate.
Qed.

Lemma find_first_of_noSpace from s :
  StringRef.find_first_of " " from s = None → noSpace from s.
Proof.
  intros H q Hq Hg. pose proof (find_if_None _ _ _ H _ _ Hq Hg) as Hc.
  simpl in Hc. discriminate.
Qed.

(** ** The string-literal rewriter *)

Lemma processString_body_candidateCalls T s start b e :
  processString_body T s start b (StringRef.slice b e s) = candidateCalls T s start (b, e).
Proof.
  unfold processString_body, candidateCalls, getLocWithOffset, StringRef.size. simpl.
  destruct (CUDA_RENAMES_MAP T !! StringRef.slice b e s) as [entry|]; [|done].
  replace (start + (b + 1))%nat with (start + b + 1)%nat by lia.
  by destruct (unsupported entry).
Qed.

Lemma processString_loop_Scan T s start : ∀ fuel begin,
  (String.length s - begin < fuel)%nat →
  ∃ visits, Scan s begin visits
    ∧ processString_loop T fuel s start begin = Some (flat_map (candidateCalls T s start) visits).
Proof.
  induction fuel as [|fuel IH]; intros begin Hfuel; [lia|].
  cbn [processString_loop].
  destruct (StringRef.find "cu" begin s) as [b|] eqn:Hb.
  - assert (Hocc : firstOccurrence "cu" begin s b) by (by apply find_firstOccurrence).
    rewrite processString_body_candidateCalls.
    destruct (StringRef.find_first_of " " (b + 4) s) as [e|] eqn:He.
    + destruct (find_first_of_firstSpace _ _ _ He) as [Hsp Hlen].
      destruct (IH (e + 1)%nat) as (rest & Hrest & Hloop).
      { destruct Hocc as [? _], Hsp as [? _]. lia. }
      exists ((b, Some e) :: rest). split; [by eapply Scan_more|].
      by rewrite Hloop.
    + exists [(b, None)]. split.
      * apply Scan_last; [done|]. by apply find_first_of_noSpace.
      * cbn [flat_map]. by rewrite app_nil_r.
  - exists []. split; [|done]. apply Scan_done. by apply find_noOccurrence.
Qed.

Lemma firstOccurrence_unique str from s b b' :
  firstOccurrence str from s b → firstOccurrence str from s b' → b = b'.
Proof.
  intros (H1 & H2 & H3) (H1' & H2' & H3').
  destruct (Nat.lt_trichotomy b b') as [Hlt|[->|Hlt]]; [|done|].
  - exfalso. apply (H3' b); [lia|done].
  - exfalso. apply (H3 b'); [lia|done].
Qed.

Lemma firstSpace_unique from s e e' :
  firstSpace from s e → firstSpace from s e' → e = e'.
Proof.
  intros (H1 & H2 & H3) (H1' & H2' & H3').
  destruct (Nat.lt_trichotomy e e') as [Hlt|[->|Hlt]]; [|done|].
  - exfalso. apply (H3' e); [lia|done].
  - exfalso. apply (H3 e'); [lia|done].
Qed.

(** The positions visited are determined by the string. *)
Lemma Scan_unique s r visits visits' :
  Scan s r visits → Scan s r visits' → visits = visits'.
Proof.
  intros H. revert visits'.
  induction H as [r Hno|r b Hb Hns|r b e rest Hb He Hrest IH]; intros visits' H';
    inversion H' as [r' Hno'|r' b' Hb' Hns'|r' b' e' rest' Hb' He' Hrest']; subst.
  - done.
  - destruct Hb' as (? & ? & _). exfalso. by eapply Hno.
  - destruct Hb' as (? & ? & _). exfalso. by eapply Hno.
  - destruct Hb as (? & ? & _). exfalso. by eapply Hno'.
  - by rewrite (firstOccurrence_unique _ _ _ _ _ Hb Hb').
  - rewrite (firstOccurrence_unique _ _ _ _ _ Hb Hb') in Hns.
    destruct He' as (? & ? & _). exfalso. by eapply Hns.
  - destruct Hb as (? & ? & _). exfalso. by eapply Hno'.
  - rewrite <- (firstOccurrence_unique _ _ _ _ _ Hb Hb') in Hns'.
    destruct He as (? & ? & _). exfalso. by eapply Hns'.
  - pose proof (firstOccurrence_unique _ _ _ _ _ Hb Hb') as <-.
    pose proof (firstSpace_unique _ _ _ _ He He') as <-.
    by rewrite (IH _ Hrest').
Qed.

(** The loop of [processString] ends before its fuel does. *)
Lemma processString_total T s start :
  ∃ calls, processString_opt T s start = Some calls ∧ processString T s start = calls.
Proof.
  destruct (processString_loop_Scan T s start (S (String.length s)) 0) as (v & _ & H); [lia|].
  unfold processString, processString_opt. rewrite H. eauto.
Qed.

(** C4, as amended: the scan of a string-literal body [s] visits, from the
    position where it resumes (0 at first), the first occurrence [b] of the
    prefix "cu"; its candidate is the slice from [b] to the first space
    character at or after [b + 4], or to the end of [s]; a candidate found in
    the table and not unsupported gives exactly one edit, at [start + b + 1],
    of the length of the candidate, with the DST name; the scan resumes at
    [e + 1] and ends when there was no space.  The loop always terminates. *)
Theorem processString_visits (T : RenameTables) (s : string) (start : SourceLocation) :
  ∃ visits,
    Scan s 0 visits
    ∧ processString_opt T s start = Some (flat_map (candidateCalls T s start) visits)
    ∧ processString T s start = flat_map (candidateCalls T s start) visits.
Proof.
  destruct (processString_loop_Scan T s start (S (String.length s)) 0) as (v & Hv & H); [lia|].
  exists v. split; [done|]. unfold processString, processString_opt. by rewrite H.
Qed.

(** C4, as stated, fails, in two ways.  In "cu cudaMalloc" the prefix
    occurs at offset 3, no whitespace follows it, the slice from 3 to the
    end is "cudaMalloc", which the table holds as supported, and yet no edit
    is emitted at [start + 3 + 1]: the candidate of the occurrence at 0 runs
    over the space at offset 2, because the search for the end begins at
    offset 4.  In "error in cudaMalloc" followed by a newline, the body of
    the literal of [printf("error in cudaMalloc\n")], the prefix occurs at
    offset 9 and the next whitespace character is the newline at offset 19,
    so that the slice between them is "cudaMalloc"; no edit is emitted,
    because a newline does not end a candidate: the scan looks the name up
    with the newline at its end. *)
Lemma processString_end_of_candidate :
  (let s := "cu cudaMalloc" in
   let start := 100 in
   occursAt "cu" s 3
   ∧ noSpace 3 s
   ∧ StringRef.slice 3 None s = "cudaMalloc"
   ∧ CUDA_RENAMES_MAP tables_cudaMalloc !! "cudaMalloc" = Some hipMalloc_entry
   ∧ unsupported hipMalloc_entry = false
   ∧ ¬ insertReplacement (Rep (start + 3 + 1) 10 "hipMalloc") (start + 3 + 1)
       ∈ processString tables_cudaMalloc s start
   ∧ processString tables_cudaMalloc s start = [])
  ∧ (let s := "error in cudaMalloc" ++ newline in
     let start := 100 in
     occursAt "cu" s 9
     ∧ firstWhitespace 9 s 19
     ∧ StringRef.slice 9 (Some 19) s = "cudaMalloc"
     ∧ StringRef.slice 9 None s = "cudaMalloc" ++ newline
     ∧ CUDA_RENAMES_MAP tables_cudaMalloc !! "cudaMalloc" = Some hipMalloc_entry
     ∧ unsupported hipMalloc_entry = false
     ∧ ¬ insertReplacement (Rep (start + 9 + 1) 10 "hipMalloc") (start + 9 + 1)
         ∈ processString tables_cudaMalloc s start
     ∧ processString tables_cudaMalloc s start = []).
Proof.
  split.
  - repeat split; try reflexivity.
    + by apply find_first_of_noSpace.
    + vm_compute. apply not_elem_of_nil.
  - repeat split; try reflexivity.
    + lia.
    + eexists. split; reflexivity.
    + intros p c [Hp1 Hp2] Hg.
      do 9 (destruct p as [|p]; [lia|]).
      do 10 (destruct p as [|p]; [vm_compute in Hg; by injection Hg as <-|]).
      lia.
    + vm_compute. apply not_elem_of_nil.
Qed.

(** ** The shared state under a sequence of calls *)

Section PerformFacts.

Context (PrintStats : bool) (mainFileName : string) (SM : SourceManager).

Lemma performAll_app st calls calls' :
  performAll PrintStats mainFileName SM st (calls ++ calls')
  = performAll PrintStats mainFileName SM (performAll PrintStats mainFileName SM st calls) calls'.
Proof. apply foldl_app. Qed.

Lemma Replace_perform st c :
  Replace (perform PrintStats mainFileName SM st c)
  = match editOf c with
    | Some rep => llcompat_insertReplacement (Replace st) rep
    | None => Replace st
    end.
Proof. by destruct c. Qed.

Lemma Replace_performAll calls : ∀ st,
  Replace (performAll PrintStats mainFileName SM st calls)
  = foldl llcompat_insertReplacement (Replace st) (editsOf calls).
Proof.
  induction calls as [|c calls IH]; intros st; [done|].
  unfold performAll in *. cbn [foldl]. rewrite IH, Replace_perform.
  by destruct c.
Qed.

End PerformFacts.

(** ** The replacement set *)

Lemma llcompat_insertReplacement_nonempty Replace rep :
  llcompat_insertReplacement Replace rep ≠ [].
Proof.
  unfold llcompat_insertReplacement.
  case_bool_decide as Hin.
  - intros ->. by apply not_elem_of_nil in Hin.
  - destruct (existsb (overlaps rep) Replace) eqn:Hov.
    + intros ->. discriminate.
    + by destruct Replace.
Qed.

Lemma llcompat_insertReplacement_keeps Replace rep r :
  r ∈ Replace → r ∈ llcompat_insertReplacement Replace rep.
Proof.
  unfold llcompat_insertReplacement. intros Hr.
  case_bool_decide; [done|]. destruct (existsb _ _); [done|].
  apply elem_of_app. by left.
Qed.

Lemma foldl_insert_nonempty edits : ∀ Replace,
  Replace ≠ [] → foldl llcompat_insertReplacement Replace edits ≠ [].
Proof.
  induction edits as [|e edits IH]; intros R HR; [done|].
  cbn [foldl]. apply IH, llcompat_insertReplacement_nonempty.
Qed.

(** The set is empty exactly when nothing was inserted. *)
Lemma foldl_insert_nil edits :
  foldl llcompat_insertReplacement [] edits = [] ↔ edits = [].
Proof.
  split; [|by intros ->].
  destruct edits as [|e edits]; [done|].
  cbn [foldl]. intros H. exfalso.
  by eapply foldl_insert_nonempty, H; apply llcompat_insertReplacement_nonempty.
Qed.

Lemma llcompat_insertReplacement_NoDup Replace rep :
  NoDup Replace → NoDup (llcompat_insertReplacement Replace rep).
Proof.
  unfold llcompat_insertReplacement. intros Hnd.
  case_bool_decide as Hin; [done|]. destruct (existsb _ _); [done|].
  apply NoDup_app. split; [done|]. split; [|apply NoDup_singleton].
  intros x Hx ->%list_elem_of_singleton. done.
Qed.

Lemma foldl_insert_NoDup edits : ∀ Replace,
  NoDup Replace → NoDup (foldl llcompat_insertReplacement Replace edits).
Proof.
  induction edits as [|e edits IH]; intros R HR; [done|].
  cbn [foldl]. by apply IH, llcompat_insertReplacement_NoDup.
Qed.

(** An insertion of no byte at offset 0 shares no byte with any edit. *)
Lemma hipHeaderRep_no_overlap Replace : existsb (overlaps hipHeaderRep) Replace = false.
Proof.
  induction Replace as [|r R IH]; [done|].
  cbn [existsb]. rewrite IH, orb_false_r.
  unfold overlaps, hipHeaderRep, Rep, getLocForStartOfFile. cbn [getOffset getLength].
  apply andb_false_intro2. apply Nat.ltb_ge. lia.
Qed.

Lemma hipHeaderRep_inserted Replace :
  hipHeaderRep ∈ llcompat_insertReplacement Replace hipHeaderRep.
Proof.
  unfold llcompat_insertReplacement. case_bool_decide; [done|].
  rewrite hipHeaderRep_no_overlap. apply elem_of_app. right. by apply list_elem_of_singleton.
Qed.

Lemma hitCount_incrementCounter counter name s :
  hitCount (counterKey counter) (Statistics_incrementCounter counter name s)
  = S (hitCount (counterKey counter) s).
Proof. unfold hitCount at 1. cbn [Statistics_incrementCounter counters]. by rewrite lookup_insert_eq. Qed.

Lemma hitCount_incrementCounter_ne counter name s key :
  key ≠ counterKey counter →
  hitCount key (Statistics_incrementCounter counter name s) = hitCount key s.
Proof.
  intros Hne. unfold hitCount. cbn [Statistics_incrementCounter counters].
  by rewrite lookup_insert_ne.
Qed.

(** ** The runtime header *)

(** A header edit in a set without duplicates is there once. *)
Lemma NoDup_filter_one (header : Replacement) (Replace : Replacements) :
  NoDup Replace → header ∈ Replace →
  List.length (List.filter (λ rep, bool_decide (rep = header)) Replace) = 1.
Proof.
  intros Hnd. induction Hnd as [|r R Hr Hnd IH]; intros Hin.
  - by apply not_elem_of_nil in Hin.
  - cbn [List.filter]. case_bool_decide as Heq.
    + subst r. cbn [List.length]. f_equal.
      clear -Hr. induction R as [|x R IH]; [done|].
      cbn [List.filter]. case_bool_decide as Hx.
      * subst. exfalso. apply Hr. left.
      * apply IH. intros ?. apply Hr. by right.
    + apply IH. apply elem_of_cons in Hin as [->|Hin]; done.
Qed.

Lemma editsOf_flat_map_nonempty {A} (f : A → list Call) (l : list A) (x : A) :
  x ∈ l → editsOf (f x) ≠ [] → editsOf (flat_map f l) ≠ [].
Proof.
  intros Hin Hx. induction l as [|y l IH]; [by apply not_elem_of_nil in Hin|].
  cbn [flat_map]. unfold editsOf in *. rewrite omap_app.
  apply elem_of_cons in Hin as [<-|Hin].
  - intros H. apply app_eq_nil in H as [H _]. done.
  - intros H. apply app_eq_nil in H as [_ H]. by apply IH.
Qed.

(** C1, as amended: in every job the end of the source inserts the
    runtime-header include, the insertion of no byte replaced by
    [#include <hip/hip_runtime.h>] and a newline at offset 0, if and only
    if a handler emitted an edit before; it then makes this one insertion
    and one increment of the include counter, after which the replacement
    set holds the header edit exactly once; without an edit before, it does
    nothing and the set stays empty.  The set never holds an edit twice.
    The rename of an include directive of the main file is an edit like any
    other: the header is inserted after it as well. *)
Theorem insertHipHeaders_once (T : RenameTables) (PrintStats : bool)
    (mainFileName : string) (SM : SourceManager) (events : list Event) :
  let header :=
    {| getOffset := 0; getLength := 0;
       getReplacementText :=
         "#include <hip/hip_runtime.h>" ++ String (ascii_of_nat 10) EmptyString |} in
  let counter :=
    {| hipName := "#include <hip/hip_runtime.h>"; countType := CONV_INCLUDE_CUDA_MAIN_H;
       countApiType := API_RUNTIME; unsupported := false |} in
  let calls := flat_map (handle T SM) events in
  let st := handleEvents T PrintStats mainFileName SM events State_init in
  let st' := runJob T PrintStats mainFileName SM events State_init in
  let key := (CONV_INCLUDE_CUDA_MAIN_H, API_RUNTIME) in
  let headers := List.filter (λ rep, bool_decide (rep = header)) in
  ((editsOf calls ≠ []
      ∧ insertHipHeaders (List.length (Replace st))
        = [incrementCounter counter "#include <cuda>"; insertReplacement header 0]
      ∧ List.length (headers (Replace st')) = 1
      ∧ hitCount key (stats st') = S (hitCount key (stats st)))
   ∨ (editsOf calls = []
      ∧ insertHipHeaders (List.length (Replace st)) = []
      ∧ st' = st
      ∧ Replace st' = []))
  ∧ NoDup (Replace st')
  ∧ (∀ hash_loc file_name filename_range found,
       PP_InclusionDirective hash_loc file_name true filename_range ∈ events →
       isWrittenInMainFile SM hash_loc = true →
       CUDA_INCLUDE_MAP T !! file_name = Some found →
       unsupported found = false →
       editsOf calls ≠ [] ∧ List.length (headers (Replace st')) = 1).
Proof.
  intros header counter calls st st' key headers.
  change header with hipHeaderRep in *. change counter with hipHeaderCounter in *.
  assert (HR : Replace st = foldl llcompat_insertReplacement [] (editsOf calls)).
  { unfold st, handleEvents. by rewrite Replace_performAll. }
  assert (Hnd : NoDup (Replace st')).
  { unfold st', runJob, handleEndSource. rewrite Replace_performAll.
    apply foldl_insert_NoDup. fold st. rewrite HR. apply foldl_insert_NoDup, NoDup_nil_2. }
  assert (Hcalls : editsOf calls ≠ [] →
            insertHipHeaders (List.length (Replace st))
            = [incrementCounter hipHeaderCounter "#include <cuda>";
               insertReplacement hipHeaderRep 0]).
  { intros Hne. assert (Replace st ≠ []) as Hst by (rewrite HR; by rewrite foldl_insert_nil).
    unfold insertHipHeaders. destruct (Replace st); done. }
  assert (Hone : editsOf calls ≠ [] → List.length (headers (Replace st')) = 1).
  { intros Hne. apply NoDup_filter_one; [done|].
    unfold st', runJob, handleEndSource. fold st. rewrite (Hcalls Hne).
    cbn. apply hipHeaderRep_inserted. }
  split; [|split; [done|]].
  - destruct (decide (editsOf calls = [])) as [Hnil|Hne].
    + right. assert (Replace st = []) as Hst by (rewrite HR; by apply foldl_insert_nil).
      unfold st', runJob, handleEndSource. fold st. rewrite Hst. by repeat split.
    + left. split; [done|]. split; [by apply Hcalls|]. split; [by apply Hone|].
      unfold st', runJob, handleEndSource. fold st. rewrite (Hcalls Hne).
      cbn [performAll foldl perform stats]. destruct PrintStats.
      * unfold key. by rewrite <- (hitCount_incrementCounter hipHeaderCounter "#include <cuda>").
      * apply (hitCount_incrementCounter hipHeaderCounter).
  - intros hash_loc file_name filename_range found Hin Hmain Hfound Hsup.
    assert (editsOf calls ≠ []) as Hne; [|by split; [|apply Hone]].
    apply (editsOf_flat_map_nonempty _ _ _ Hin).
    cbn [handle]. unfold InclusionDirective. by rewrite Hmain, Hfound, Hsup.
Qed.

Lemma insertHipHeaders_once_witness :
  let st' := runJob tables_include false "inc.cu.hipify-tmp" (sourceManager_of include_source)
               [PP_InclusionDirective 0 "cuda_runtime.h" true (9, 25)] State_init in
  List.length
    (List.filter
       (λ rep, bool_decide
                 (rep = {| getOffset := 0; getLength := 0;
                           getReplacementText :=
                             "#include <hip/hip_runtime.h>"
                             ++ String (ascii_of_nat 10) EmptyString |}))
       (Replace st')) = 1.
Proof.
  intros st'.
  apply (proj2 (proj2 (insertHipHeaders_once tables_include false "inc.cu.hipify-tmp"
                         (sourceManager_of include_source)
                         [PP_InclusionDirective 0 "cuda_runtime.h" true (9, 25)]))
           0 "cuda_runtime.h" (9, 25) hip_runtime_entry).
  - apply list_elem_of_singleton. reflexivity.
  - reflexivity.
  - reflexivity.
  - reflexivity.
Defined.

(** C1, as stated, fails: the file [inc.cu] holds an include directive of
    the header that the table renames to the runtime header; the rename is
    an edit, so that the header is put in front as well, and the output
    holds the directive twice where the input held none. *)
Lemma header_not_deduplicated :
  let result := main tables_include frontEnd_include options_inc_cu world_inc_cu in
  files world_inc_cu !! "inc.cu" = Some include_source
  ∧ occurrences "#include <hip/hip_runtime.h>" include_source = 0
  ∧ fst result = 0
  ∧ files (snd result) !! "inc.cu.hip" = Some include_translated
  ∧ occurrences "#include <hip/hip_runtime.h>" include_translated = 2.
Proof. repeat split. Qed.

(** ** The kernel launch *)


Lemma append_nil_r (a : string) : a ++ EmptyString = a.
Proof.
  induction a as [|x a IH]; [done|].
  change (String x (a ++ EmptyString) = String x a). by rewrite IH.
Qed.




(** ** String literals of wide characters *)

(** C9, as amended: the AST handler of string literals leaves a literal
    alone whose characters are wider than one byte, and passes the others
    to the string rewriter.  The token rewriter does not look at the width
    of a literal but at the kind of the token: it passes the tokens of kind
    [string_literal] to the string rewriter and makes no call for a token
    that spells a literal with an encoding prefix, as every token does that
    spells wider characters; so do the macro callbacks, which go through
    the token rewriter token by token, whatever literal the tokens form
    together. *)
Theorem wide_literals_skipped (T : RenameTables) (SM : SourceManager) (wchar : nat) :
  (∀ sLiteral, 1 < getCharByteWidth sLiteral →
     stringLiteral T (stringLiteral_node sLiteral) = (true, [])
     ∧ run T SM (stringLiteral_node sLiteral) = [])
  ∧ (∀ sLiteral, getCharByteWidth sLiteral = 1 →
       run T SM (stringLiteral_node sLiteral)
       = processString T (getString sLiteral) (Literal_getLocStart sLiteral))
  ∧ (∀ t, isStringLiteral (getKind t) = true → 1 < tokenCharByteWidth wchar (getKind t) →
       RewriteToken T t = [])
  ∧ (∀ t, isStringLiteral (getKind t) = true → getKind t ≠ tok_string_literal →
       RewriteToken T t = [])
  ∧ (∀ t, getKind t = tok_string_literal →
       RewriteToken T t = processString T (unquoteStr (getLiteralData t)) (getLocation t))
  ∧ (∀ MD,
       isWrittenInMainFile SM (MD_getLocation MD) = true →
       MD_getKind MD = MD_Define →
       Forall (λ t, isStringLiteral (getKind t) = true) (MD_tokens MD) →
       MacroDefined T SM MD
       = flat_map (λ t, processString T (unquoteStr (getLiteralData t)) (getLocation t))
           (List.filter (λ t, bool_decide (getKind t = tok_string_literal)) (MD_tokens MD))).
Proof.
  assert (Hprefixed : ∀ t, isStringLiteral (getKind t) = true →
                           getKind t ≠ tok_string_literal → RewriteToken T t = []).
  { intros t Hlit Hkind. unfold RewriteToken, isAnyIdentifier.
    destruct (getKind t); simpl in *; done. }
  assert (Hplain : ∀ t, getKind t = tok_string_literal →
            RewriteToken T t = processString T (unquoteStr (getLiteralData t)) (getLocation t)).
  { intros t Hkind. unfold RewriteToken. by rewrite Hkind. }
  repeat apply conj.
  - intros sLiteral Hwide.
    assert (stringLiteral T (stringLiteral_node sLiteral) = (true, [])) as Hs.
    { unfold stringLiteral. case_bool_decide; [lia|done]. }
    split; [done|]. unfold run. rewrite Hs. reflexivity.
  - intros sLiteral Hone. unfold run, orElse, stringLiteral.
    cbn [cudaType cudaCall cudaBuiltin cudaEnumConstantRef cudaLaunchKernel
         cudaSharedIncompleteArrayVar fst snd app].
    rewrite bool_decide_eq_true_2 by done. reflexivity.
  - intros t Hlit Hwide. apply Hprefixed; [done|]. intros Hkind. rewrite Hkind in Hwide.
    simpl in Hwide. lia.
  - exact Hprefixed.
  - exact Hplain.
  - intros MD Hmain Hdef Hall. unfold MacroDefined. rewrite Hmain, Hdef.
    rewrite bool_decide_eq_true_2 by done. cbn [negb orb].
    induction Hall as [|t ts Hlit _ IH]; [done|].
    cbn [flat_map List.filter]. rewrite IH. case_bool_decide as Hkind.
    + cbn [flat_map]. by rewrite (Hplain t Hkind).
    + by rewrite (Hprefixed t Hlit Hkind).
Qed.

Lemma wide_literals_skipped_witness :
  run tables_cudaMalloc sourceManager_example (stringLiteral_node wide_literal) = []
  ∧ RewriteToken tables_cudaMalloc utf16_token = []
  ∧ RewriteToken tables_cudaMalloc plain_part
    = processString tables_cudaMalloc "cudaMalloc failed" 25.
Proof.
  pose proof (wide_literals_skipped tables_cudaMalloc sourceManager_example 4)
    as (Hast & _ & Htok & _ & Hplain & _).
  split; [|split].
  - apply Hast. simpl. lia.
  - apply Htok; [reflexivity|simpl; lia].
  - apply Hplain. reflexivity.
Defined.

(** C9, as stated, fails: the tokens [L"x"] and ["cudaMalloc failed"] of
    the body of a macro spell together one literal of characters of four
    bytes; the AST handler leaves that literal alone, but the token
    rewriter, which sees the second token as a token of kind
    [string_literal], passes it to the string rewriter, and the name in it
    is replaced. *)
Lemma wide_concatenation_rewritten :
  let toks := MD_tokens define_MSG in
  Forall (λ t, isStringLiteral (getKind t) = true) toks
  ∧ literalCharByteWidth 4 toks = 4
  ∧ getCharByteWidth MSG_literal = literalCharByteWidth 4 toks
  ∧ run tables_cudaMalloc sourceManager_example (stringLiteral_node MSG_literal) = []
  ∧ MacroDefined tables_cudaMalloc sourceManager_example define_MSG
    = [incrementCounter
         {| hipName := "[string literal]"; countType := CONV_LITERAL;
            countApiType := API_RUNTIME; unsupported := false |} "cudaMalloc";
       insertReplacement
         {| getOffset := 26; getLength := 10; getReplacementText := "hipMalloc" |} 26].
Proof.
  split; [by repeat constructor|]. repeat split.
Qed.

(** ** The statistics of touched lines and bytes *)













(** ** Entries flagged unsupported *)

(** C3, as amended: where the lookup succeeds on an entry flagged
    unsupported, an angle-bracket include directive of the main file and an
    identifier token give a [[HIPIFY] warning] line with the location and
    the name, one increment of the entry's counter and no edit; a type gives
    the warning line and no edit; a function call gives one increment of the
    entry's counter and no edit, and writes nothing to stderr. *)
Theorem unsupported_entry_sites (T : RenameTables) (SM : SourceManager)
    (PrintStats : bool) (mainFileName : string) (found : hipCounter) (name : string)
    (st : State) :
  unsupported found = true →
  (∀ hash_loc filename_range,
     isWrittenInMainFile SM hash_loc = true →
     CUDA_INCLUDE_MAP T !! name = Some found →
     let calls := InclusionDirective T SM hash_loc name true filename_range in
     let st' := performAll PrintStats mainFileName SM st calls in
     calls = [incrementCounter found name;
              printHipifyMessage hash_loc ("Unsupported CUDA header used: " ++ name)
                HIPIFY_WARNING]
     ∧ errs st' = (errs st ++ [warningLine mainFileName SM hash_loc
                                 ("Unsupported CUDA header used: " ++ name)])%list
     ∧ hitCount (counterKey found) (stats st') = S (hitCount (counterKey found) (stats st))
     ∧ Replace st' = Replace st)
  ∧ (∀ t,
       isAnyIdentifier t = true →
       getIdentifierName t = name →
       CUDA_RENAMES_MAP T !! name = Some found →
       let calls := RewriteToken T t in
       let st' := performAll PrintStats mainFileName SM st calls in
       calls = [incrementCounter found name;
                printHipifyMessage (getLocation t) ("Unsupported CUDA identifier used: " ++ name)
                  HIPIFY_WARNING]
       ∧ errs st' = (errs st ++ [warningLine mainFileName SM (getLocation t)
                                   ("Unsupported CUDA identifier used: " ++ name)])%list
       ∧ hitCount (counterKey found) (stats st') = S (hitCount (counterKey found) (stats st))
       ∧ Replace st' = Replace st)
  ∧ (∀ ret,
       cudaType_typeName ret = name →
       CUDA_TYPE_NAME_MAP T !! name = Some found →
       let calls := run T SM (cudaType_node ret) in
       let st' := performAll PrintStats mainFileName SM st calls in
       printHipifyMessage (getBeginLoc ret) ("Unsupported CUDA '" ++ name) HIPIFY_WARNING ∈ calls
       ∧ editsOf calls = []
       ∧ errs st' = (errs st ++ [warningLine mainFileName SM (getBeginLoc ret)
                                   ("Unsupported CUDA '" ++ name)])%list
       ∧ Replace st' = Replace st)
  ∧ (∀ call,
       getDirectCalleeName call = name →
       CUDA_IDENTIFIER_MAP T !! name = Some found →
       let calls := run T SM (cudaCall_node call) in
       let st' := performAll PrintStats mainFileName SM st calls in
       calls = [incrementCounter found name]
       ∧ errs st' = errs st
       ∧ hitCount (counterKey found) (stats st') = S (hitCount (counterKey found) (stats st))
       ∧ Replace st' = Replace st).
Proof.
  intros Hun. repeat apply conj.
  - intros hash_loc filename_range Hmain Hfound calls st'.
    assert (calls = [incrementCounter found name;
                     printHipifyMessage hash_loc ("Unsupported CUDA header used: " ++ name)
                       HIPIFY_WARNING]) as Hcalls.
    { unfold calls, InclusionDirective. by rewrite Hmain, Hfound, Hun. }
    split; [done|]. unfold st'. rewrite Hcalls. cbn [performAll foldl perform errs stats Replace].
    repeat split. apply hitCount_incrementCounter.
  - intros t Hid Hname Hfound calls st'.
    assert (calls = [incrementCounter found name;
                     printHipifyMessage (getLocation t)
                       ("Unsupported CUDA identifier used: " ++ name) HIPIFY_WARNING]) as Hcalls.
    { unfold calls, RewriteToken. rewrite Hid, Hname, Hfound, Hun.
      case_bool_decide as Hk; [|done].
      unfold isAnyIdentifier in Hid. rewrite Hk in Hid. done. }
    split; [done|]. unfold st'. rewrite Hcalls. cbn [performAll foldl perform errs stats Replace].
    repeat split. apply hitCount_incrementCounter.
  - intros ret Hname Hfound calls st'.
    assert (calls = [printHipifyMessage (getBeginLoc ret) ("Unsupported CUDA '" ++ name)
                       HIPIFY_WARNING]) as Hcalls.
    { unfold calls, run, cudaType. by rewrite Hname, Hfound, Hun. }
    unfold st'. rewrite Hcalls. cbn [performAll foldl perform errs stats Replace].
    repeat split. by apply list_elem_of_singleton.
  - intros call Hname Hfound calls st'.
    assert (calls = [incrementCounter found name]) as Hcalls.
    { unfold calls, run, cudaType, cudaCall, orElse. cbn [fst snd].
      by rewrite Hname, Hfound, Hun. }
    split; [done|]. unfold st'. rewrite Hcalls. cbn [performAll foldl perform errs stats Replace].
    repeat split. apply hitCount_incrementCounter.
Qed.

Lemma unsupported_entry_sites_witness :
  run tables_unsupported sourceManager_example (cudaCall_node call_cudaOld)
  = [incrementCounter unsupported_entry "cudaOld"]
  ∧ RewriteToken tables_unsupported token_cudaOld
    = [incrementCounter unsupported_entry "cudaOld";
       printHipifyMessage 7 "Unsupported CUDA identifier used: cudaOld" HIPIFY_WARNING]
  ∧ editsOf (run tables_unsupported sourceManager_example (cudaType_node type_cudaOld)) = [].
Proof.
  pose proof (unsupported_entry_sites tables_unsupported sourceManager_example false "a.cu"
                unsupported_entry "cudaOld" State_init eq_refl) as (_ & Htok & Htype & Hcall).
  split; [|split].
  - apply (Hcall call_cudaOld); reflexivity.
  - apply (Htok token_cudaOld); reflexivity.
  - apply (Htype type_cudaOld); reflexivity.
Defined.

(** C3, as stated, fails: the call of a function whose entry is flagged
    unsupported increments the counter and emits no edit, but it writes no
    warning. *)
Lemma cudaCall_unsupported_silent :
  let calls := run tables_unsupported sourceManager_example (cudaCall_node call_cudaOld) in
  let st' := performAll false "a.cu" sourceManager_example State_init calls in
  CUDA_IDENTIFIER_MAP tables_unsupported !! getDirectCalleeName call_cudaOld
    = Some unsupported_entry
  ∧ unsupported unsupported_entry = true
  ∧ countWarnings calls = 0
  ∧ errs st' = [].
Proof. repeat split. Qed.

(** ** Edits, increments and warnings *)

Lemma countEdits_app a b : countEdits (a ++ b) = countEdits a + countEdits b.
Proof. unfold countEdits, editsOf. by rewrite omap_app, length_app. Qed.

Lemma countSupportedIncrements_app a b :
  countSupportedIncrements (a ++ b) = countSupportedIncrements a + countSupportedIncrements b.
Proof. unfold countSupportedIncrements. by rewrite List.filter_app, length_app. Qed.

Lemma countWarnings_app a b : countWarnings (a ++ b) = countWarnings a + countWarnings b.
Proof. unfold countWarnings. by rewrite List.filter_app, length_app. Qed.

Lemma balanced_app a b : balanced a → balanced b → balanced (a ++ b).
Proof. unfold balanced. rewrite countEdits_app, countSupportedIncrements_app. lia. Qed.

Lemma quiet_app a b : quiet a → quiet b → quiet (a ++ b).
Proof. unfold quiet. rewrite countWarnings_app. lia. Qed.

Lemma balanced_flat_map {A} (f : A → list Call) l :
  (∀ x, balanced (f x)) → balanced (flat_map f l).
Proof.
  intros Hf. induction l as [|x l IH]; [done|]. cbn [flat_map]. by apply balanced_app.
Qed.

Lemma quiet_flat_map {A} (f : A → list Call) l :
  (∀ x, quiet (f x)) → quiet (flat_map f l).
Proof.
  intros Hf. induction l as [|x l IH]; [done|]. cbn [flat_map]. by apply quiet_app.
Qed.

Lemma processString_body_balanced T s start b name :
  balanced (processString_body T s start b name) ∧ quiet (processString_body T s start b name).
Proof.
  unfold processString_body.
  destruct (CUDA_RENAMES_MAP T !! name) as [found|]; [|done].
  destruct (unsupported found) eqn:Hun; count_calls.
Qed.

Lemma processString_loop_balanced T s start : ∀ fuel begin calls,
  processString_loop T fuel s start begin = Some calls → balanced calls ∧ quiet calls.
Proof.
  induction fuel as [|fuel IH]; intros begin calls H; [discriminate|].
  cbn [processString_loop] in H.
  destruct (StringRef.find "cu" begin s) as [b|]; [|by injection H as <-].
  destruct (processString_body_balanced T s start b
              (StringRef.slice b (StringRef.find_first_of " " (b + 4) s) s)) as [Hb Hq].
  destruct (StringRef.find_first_of " " (b + 4) s) as [e|].
  - destruct (processString_loop T fuel s start (e + 1)) as [rest|] eqn:Hrest; [|discriminate].
    injection H as <-. destruct (IH _ _ Hrest).
    split; [by apply balanced_app|by apply quiet_app].
  - by injection H as <-.
Qed.

Lemma processString_balanced T s start :
  balanced (processString T s start) ∧ quiet (processString T s start).
Proof.
  unfold processString, processString_opt.
  destruct (processString_loop T (S (String.length s)) s start 0) as [calls|] eqn:H; [|done].
  by eapply processString_loop_balanced.
Qed.

Lemma RewriteToken_balanced T t : balanced (RewriteToken T t).
Proof.
  unfold RewriteToken. case_bool_decide; [apply processString_balanced|].
  destruct (negb (isAnyIdentifier t)); [done|].
  destruct (CUDA_RENAMES_MAP T !! getIdentifierName t) as [found|]; [|done].
  destruct (unsupported found) eqn:Hun; count_calls.
Qed.

Lemma run_balanced T SM Result :
  (∀ ret, Result ≠ cudaType_node ret) → balanced (run T SM Result).
Proof.
  intros Hty. destruct Result as [call|ret|sLiteral|launchKernel|threadIdx|ref|sharedVar].
  - unfold run, cudaCall, orElse. cbn.
    destruct (CUDA_IDENTIFIER_MAP T !! getDirectCalleeName call) as [found|]; [|done].
    destruct (unsupported found) eqn:Hun; count_calls.
  - by destruct (Hty ret).
  - unfold run, stringLiteral, orElse. cbn.
    case_bool_decide; [|done]. cbn. rewrite ?app_nil_r. apply processString_balanced.
  - done.
  - unfold run, cudaBuiltin, orElse. cbn.
    destruct (getBase threadIdx) as [[declName|]|]; [|done..].
    destruct (CUDA_IDENTIFIER_MAP T !! _) as [found|]; [|done].
    destruct (unsupported found) eqn:Hun; count_calls.
  - unfold run, cudaEnumConstantRef, orElse. cbn.
    destruct (CUDA_IDENTIFIER_MAP T !! _) as [found|]; [|done].
    destruct (unsupported found) eqn:Hun; count_calls.
  - unfold run, cudaSharedIncompleteArrayVar, orElse. cbn.
    destruct (hasExternalFormalLinkage sharedVar); [|done].
    by case_bool_decide.
Qed.

Lemma handle_balanced T SM ev : isTypeMatch ev = false → balanced (handle T SM ev).
Proof.
  destruct ev as [hash_loc file_name is_angled range|MD|tok numArgs Args|Result]; intros Hty.
  - unfold handle, InclusionDirective. destruct (_ || _); [done|].
    destruct (CUDA_INCLUDE_MAP T !! file_name) as [found|]; [|done].
    destruct (unsupported found) eqn:Hun; count_calls.
  - unfold handle, MacroDefined. destruct (_ || _); [done|].
    apply balanced_flat_map, RewriteToken_balanced.
  - unfold handle, MacroExpands. destruct (negb _); [done|].
    apply balanced_app; [apply RewriteToken_balanced|].
    destruct Args as [args|]; [|done].
    apply balanced_flat_map. intros i. apply balanced_flat_map, RewriteToken_balanced.
  - apply run_balanced. intros ret ->. discriminate.
Qed.

(** C8, as amended: in the calls of every callback and of every match
    other than a type match, and at the end of the source, the edits are as
    many as the increments of a counter that is not flagged unsupported; a
    warning for an unsupported include or identifier comes with exactly one
    increment and no edit, a warning for a reference that is not handled
    comes with no increment and no edit. *)
Theorem edits_and_increments (T : RenameTables) (SM : SourceManager) :
  (∀ events Replace_size,
     Forall (λ ev, isTypeMatch ev = false) events →
     let calls := (flat_map (handle T SM) events ++ insertHipHeaders Replace_size)%list in
     countEdits calls = countSupportedIncrements calls)
  ∧ (∀ hash_loc file_name is_angled filename_range,
       let calls := InclusionDirective T SM hash_loc file_name is_angled filename_range in
       countWarnings calls = 0
       ∨ (countWarnings calls = 1 ∧ countIncrements calls = 1 ∧ countEdits calls = 0))
  ∧ (∀ t,
       let calls := RewriteToken T t in
       countWarnings calls = 0
       ∨ (countWarnings calls = 1 ∧ countIncrements calls = 1 ∧ countEdits calls = 0))
  ∧ (∀ Result,
       (∀ ret, Result ≠ cudaType_node ret) →
       let calls := run T SM Result in
       countWarnings calls = 0
       ∨ (countWarnings calls = 1 ∧ countIncrements calls = 0 ∧ countEdits calls = 0)).
Proof.
  repeat apply conj.
  - intros events Replace_size Hall calls. apply balanced_app.
    + induction Hall as [|ev events Hev _ IH]; [done|].
      cbn [flat_map]. apply balanced_app; [by apply handle_balanced|done].
    + unfold insertHipHeaders. destruct (0 <? Replace_size)%nat; count_calls.
  - intros hash_loc file_name is_angled filename_range calls.
    unfold calls, InclusionDirective. destruct (_ || _); [by left|].
    destruct (CUDA_INCLUDE_MAP T !! file_name) as [found|]; [|by left].
    destruct (unsupported found) eqn:Hun; [right|left]; count_calls.
  - intros t calls. unfold calls, RewriteToken.
    case_bool_decide; [left; apply processString_balanced|].
    destruct (negb (isAnyIdentifier t)); [by left|].
    destruct (CUDA_RENAMES_MAP T !! getIdentifierName t) as [found|]; [|by left].
    destruct (unsupported found) eqn:Hun; [right|left]; count_calls.
  - intros Result Hty calls. unfold calls.
    destruct Result as [call|ret|sLiteral|launchKernel|threadIdx|ref|sharedVar].
    + unfold run, cudaCall, orElse. cbn.
      destruct (CUDA_IDENTIFIER_MAP T !! getDirectCalleeName call) as [found|];
        [left|right]; [|count_calls].
      destruct (unsupported found) eqn:Hun; count_calls.
    + by destruct (Hty ret).
    + left. unfold run, stringLiteral, orElse. cbn.
      case_bool_decide; [|done]. cbn. rewrite ?app_nil_r. apply processString_balanced.
    + by left.
    + unfold run, cudaBuiltin, orElse. cbn.
      destruct (getBase threadIdx) as [[declName|]|]; [|by left..].
      destruct (CUDA_IDENTIFIER_MAP T !! _) as [found|]; [left|right]; [|count_calls].
      destruct (unsupported found) eqn:Hun; count_calls.
    + unfold run, cudaEnumConstantRef, orElse. cbn.
      destruct (CUDA_IDENTIFIER_MAP T !! _) as [found|]; [left|right]; [|count_calls].
      destruct (unsupported found) eqn:Hun; count_calls.
    + left. unfold run, cudaSharedIncompleteArrayVar, orElse. cbn.
      destruct (hasExternalFormalLinkage sharedVar); [|done].
      by case_bool_decide.
Qed.

Lemma edits_and_increments_witness :
  let events := [AST_match (cudaCall_node {| getDirectCalleeName := "cudaMalloc";
                                             CallExpr_getLocStart := 7 |})] in
  let calls := (flat_map (handle tables_cudaMalloc sourceManager_example) events
                ++ insertHipHeaders 1)%list in
  Forall (λ ev, isTypeMatch ev = false) events
  ∧ countEdits calls = countSupportedIncrements calls.
Proof.
  intros events calls.
  assert (Forall (λ ev, isTypeMatch ev = false) events) as Hall by (repeat constructor).
  split; [exact Hall|].
  exact (proj1 (edits_and_increments tables_cudaMalloc sourceManager_example) events 1 Hall).
Defined.

(** C8, as stated, fails: the warning for a call of a function that the
    table does not hold comes with no increment of a counter. *)
Lemma unhandled_warning_counts_nothing :
  let calls := run tables_empty sourceManager_example (cudaCall_node call_cuFoo) in
  calls = [printHipifyMessage 7 "the following reference is not handled: 'cuFoo' [function call]."
             HIPIFY_WARNING]
  ∧ countWarnings calls = 1
  ∧ countIncrements calls = 0
  ∧ stats (performAll true "a.cu" sourceManager_example State_init calls) = Statistics_empty.
Proof. repeat split. Qed.

(** ** The driver *)

Lemma runJob_no_edit T PrintStats mainFileName SM events :
  editsOf (flat_map (handle T SM) events) = [] →
  Replace (runJob T PrintStats mainFileName SM events State_init) = [].
Proof.
  intros Hno. unfold runJob, handleEndSource, handleEvents.
  assert (Replace (performAll PrintStats mainFileName SM State_init
                     (flat_map (handle T SM) events)) = []) as H.
  { by rewrite Replace_performAll, Hno. }
  by rewrite H.
Qed.

Lemma isEmpty_EmptyString : isEmpty EmptyString = true.
Proof. reflexivity. Qed.

Lemma append_same_prefix (a b c : string) : a ++ b = a ++ c → b = c.
Proof.
  induction a as [|x a IH]; [done|].
  intros H. apply IH. by injection H.
Qed.

Lemma append_not_self (a b : string) : b ≠ EmptyString → a ++ b ≠ a.
Proof.
  intros Hb H. apply Hb. apply (append_same_prefix a). by rewrite append_nil_r.
Qed.

(** *** The operations on files *)

Lemma copyFile_lookup_ne sys src dst fs path :
  path ≠ dst → copyFile sys src dst fs !! path = fs !! path.
Proof.
  intros Hp. unfold copyFile. destruct (opens sys dst); [|done]. by rewrite lookup_insert_ne.
Qed.

Lemma truncate_lookup_ne sys file fs path :
  path ≠ file → truncate sys file fs !! path = fs !! path.
Proof.
  intros Hp. unfold truncate. destruct (opens sys file); [|done]. by rewrite lookup_insert_ne.
Qed.

Lemma overwriteChangedFiles_lookup_ne sys file Replace fs path :
  path ≠ file → snd (overwriteChangedFiles sys file Replace fs) !! path = fs !! path.
Proof.
  intros Hp. unfold overwriteChangedFiles.
  destruct Replace as [|rep Replace]; [done|]. destruct (fs !! file); [|done].
  destruct (overwrites sys file); [|done]. cbn [snd]. by rewrite lookup_insert_ne.
Qed.

Lemma rename_lookup_ne sys old new fs path :
  path ≠ old → path ≠ new → rename sys old new fs !! path = fs !! path.
Proof.
  intros Ho Hn. unfold rename. destruct (fs !! old); [|done].
  destruct (renames sys old new); [|done]. by rewrite lookup_insert_ne, lookup_delete_ne.
Qed.

Lemma remove_lookup_ne sys file fs path :
  path ≠ file → remove sys file fs !! path = fs !! path.
Proof.
  intros Hp. unfold remove. destruct (removes sys file); [|done]. by rewrite lookup_delete_ne.
Qed.

(** A turn of the loop leaves every file as it is that is neither its
    working copy nor its destination. *)
Lemma translate_frame T frontEnd sys NoOutput_ PrintStats_ src dst fs path :
  path ≠ src ++ ".hipify-tmp" → path ≠ dst →
  snd (translate T frontEnd sys NoOutput_ PrintStats_ src dst fs) !! path = fs !! path.
Proof.
  intros Ht Hd. unfold translate. cbv zeta. destruct (negb NoOutput_).
  - match goal with |- context [overwriteChangedFiles ?a ?b ?c ?d] =>
      pose proof (overwriteChangedFiles_lookup_ne a b c d path Ht) as Ho;
      destruct (overwriteChangedFiles a b c d) as [failed fs'] end.
    cbn [snd] in *. by rewrite rename_lookup_ne, Ho, copyFile_lookup_ne.
  - cbn [snd]. by rewrite remove_lookup_ne, copyFile_lookup_ne.
Qed.

Lemma jobsOf_EmptyString o sources :
  jobsOf o EmptyString sources = (λ src, (src, destinationIn o EmptyString src)) <$> sources.
Proof. by destruct sources. Qed.

(** The file system after the loop of [main]: the turns of the jobs, one
    after the other. *)
Lemma mainLoop_files T frontEnd o NoOutput_ PrintStats_ many :
  ∀ sources dst Result seen w,
  (sources = [] ∨ isEmpty dst = true ∨ Inplace o = false) →
  files (snd (mainLoop T frontEnd o NoOutput_ PrintStats_ many sources dst Result seen w))
  = foldl (λ fs job, snd (translate T frontEnd (system w) NoOutput_ PrintStats_
                            (fst job) (snd job) fs))
      (files w) (jobsOf o dst sources)
  ∧ system (snd (mainLoop T frontEnd o NoOutput_ PrintStats_ many sources dst Result seen w))
    = system w.
Proof.
  induction sources as [|src sources IH]; intros dst Result seen w Hok.
  - cbn [mainLoop jobsOf foldl]. by destruct many.
  - cbn [mainLoop].
    assert (negb (isEmpty dst) && Inplace o = false) as ->.
    { destruct Hok as [?|[-> | ->]]; [done|done|apply andb_false_r]. }
    fold (destinationIn o dst src).
    destruct (translate T frontEnd (system w) NoOutput_ PrintStats_ src
                (destinationIn o dst src) (files w)) as [[st result] fs] eqn:Ht.
    edestruct (IH EmptyString) as [Hfiles Hsystem]; [right; by left|].
    rewrite Hfiles, Hsystem. cbn [files system]. split; [|done].
    rewrite jobsOf_EmptyString. cbn [jobsOf foldl fst snd]. by rewrite Ht.
Qed.

(** *** Files without an edit *)

(** The turn of a source for which no handler makes an edit: when the
    working copy can be created and moved, the destination holds the
    content of the source afterwards, and so does the source. *)
Lemma translate_no_edit T frontEnd sys PrintStats_ src dst content fs :
  opens sys (src ++ ".hipify-tmp") = true →
  renames sys (src ++ ".hipify-tmp") dst = true →
  (let tool := frontEnd (src ++ ".hipify-tmp") (Some content) in
   editsOf (flat_map (handle T (tool_SM tool)) (tool_events tool)) = []) →
  fs !! src = Some content →
  snd (translate T frontEnd sys false PrintStats_ src dst fs) !! dst = Some content
  ∧ snd (translate T frontEnd sys false PrintStats_ src dst fs) !! src = Some content.
Proof.
  intros Hopen Hrename Hno Hsrc.
  assert (src ≠ src ++ ".hipify-tmp") as Htmp.
  { intros H. by apply (append_not_self src ".hipify-tmp"). }
  unfold translate, copyFile. cbv zeta. rewrite Hopen, Hsrc, lookup_insert_eq.
  cbn [default negb]. rewrite runJob_no_edit by exact Hno.
  cbn [overwriteChangedFiles snd]. unfold rename. rewrite lookup_insert_eq, Hrename.
  split; [apply lookup_insert_eq|].
  destruct (decide (src = dst)) as [<-|Hne]; [apply lookup_insert_eq|].
  by rewrite lookup_insert_ne, lookup_delete_ne, lookup_insert_ne.
Qed.

Lemma jobs_no_edit T frontEnd sys PrintStats_ src dst content :
  opens sys (src ++ ".hipify-tmp") = true →
  renames sys (src ++ ".hipify-tmp") dst = true →
  (let tool := frontEnd (src ++ ".hipify-tmp") (Some content) in
   editsOf (flat_map (handle T (tool_SM tool)) (tool_events tool)) = []) →
  ∀ (jobs : list (string * string)) fs,
    fs !! src = Some content →
    ((src, dst) ∈ jobs ∨ fs !! dst = Some content) →
    (∀ job, job ∈ jobs →
       job = (src, dst)
       ∨ (fst job ++ ".hipify-tmp" ≠ src ∧ fst job ++ ".hipify-tmp" ≠ dst
          ∧ snd job ≠ src ∧ snd job ≠ dst)) →
    foldl (λ fs job, snd (translate T frontEnd sys false PrintStats_ (fst job) (snd job) fs))
      fs jobs !! dst = Some content.
Proof.
  intros Hopen Hrename Hno.
  induction jobs as [|job jobs IH]; intros fs Hsrc Hdone Hjobs.
  - destruct Hdone as [Hin|Hdst]; [by apply not_elem_of_nil in Hin|done].
  - cbn [foldl]. destruct (Hjobs job) as [->|(Ht1 & Ht2 & Hd1 & Hd2)]; [by left| |].
    + destruct (translate_no_edit T frontEnd sys PrintStats_ src dst content fs)
        as [Hdst' Hsrc']; [done..|].
      cbn [fst snd]. apply IH; [done|by right|].
      intros job' Hjob'. apply Hjobs. by right.
    + apply IH.
      * by rewrite translate_frame.
      * destruct Hdone as [Hin|Hdst].
        -- apply elem_of_cons in Hin as [Heq|Hin]; [|by left].
           subst job. by destruct Hd2.
        -- right. by rewrite translate_frame.
      * intros job' Hjob'. apply Hjobs. by right.
Qed.

(** C2, as amended: in a run that writes output, when no handler produces
    an edit for an input file (no name of a table is recognized as
    supported, and there is neither a kernel launch nor a shared array of
    unknown size to rewrite), and the system lets the working copy be
    created and moved to the destination, the output file is byte-identical
    to the input file; the file of -o-stats is taken to be another file
    than the input and, in a run on several inputs, the working copies and
    the outputs of the other inputs to be other files than this input and
    its output. *)
Theorem no_edit_identity (T : RenameTables) (frontEnd : FrontEnd) (o : Options) (w : World)
    (src content : string) :
  NoOutput o = false →
  Examine o = false →
  OutputFilename o = EmptyString ∨ (fileSources o = [src] ∧ Inplace o = false) →
  src ∈ fileSources o →
  files w !! src = Some content →
  OutputStatsFilename o ≠ src →
  (let tool := frontEnd (src ++ ".hipify-tmp") (Some content) in
   editsOf (flat_map (handle T (tool_SM tool)) (tool_events tool)) = []) →
  opens (system w) (src ++ ".hipify-tmp") = true →
  renames (system w) (src ++ ".hipify-tmp") (destination o src) = true →
  (∀ other, other ∈ fileSources o → other ≠ src →
     other ++ ".hipify-tmp" ≠ src ∧ other ++ ".hipify-tmp" ≠ destination o src
     ∧ destination o other ≠ src ∧ destination o other ≠ destination o src) →
  files (snd (main T frontEnd o w)) !! destination o src = Some content.
Proof.
  intros Hout Hex Hconf Hin Hfile Hcsv Hno Hopen Hrename Hother.
  unfold main. rewrite Hout, Hex. cbn [andb].
  assert (negb (isEmpty (OutputFilename o)) && (1 <? List.length (fileSources o))%nat = false)
    as ->.
  { destruct Hconf as [-> | [-> _]]; [done|]. apply andb_false_r. }
  set (w0 := {| files := _; stderr := _; csv := _; system := _ |}).
  destruct (mainLoop_files T frontEnd o false (PrintStats o)
              (1 <? List.length (fileSources o))%nat (fileSources o) (OutputFilename o) 0 [] w0)
    as [-> _].
  { destruct Hconf as [-> | [_ ->]]; [right; by left|by do 2 right]. }
  assert (jobsOf o (OutputFilename o) (fileSources o)
          = (λ s, (s, destination o s)) <$> fileSources o) as ->.
  { destruct Hconf as [Hempty | [-> _]]; [|done].
    unfold destination. rewrite Hempty. apply jobsOf_EmptyString. }
  apply (jobs_no_edit T frontEnd (system w) (PrintStats o) src (destination o src) content);
    [done..| | |].
  - unfold w0. cbn [files]. destruct (negb _); [|done]. by rewrite truncate_lookup_ne.
  - left. apply list_elem_of_fmap. by exists src.
  - intros job Hjob. apply list_elem_of_fmap in Hjob as (s & -> & Hs). cbn [fst snd].
    destruct (decide (s = src)) as [->|Hne]; [by left|right]. by apply Hother.
Qed.

Lemma no_edit_identity_witness :
  files (snd (main tables_cudaMalloc frontEnd_by_content options_two_files world_two_files))
    !! "b.cpp.hip"
  = Some plain_source.
Proof.
  apply (no_edit_identity tables_cudaMalloc frontEnd_by_content options_two_files
           world_two_files "b.cpp" plain_source); try reflexivity.
  - by left.
  - apply elem_of_cons. right. apply list_elem_of_singleton. reflexivity.
  - discriminate.
  - intros other Hin Hne.
    apply elem_of_cons in Hin as [->|Hin]; [|by apply list_elem_of_singleton in Hin].
    repeat split; discriminate.
Defined.

(** C2, as stated, fails, in three ways.  With empty tables no name of
    [a.cu] is recognized, and yet the launch of the file is rewritten and
    the header is put in front: the output differs from the input.  On a
    system that refuses to move the working copy (the directory of the
    path given to -o does not exist), [b.cpp], in which there is nothing to
    rewrite, gets no output file at all, and its working copy stays.  And
    in a run on [x.cpp] and [x.cpp.hip] the output of the first replaces
    the second before it is read, so that the output of the second is not
    what the second held. *)
Lemma output_not_identical :
  (let result := main tables_empty frontEnd_launch options_default world_a_cu in
   (∀ name, CUDA_RENAMES_MAP tables_empty !! name = None
            ∧ CUDA_IDENTIFIER_MAP tables_empty !! name = None
            ∧ CUDA_TYPE_NAME_MAP tables_empty !! name = None
            ∧ CUDA_INCLUDE_MAP tables_empty !! name = None)
   ∧ files world_a_cu !! "a.cu" = Some launch_source
   ∧ files (snd result) !! "a.cu.hip" = Some launch_translated
   ∧ files (snd result) !! "a.cu.hip" ≠ files world_a_cu !! "a.cu")
  ∧ (let result := main tables_cudaMalloc frontEnd_by_content options_o_nodir world_no_rename in
     files world_no_rename !! "b.cpp" = Some plain_source
     ∧ fst result = 0
     ∧ files (snd result) !! "nodir/out.cpp" = None
     ∧ files (snd result) !! "b.cpp.hipify-tmp" = Some plain_source)
  ∧ (let result := main tables_cudaMalloc frontEnd_plain options_shadowed world_shadowed in
     files world_shadowed !! "x.cpp.hip" = Some "int y;"
     ∧ fst result = 0
     ∧ files (snd result) !! "x.cpp.hip.hip" = Some plain_source).
Proof.
  split; [|split].
  - split; [|repeat split; discriminate].
    intros name. repeat split; apply lookup_empty.
  - repeat split.
  - repeat split.
Qed.

Lemma mainLoop_NoBackup T frontEnd b o NoOutput_ PrintStats_ many :
  ∀ sources dst Result seen w,
  mainLoop T frontEnd (setNoBackup b o) NoOutput_ PrintStats_ many sources dst Result seen w
  = mainLoop T frontEnd o NoOutput_ PrintStats_ many sources dst Result seen w.
Proof.
  induction sources as [|src sources IH]; intros dst Result seen w; [done|].
  cbn [mainLoop setNoBackup Inplace].
  destruct (negb (isEmpty dst) && Inplace o); [done|].
  destruct (translate _ _ _ _ _ _ _ _) as [[st result] fs]. apply IH.
Qed.

(** C6 fails on the code: [main] never reads the option -no-backup, and a
    run with -inplace leaves the path of the backup as it was, so that no
    copy of the input is saved; for [a.cu] the input is overwritten and
    [a.cu.prehip] does not exist afterwards. *)
Theorem inplace_leaves_no_backup :
  (∀ T frontEnd b o w, main T frontEnd (setNoBackup b o) w = main T frontEnd o w)
  ∧ (∀ T frontEnd w src,
       files (snd (main T frontEnd (inplace src) w)) !! (src ++ ".prehip")
       = files w !! (src ++ ".prehip"))
  ∧ (let result := main tables_empty frontEnd_launch options_inplace world_a_cu in
     fst result = 0
     ∧ files (snd result) !! "a.cu" = Some launch_translated
     ∧ files (snd result) !! "a.cu.prehip" = None
     ∧ dom (files (snd result)) = {[ "a.cu" ]}).
Proof.
  split; [|split].
  - intros T frontEnd b o w. unfold main. cbn [setNoBackup OutputFilename fileSources NoOutput
      Inplace Examine PrintStats OutputStatsFilename].
    repeat (destruct (_ && _); [done|]).
    apply mainLoop_NoBackup.
  - intros T frontEnd w src.
    assert (src ++ ".prehip" ≠ src ++ ".hipify-tmp") as Htmp.
    { intros H. apply append_same_prefix in H. discriminate. }
    assert (src ++ ".prehip" ≠ src) as Hsrc.
    { by apply (append_not_self src ".prehip"). }
    unfold main, inplace.
    cbn [OutputFilename fileSources NoOutput Inplace Examine PrintStats OutputStatsFilename].
    replace (1 <? List.length [src])%nat with false by reflexivity.
    rewrite !isEmpty_EmptyString. cbn [negb andb mainLoop Inplace].
    rewrite !isEmpty_EmptyString. cbn [negb andb files system].
    pose proof (translate_frame T frontEnd (system w) false false src src (files w)
                  (src ++ ".prehip") Htmp Hsrc) as Hframe.
    destruct (translate _ _ _ _ _ _ _ _) as [[st result] fs]. by cbn [snd files] in *.
  - repeat split.
Qed.

(** C7 fails on the code: with -inplace, -examine is accepted, the file is
    analysed and the exit code is the value of [Tool.run] on the working
    copy (which holds the text of the source when it could be created),
    where -no-output -print-stats in its place is rejected with exit code 1
    before any work; so it is for [a.cu]. *)
Theorem examine_skips_conflict_check :
  (∀ T frontEnd w src,
     let examine := main T frontEnd (examine_inplace src) w in
     let spelled := main T frontEnd (no_output_print_stats_inplace src) w in
     let tool := frontEnd (src ++ ".hipify-tmp") (workingText src w) in
     fst spelled = 1
     ∧ files (snd spelled) = files w
     ∧ stderr (snd spelled)
       = (stderr w ++ [text ("[HIPIFY] conflict: both -no-output and -inplace options are "
                             ++ "specified." ++ newline)])%list
     ∧ fst examine = tool_result tool
     ∧ workingText src w
       = (if opens (system w) (src ++ ".hipify-tmp")
          then Some (default EmptyString (files w !! src))
          else files w !! (src ++ ".hipify-tmp"))
     ∧ ∃ st, stderr (snd examine) = ((stderr w ++ (text <$> errs st)) ++ [statsReport src (stats st)])%list)
  ∧ (let examine := main tables_empty frontEnd_launch options_examine_inplace world_a_cu in
     let spelled := main tables_empty frontEnd_launch options_no_output_inplace world_a_cu in
     fst examine = 0
     ∧ (∃ s, stderr (snd examine) = [statsReport "a.cu" s])
     ∧ files (snd examine) = files world_a_cu
     ∧ fst spelled = 1
     ∧ stderr (snd spelled)
       = [text ("[HIPIFY] conflict: both -no-output and -inplace options are specified."
                ++ newline)]).
Proof.
  split.
  - intros T frontEnd w src examine spelled tool.
    split; [done|]. split; [done|]. split; [done|].
    unfold examine, main, examine_inplace.
    cbn [OutputFilename fileSources NoOutput Inplace Examine PrintStats OutputStatsFilename
         isEmpty bool_decide decide_rel negb andb List.length Nat.ltb Nat.leb].
    cbn [mainLoop Inplace]. unfold translate.
    cbn [negb files fst snd stderr system].
    split; [done|]. split.
    + unfold workingText, copyFile. destruct (opens _ _); [|done]. by rewrite lookup_insert_eq.
    + eexists. reflexivity.
  - repeat split; try (eexists; reflexivity).
Qed.

(** * Further properties of the rewrite engine *)

(** ** The edits of the string-literal rewriter *)

Lemma substring_length_le : ∀ s n m, (String.length (String.substring n m s) ≤ m)%nat.
Proof.
  induction s as [|c s IH]; intros n m.
  - destruct n, m; simpl; lia.
  - destruct n as [|n].
    + destruct m as [|m]; [simpl; lia|].
      change (String.substring 0 (S m) (String c s)) with (String c (String.substring 0 m s)).
      specialize (IH 0 m). simpl. lia.
    + change (String.substring (S n) m (String c s)) with (String.substring n m s). apply IH.
Qed.

Lemma slice_length_le s b e :
  (String.length (StringRef.slice b e s) ≤ String.length s - b)%nat
  ∧ (∀ e', e = Some e' → String.length (StringRef.slice b e s) ≤ e' - b)%nat.
Proof.
  assert (∀ s n m, String.length (String.substring n m s) ≤ String.length s - n)%nat as Hsub.
  { clear. induction s as [|c s IH]; intros n m.
    - destruct n, m; simpl; lia.
    - destruct n as [|n].
      + destruct m as [|m]; [simpl; lia|].
        change (String.substring 0 (S m) (String c s)) with (String c (String.substring 0 m s)).
        specialize (IH 0 m). simpl in *. lia.
      + change (String.substring (S n) m (String c s)) with (String.substring n m s).
        specialize (IH n m). simpl. lia. }
  split.
  - destruct e; apply Hsub.
  - intros e' ->. apply substring_length_le.
Qed.

Lemma editsOf_app a b : editsOf (a ++ b) = (editsOf a ++ editsOf b)%list.
Proof. apply omap_app. Qed.

Lemma editsOf_candidateCalls T s start visit :
  editsOf (candidateCalls T s start visit) = []
  ∨ ∃ entry, editsOf (candidateCalls T s start visit)
             = [Rep (start + fst visit + 1)
                    (String.length (StringRef.slice (fst visit) (snd visit) s)) (hipName entry)].
Proof.
  unfold candidateCalls.
  destruct (CUDA_RENAMES_MAP T !! _) as [entry|]; [|by left].
  destruct (unsupported entry); [by left|right]. by exists entry.
Qed.

Lemma occursAt_bound str s b :
  occursAt str s b → (String.length str ≤ String.length s - b)%nat.
Proof.
  unfold occursAt. intros H.
  pose proof (proj1 (slice_length_le s b (Some (b + String.length str)))) as Hlen.
  unfold StringRef.slice in Hlen.
  replace (b + String.length str - b)%nat with (String.length str) in Hlen by lia.
  by rewrite H in Hlen.
Qed.

Lemma Scan_edits T s start : ∀ r visits,
  Scan s r visits →
  StronglySorted precedes (editsOf (flat_map (candidateCalls T s start) visits))
  ∧ Forall (λ rep, (start + r + 1 ≤ getOffset rep)%nat ∧ insideLiteral start s rep)
           (editsOf (flat_map (candidateCalls T s start) visits)).
Proof.
  intros r visits H.
  induction H as [r Hno|r b Hb Hns|r b e rest Hb He Hrest [IHs IHb]].
  - split; constructor.
  - cbn [flat_map]. rewrite app_nil_r.
    destruct (editsOf_candidateCalls T s start (b, None)) as [->|[entry ->]];
      [split; constructor|].
    destruct Hb as (Hrb & Hocc%occursAt_bound & _).
    pose proof (proj1 (slice_length_le s b None)) as Hlen.
    cbn [fst snd String.length] in *. split; [repeat constructor|].
    constructor; [|constructor]. unfold insideLiteral, Rep. cbn [getOffset getLength]. lia.
  - cbn [flat_map]. rewrite editsOf_app.
    destruct Hb as (Hrb & Hocc%occursAt_bound & _). destruct He as (Hbe & _ & _).
    cbn [String.length] in Hocc.
    assert (Forall (λ rep, (start + r + 1 ≤ getOffset rep)%nat ∧ insideLiteral start s rep)
                   (editsOf (flat_map (candidateCalls T s start) rest))) as IHb'.
    { eapply Forall_impl; [exact IHb|]. intros rep [? ?]. cbn beta in *. split; [lia|done]. }
    destruct (editsOf_candidateCalls T s start (b, Some e)) as [->|[entry ->]]; [done|].
    pose proof (slice_length_le s b (Some e)) as [Hlen1 Hlen2].
    specialize (Hlen2 e eq_refl). cbn [fst snd] in *.
    split.
    + constructor; [done|].
      eapply Forall_impl; [exact IHb|]. intros rep [Hoff _]. cbn beta in *.
      unfold precedes, Rep. cbn [getOffset getLength]. lia.
    + constructor; [|done]. unfold insideLiteral, Rep. cbn [getOffset getLength]. lia.
Qed.

(** X1: the edits that the string rewriter emits for one literal come in
    the order of the buffer and never share a byte: each ends before the
    next begins; all of them lie inside the literal, after its opening
    quote. *)
Theorem processString_edits_disjoint (T : RenameTables) (s : string) (start : SourceLocation) :
  StronglySorted precedes (editsOf (processString T s start))
  ∧ Forall (insideLiteral start s) (editsOf (processString T s start)).
Proof.
  destruct (processString_loop_Scan T s start (S (String.length s)) 0) as (v & Hv & H); [lia|].
  unfold processString, processString_opt. rewrite H. cbn [default].
  destruct (Scan_edits T s start 0 v Hv) as [Hs Hb]. split; [done|].
  eapply Forall_impl; [exact Hb|]. by intros rep [_ ?].
Qed.

Lemma prefix_substring : ∀ s b m,
  String.substring b 2 s = "cu" → (2 ≤ m)%nat →
  String.prefix "cu" (String.substring b m s) = true.
Proof.
  induction s as [|c s IH]; intros b m H Hm.
  - destruct b; discriminate.
  - destruct b as [|b].
    + destruct m as [|[|m]]; [lia..|].
      destruct s as [|d s]; [discriminate|].
      cbn in H. injection H as -> -> _.
      change (String.substring 0 (S (S m)) (String "c" (String "u" s)))
        with (String "c" (String "u" (String.substring 0 m s))).
      by destruct (String.substring 0 m s).
    + change (String.substring (S b) m (String c s)) with (String.substring b m s).
      apply IH; [|done]. exact H.
Qed.

Lemma candidate_prefix s b e :
  occursAt "cu" s b → (∀ e', e = Some e' → b + 4 ≤ e')%nat →
  String.prefix "cu" (StringRef.slice b e s) = true.
Proof.
  intros Hocc He. pose proof (occursAt_bound _ _ _ Hocc) as Hlen. cbn [String.length] in Hlen.
  unfold StringRef.slice. destruct e as [e'|].
  - specialize (He e' eq_refl). apply prefix_substring; [exact Hocc|lia].
  - apply prefix_substring; [exact Hocc|lia].
Qed.

Lemma candidateCalls_literalCall T s start b e :
  occursAt "cu" s b → (∀ e', e = Some e' → b + 4 ≤ e')%nat →
  Forall (literalCall T) (candidateCalls T s start (b, e)).
Proof.
  intros Hocc He. pose proof (candidate_prefix s b e Hocc He) as Hpre.
  unfold candidateCalls. cbn [fst snd].
  destruct (CUDA_RENAMES_MAP T !! StringRef.slice b e s) as [entry|] eqn:Hfound; [|constructor].
  destruct (unsupported entry) eqn:Hun.
  - constructor; [|constructor]. cbn. repeat split; try done. by exists entry.
  - constructor; [|constructor; [|constructor]].
    + cbn. repeat split; try done. by exists entry.
    + cbn. by exists (StringRef.slice b e s), entry.
Qed.

Lemma Scan_literalCall T s start : ∀ r visits,
  Scan s r visits → Forall (literalCall T) (flat_map (candidateCalls T s start) visits).
Proof.
  intros r visits H.
  induction H as [r Hno|r b Hb Hns|r b e rest Hb He Hrest IH].
  - constructor.
  - cbn [flat_map]. rewrite app_nil_r. destruct Hb as (_ & Hocc & _).
    by apply candidateCalls_literalCall.
  - cbn [flat_map]. apply Forall_app. split; [|done].
    destruct Hb as (_ & Hocc & _). destruct He as (Hbe & _ & _).
    apply candidateCalls_literalCall; [done|]. by intros e' [= <-].
Qed.

Lemma processString_literalCalls (T : RenameTables) (s : string) (start : SourceLocation) :
  Forall (literalCall T) (processString T s start).
Proof.
  destruct (processString_loop_Scan T s start (S (String.length s)) 0) as (v & Hv & H); [lia|].
  unfold processString, processString_opt. rewrite H. cbn [default].
  by eapply Scan_literalCall.
Qed.

(** X2: the string rewriter only counts and edits, it never writes a
    diagnostic; every name it counts or replaces is in the table and begins
    with "cu", and an edit has the length of the name and the DST name as
    text.  It makes no call at all when the prefix does not occur in the
    literal, or when the table holds no name with that prefix. *)
Theorem processString_calls (T : RenameTables) (s : string) (start : SourceLocation) :
  Forall (literalCall T) (processString T s start)
  ∧ (noOccurrence "cu" 0 s → processString T s start = [])
  ∧ ((∀ name, String.prefix "cu" name = true → CUDA_RENAMES_MAP T !! name = None) →
     processString T s start = []).
Proof.
  destruct (processString_loop_Scan T s start (S (String.length s)) 0) as (v & Hv & H); [lia|].
  assert (processString T s start = flat_map (candidateCalls T s start) v) as ->.
  { unfold processString, processString_opt. by rewrite H. }
  pose proof (Scan_literalCall T s start 0 v Hv) as Hall.
  split; [done|]. split.
  - intros Hno. inversion Hv as [r' Hno'|r' b' Hb' Hns'|r' b' e' rest' Hb' He' Hrest']; subst.
    + done.
    + destruct Hb' as (? & ? & _). exfalso. by eapply Hno.
    + destruct Hb' as (? & ? & _). exfalso. by eapply Hno.
  - intros Hmiss. destruct (flat_map _ v) as [|c calls]; [done|].
    apply Forall_cons in Hall as [Hc _]. exfalso.
    destruct c as [counter name|rep sl|]; cbn in Hc.
    + destruct Hc as (Hpre & _ & _ & entry & Hfound & _). rewrite (Hmiss name Hpre) in Hfound. done.
    + destruct Hc as (name & entry & Hfound & _ & Hpre & _). rewrite (Hmiss name Hpre) in Hfound. done.
    + done.
Qed.

Lemma no_prefix_in_example :
  noOccurrence "cu" 0 "error in malloc".
Proof. by apply find_noOccurrence. Qed.

Lemma processString_calls_witness :
  processString tables_cudaMalloc "error in malloc" 100 = [].
Proof.
  apply (proj1 (proj2 (processString_calls tables_cudaMalloc "error in malloc" 100))).
  apply no_prefix_in_example.
Defined.

(** ** The preprocessor observer *)

Lemma handle_outsideMainFile T SM ev : outsideMainFile SM ev = true → handle T SM ev = [].
Proof.
  destruct ev as [hash_loc file_name is_angled range|MD|tok numArgs Args|Result];
    cbn [outsideMainFile handle]; intros H; [| | |done].
  - unfold InclusionDirective. by rewrite H.
  - unfold MacroDefined. by rewrite H.
  - unfold MacroExpands. by rewrite H.
Qed.

(** X3: callbacks for include directives, macro definitions and macro
    expansions that are not written in the main file change nothing: a job
    that sees only such callbacks ends with no edit, no count and no
    diagnostic, and without the runtime header. *)
Theorem callbacks_outside_main_file (T : RenameTables) (PrintStats : bool)
    (mainFileName : string) (SM : SourceManager) (events : list Event) (st : State) :
  forallb (outsideMainFile SM) events = true →
  handleEvents T PrintStats mainFileName SM events st = st
  ∧ runJob T PrintStats mainFileName SM events State_init = State_init.
Proof.
  intros Hall.
  assert (flat_map (handle T SM) events = []) as Hnil.
  { induction events as [|ev events IH]; [done|].
    cbn [forallb] in Hall. apply andb_prop in Hall as [Hev Hrest].
    cbn [flat_map]. by rewrite (handle_outsideMainFile T SM ev Hev), IH. }
  unfold runJob, handleEndSource, handleEvents. rewrite Hnil. done.
Qed.

Lemma callbacks_outside_main_file_witness :
  let SM := {| isWrittenInMainFile := λ sl, (sl <? 100)%nat;
               getExpansionLineNumber := λ _, 1;
               getExpansionColumnNumber := λ _, 1;
               isMacroBodyExpansion := λ _, false;
               isAtStartOfMacroExpansion := λ _, false;
               isAtEndOfMacroExpansion := λ _, false;
               getFileLoc := λ sl, sl;
               getSpellingLoc := λ sl, sl;
               getLocForEndOfToken := λ sl, S sl;
               getSourceText := λ _, EmptyString |} in
  let events := [PP_InclusionDirective 500 "cudaOld" true (510, 519);
                 PP_MacroExpands {| getKind := tok_identifier; getLiteralData := "cudaOld";
                                    getLocation := 700; getIdentifierName := "cudaOld" |}
                                 0 None] in
  runJob tables_unsupported true "a.cu" SM events State_init = State_init.
Proof.
  intros SM events.
  apply (callbacks_outside_main_file tables_unsupported true "a.cu" SM events State_init).
  reflexivity.
Defined.

(** ** The AST match dispatcher *)

Lemma run_handlerOf (T : RenameTables) (SM : SourceManager) (Result : MatchResult) :
  run T SM Result = snd (handlerOf T SM Result).
Proof.
  destruct Result as [call|ret|sLiteral|launchKernel|threadIdx|ref|sharedVar];
    cbn [handlerOf].
  - unfold run, orElse. cbn [cudaType fst snd app].
    destruct (cudaCall T (cudaCall_node call)) as [[] calls] eqn:H; [done|].
    unfold cudaCall in H. destruct (CUDA_IDENTIFIER_MAP T !! _); discriminate.
  - unfold run, orElse. cbn [cudaCall cudaBuiltin cudaEnumConstantRef cudaLaunchKernel
      cudaSharedIncompleteArrayVar stringLiteral fst snd app].
    destruct (cudaType T (cudaType_node ret)) as [[] calls]; [done|].
    cbn [fst snd]. by rewrite app_nil_r.
  - unfold run, orElse. cbn [cudaType cudaCall cudaBuiltin cudaEnumConstantRef
      cudaLaunchKernel cudaSharedIncompleteArrayVar fst snd app].
    destruct (stringLiteral T (stringLiteral_node sLiteral)) as [[] calls] eqn:H; [done|].
    cbn [fst snd]. by rewrite app_nil_r.
  - done.
  - unfold run, orElse. cbn [cudaType cudaCall fst snd app].
    destruct (cudaBuiltin T (cudaBuiltin_node threadIdx)) as [[] calls] eqn:H; [done|].
    unfold cudaBuiltin in H.
    destruct (getBase threadIdx) as [[declName|]|]; try discriminate.
    destruct (CUDA_IDENTIFIER_MAP T !! _); discriminate.
  - unfold run, orElse. cbn [cudaType cudaCall cudaBuiltin fst snd app].
    destruct (cudaEnumConstantRef T (cudaEnumConstantRef_node ref)) as [[] calls] eqn:H;
      [done|].
    unfold cudaEnumConstantRef in H. destruct (CUDA_IDENTIFIER_MAP T !! _); discriminate.
  - unfold run, orElse. cbn [cudaType cudaCall cudaBuiltin cudaEnumConstantRef
      cudaLaunchKernel fst snd app].
    destruct (cudaSharedIncompleteArrayVar (cudaSharedIncompleteArrayVar_node sharedVar))
      as [[] calls] eqn:H; [done|].
    unfold cudaSharedIncompleteArrayVar in H.
    destruct (hasExternalFormalLinkage sharedVar); [|discriminate].
    destruct (negb _); discriminate.
Qed.

(** X4: [run] lets exactly one handler act on a match, the one of the
    node that the match binds; only the type handler can decline a match
    of its own (a type that the table does not hold, or holds as
    unsupported), and then no edit is emitted. *)
Theorem run_dispatch (T : RenameTables) (SM : SourceManager) (Result : MatchResult) :
  run T SM Result = snd (handlerOf T SM Result)
  ∧ (fst (handlerOf T SM Result) = false →
     ∃ ret, Result = cudaType_node ret ∧ editsOf (run T SM Result) = []).
Proof.
  split; [apply run_handlerOf|].
  rewrite run_handlerOf.
  destruct Result as [call|ret|sLiteral|launchKernel|threadIdx|ref|sharedVar];
    cbn [handlerOf].
  - unfold cudaCall. destruct (CUDA_IDENTIFIER_MAP T !! _); discriminate.
  - intros Hf. exists ret. split; [done|]. unfold cudaType in *.
    destruct (CUDA_TYPE_NAME_MAP T !! _) as [hipCtr|]; [|done].
    destruct (unsupported hipCtr); [done|discriminate].
  - unfold stringLiteral. by case_bool_decide.
  - discriminate.
  - unfold cudaBuiltin.
    destruct (getBase threadIdx) as [[declName|]|]; try discriminate.
    destruct (CUDA_IDENTIFIER_MAP T !! _); discriminate.
  - unfold cudaEnumConstantRef. destruct (CUDA_IDENTIFIER_MAP T !! _); discriminate.
  - unfold cudaSharedIncompleteArrayVar.
    destruct (hasExternalFormalLinkage sharedVar); [|discriminate].
    destruct (negb _); discriminate.
Qed.

Lemma run_dispatch_witness :
  ∃ ret, cudaType_node (builtin_type "void" 11) = cudaType_node ret
         ∧ editsOf (run tables_empty sourceManager_example
                      (cudaType_node (builtin_type "void" 11))) = [].
Proof.
  apply (proj2 (run_dispatch tables_empty sourceManager_example
                  (cudaType_node (builtin_type "void" 11)))).
  reflexivity.
Defined.

(** ** References that the tables do not hold *)

(** X5: a name that the table does not hold is passed over in silence at
    an identifier token, an include directive and a type (no call at all);
    at a function call and at an enum constant it gives exactly one warning
    line, "the following reference is not handled", with the location and
    the name, and changes neither the replacement set nor the statistics. *)
Theorem unrecognized_references (T : RenameTables) (SM : SourceManager)
    (PrintStats : bool) (mainFileName : string) (name : string) (st : State) :
  (∀ t, isAnyIdentifier t = true → getIdentifierName t = name →
        CUDA_RENAMES_MAP T !! name = None → RewriteToken T t = [])
  ∧ (∀ hash_loc is_angled filename_range,
       CUDA_INCLUDE_MAP T !! name = None →
       InclusionDirective T SM hash_loc name is_angled filename_range = [])
  ∧ (∀ ret, cudaType_typeName ret = name → CUDA_TYPE_NAME_MAP T !! name = None →
       run T SM (cudaType_node ret) = [])
  ∧ (∀ call, getDirectCalleeName call = name → CUDA_IDENTIFIER_MAP T !! name = None →
       let st' := performAll PrintStats mainFileName SM st (run T SM (cudaCall_node call)) in
       errs st' = (errs st ++ [warningLine mainFileName SM (CallExpr_getLocStart call)
                                 ("the following reference is not handled: '" ++ name
                                  ++ "' [function call].")])%list
       ∧ Replace st' = Replace st ∧ stats st' = stats st)
  ∧ (∀ ref, getDeclName ref = name → CUDA_IDENTIFIER_MAP T !! name = None →
       let st' := performAll PrintStats mainFileName SM st
                    (run T SM (cudaEnumConstantRef_node ref)) in
       errs st' = (errs st ++ [warningLine mainFileName SM (DeclRef_getLocStart ref)
                                 ("the following reference is not handled: '" ++ name
                                  ++ "' [enum constant ref].")])%list
       ∧ Replace st' = Replace st ∧ stats st' = stats st).
Proof.
  repeat apply conj.
  - intros t Hid Hname Hmiss. unfold RewriteToken. rewrite Hid, Hname, Hmiss.
    case_bool_decide as Hk; [|done].
    unfold isAnyIdentifier in Hid. rewrite Hk in Hid. done.
  - intros hash_loc is_angled filename_range Hmiss. unfold InclusionDirective.
    rewrite Hmiss. by destruct (_ || _).
  - intros ret Hname Hmiss. unfold run, cudaType. by rewrite Hname, Hmiss.
  - intros call Hname Hmiss st'. unfold st', run, cudaCall, orElse. cbn [cudaType fst snd app].
    by rewrite Hname, Hmiss.
  - intros ref Hname Hmiss st'. unfold st', run, cudaEnumConstantRef, orElse.
    cbn [cudaType cudaCall cudaBuiltin fst snd app]. by rewrite Hname, Hmiss.
Qed.

Lemma unrecognized_references_witness :
  errs (performAll false "a.cu" sourceManager_example State_init
          (run tables_empty sourceManager_example (cudaCall_node call_cuFoo)))
  = ["[HIPIFY] warning: a.cu:1:8: the following reference is not handled: 'cuFoo' [function call]."
     ++ newline].
Proof.
  apply (proj1 (proj2 (proj2 (proj2
           (unrecognized_references tables_empty sourceManager_example false "a.cu" "cuFoo"
              State_init)))) call_cuFoo); reflexivity.
Defined.

(** ** Two visits of one reference *)

Lemma llcompat_insertReplacement_twice Replace rep :
  llcompat_insertReplacement (llcompat_insertReplacement Replace rep) rep
  = llcompat_insertReplacement Replace rep.
Proof.
  unfold llcompat_insertReplacement.
  destruct (bool_decide (rep ∈ Replace)) eqn:Hin.
  - by rewrite Hin.
  - destruct (existsb (overlaps rep) Replace) eqn:Hov.
    + by rewrite Hin, Hov.
    + rewrite bool_decide_eq_true_2; [done|].
      apply elem_of_app. right. by apply list_elem_of_singleton.
Qed.

(** X6: when a reference is visited twice, as a token of the preprocessor
    and as a call or an enum constant of the AST, both visits emit the same
    edit, so that the replacement set is as after one visit; the entry is
    counted twice. *)
Theorem duplicate_visits_agree (T : RenameTables) (SM : SourceManager) (name : string)
    (found : hipCounter) (sl : SourceLocation) (t : Token) (call : CallExpr)
    (ref : DeclRefExpr) :
  CUDA_RENAMES_MAP T !! name = Some found →
  CUDA_IDENTIFIER_MAP T !! name = Some found →
  isAnyIdentifier t = true → getIdentifierName t = name → getLocation t = sl →
  getDirectCalleeName call = name → CallExpr_getLocStart call = sl →
  getDeclName ref = name → DeclRef_getLocStart ref = sl →
  editsOf (run T SM (cudaCall_node call)) = editsOf (RewriteToken T t)
  ∧ editsOf (run T SM (cudaEnumConstantRef_node ref)) = editsOf (RewriteToken T t)
  ∧ (∀ PrintStats mainFileName st,
       Replace (performAll PrintStats mainFileName SM st
                  (RewriteToken T t ++ run T SM (cudaCall_node call)))
       = Replace (performAll PrintStats mainFileName SM st (RewriteToken T t)))
  ∧ countIncrements (RewriteToken T t ++ run T SM (cudaCall_node call)) = 2.
Proof.
  intros Hren Hid Htok Hname Hloc Hcallee Hcall Hdecl Href.
  assert (RewriteToken T t
          = incrementCounter found name ::
            (if unsupported found
             then [printHipifyMessage sl ("Unsupported CUDA identifier used: " ++ name)
                     HIPIFY_WARNING]
             else [insertReplacement (Rep sl (StringRef.size name) (hipName found)) sl]))
    as Ht.
  { unfold RewriteToken. rewrite Htok, Hname, Hren, Hloc.
    case_bool_decide as Hk; [|done].
    unfold isAnyIdentifier in Htok. rewrite Hk in Htok. done. }
  assert (run T SM (cudaCall_node call)
          = incrementCounter found name ::
            (if unsupported found then []
             else [insertReplacement (Rep sl (StringRef.size name) (hipName found)) sl]))
    as Hc.
  { unfold run, cudaCall, orElse. cbn [cudaType fst snd app]. by rewrite Hcallee, Hid, Hcall. }
  assert (run T SM (cudaEnumConstantRef_node ref)
          = incrementCounter found name ::
            (if unsupported found then []
             else [insertReplacement (Rep sl (StringRef.size name) (hipName found)) sl]))
    as He.
  { unfold run, cudaEnumConstantRef, orElse. cbn [cudaType cudaCall cudaBuiltin fst snd app].
    rewrite Hdecl, Hid, Href. by destruct (unsupported found). }
  rewrite Ht, Hc, He. repeat apply conj.
  - by destruct (unsupported found).
  - by destruct (unsupported found).
  - intros PrintStats mainFileName st. rewrite !Replace_performAll.
    destruct (unsupported found); [done|].
    cbn. apply llcompat_insertReplacement_twice.
  - destruct (unsupported found); reflexivity.
Qed.

Lemma duplicate_visits_agree_witness :
  editsOf (run tables_cudaMalloc sourceManager_example (cudaCall_node call_cudaMalloc))
  = editsOf (RewriteToken tables_cudaMalloc token_cudaMalloc).
Proof.
  apply (duplicate_visits_agree tables_cudaMalloc sourceManager_example "cudaMalloc"
           hipMalloc_entry 7 token_cudaMalloc call_cudaMalloc
           {| getDeclName := "cudaMalloc"; DeclRef_getLocStart := 7 |}); reflexivity.
Defined.

(** ** Builtin members *)

Lemma find_if_skips p (skipped : string) c rest :
  (∀ d, StringRef.contains d skipped = true → p d = false) →
  p c = true →
  StringRef.find_if p 0 (skipped ++ String c rest) = Some (String.length skipped).
Proof.
  intros Hskip Hc. induction skipped as [|d skipped IH].
  - change (EmptyString ++ String c rest) with (String c rest). cbn. by rewrite Hc.
  - change (String d skipped ++ String c rest) with (String d (skipped ++ String c rest)).
    cbn [StringRef.find_if String.length].
    rewrite (Hskip d); [|cbn; by rewrite Ascii.eqb_refl].
    rewrite IH; [done|]. intros d' Hd'. apply Hskip. cbn. rewrite Hd'. by destruct (Ascii.eqb d' d).
Qed.

Lemma substring_all : ∀ s, String.substring 0 (String.length s) s = s.
Proof.
  induction s as [|c s IH]; [done|].
  change (String c (String.substring 0 (String.length s) s) = String c s). by rewrite IH.
Qed.

Lemma length_append (a b : string) : String.length (a ++ b) = String.length a + String.length b.
Proof.
  induction a as [|c a IH]; [done|].
  change (S (String.length (a ++ b)) = S (String.length a + String.length b)). by rewrite IH.
Qed.

Lemma substring_append_suffix : ∀ a b,
  String.substring (String.length a) (String.length (a ++ b) - String.length a) (a ++ b) = b.
Proof.
  intros a b. rewrite length_append.
  replace (String.length a + String.length b - String.length a) with (String.length b) by lia.
  induction a as [|c a IH]; [apply substring_all|].
  change (String.substring (String.length a) (String.length b) (a ++ b) = b). exact IH.
Qed.

(** X7: a member of a builtin whose name is "__fetch_builtin_" followed by
    a suffix, the first character of which is none of the characters of
    that prefix, is looked up as [declName.suffix]; a supported entry gives
    an edit of the length of that name at the begin of the member
    expression, a missing one the warning for a builtin. *)
Theorem cudaBuiltin_member_name (T : RenameTables) (declName : string) (c : ascii)
    (rest : string) (sl : SourceLocation) :
  StringRef.contains c "__fetch_builtin_" = false →
  let threadIdx := {| getBase := OpaqueValueExpr (DeclRefExpr_of declName);
                      getMemberDeclName := "__fetch_builtin_" ++ String c rest;
                      Member_getLocStart := sl |} in
  let name := declName ++ "." ++ String c rest in
  cudaBuiltin T (cudaBuiltin_node threadIdx)
  = (true,
     match CUDA_IDENTIFIER_MAP T !! name with
     | Some found =>
         if unsupported found then [incrementCounter found name]
         else [incrementCounter found name;
               insertReplacement (Rep sl (String.length name) (hipName found)) sl]
     | None =>
         [printHipifyMessage sl ("the following reference is not handled: '" ++ name
                                 ++ "' [builtin].") HIPIFY_WARNING]
     end).
Proof.
  intros Hc threadIdx name. unfold cudaBuiltin, threadIdx.
  cbn [getBase getMemberDeclName Member_getLocStart].
  unfold StringRef.find_first_not_of.
  rewrite (find_if_skips _ "__fetch_builtin_" c rest).
  - unfold StringRef.slice, StringRef.size.
    rewrite substring_append_suffix. fold name.
    destruct (CUDA_IDENTIFIER_MAP T !! name) as [found|]; [|done].
    by destruct (unsupported found).
  - intros d Hd. by rewrite Hd.
  - by rewrite Hc.
Qed.

Lemma cudaBuiltin_member_name_witness :
  cudaBuiltin tables_builtin (cudaBuiltin_node member_threadIdx_x)
  = (true,
     [incrementCounter hipThreadIdx_x_entry "threadIdx.x";
      insertReplacement (Rep 7 11 "hipThreadIdx_x") 7]).
Proof.
  apply (cudaBuiltin_member_name tables_builtin "threadIdx" "x" EmptyString 7). reflexivity.
Defined.

(** ** Shared arrays of unknown size *)

(** X8: the handler of shared arrays always takes the match; it makes no
    call for a variable without external linkage or whose type is not an
    incomplete array; for an extern incomplete array with a named element
    type it emits one edit, from the begin of the declaration to its end
    inclusive, with the text [HIP_DYNAMIC_SHARED(type, name)], and counts
    once. *)
Theorem cudaSharedIncompleteArrayVar_cases (sharedVar : VarDecl) :
  fst (cudaSharedIncompleteArrayVar (cudaSharedIncompleteArrayVar_node sharedVar)) = true
  ∧ (hasExternalFormalLinkage sharedVar = false ∨ getIncompleteArrayElement sharedVar = None →
     snd (cudaSharedIncompleteArrayVar (cudaSharedIncompleteArrayVar_node sharedVar)) = [])
  ∧ (∀ QT typeName,
       hasExternalFormalLinkage sharedVar = true →
       getIncompleteArrayElement sharedVar = Some QT →
       (if isBuiltinType QT then getBuiltinName QT = Some typeName
        else getAsString QT = typeName) →
       typeName ≠ EmptyString →
       editsOf (snd (cudaSharedIncompleteArrayVar (cudaSharedIncompleteArrayVar_node sharedVar)))
       = [Rep (Var_getLocStart sharedVar)
              (Var_getLocEnd sharedVar - Var_getLocStart sharedVar + 1)
              ("HIP_DYNAMIC_SHARED(" ++ typeName ++ ", " ++ getNameAsString sharedVar ++ ")")]
       ∧ countIncrements
           (snd (cudaSharedIncompleteArrayVar (cudaSharedIncompleteArrayVar_node sharedVar))) = 1).
Proof.
  repeat apply conj.
  - unfold cudaSharedIncompleteArrayVar.
    destruct (hasExternalFormalLinkage sharedVar); [|done]. by destruct (negb _).
  - intros [H|H]; unfold cudaSharedIncompleteArrayVar; rewrite H; [done|].
    by destruct (hasExternalFormalLinkage sharedVar).
  - intros QT typeName Hext Harr Hname Hne.
    unfold cudaSharedIncompleteArrayVar. rewrite Hext, Harr.
    assert ((if isBuiltinType QT
             then match getBuiltinName QT with Some BT => BT | None => EmptyString end
             else getAsString QT) = typeName) as ->.
    { destruct (isBuiltinType QT); [by rewrite Hname|done]. }
    rewrite bool_decide_eq_false_2 by done. done.
Qed.

Lemma cudaSharedIncompleteArrayVar_cases_witness :
  editsOf (snd (cudaSharedIncompleteArrayVar (cudaSharedIncompleteArrayVar_node shared_buf)))
  = [Rep 0 28 "HIP_DYNAMIC_SHARED(float, buf)"].
Proof.
  apply (proj2 (proj2 (cudaSharedIncompleteArrayVar_cases shared_buf))
           {| isBuiltinType := true; getBuiltinName := Some "float"; getAsString := "float" |}
           "float"); try reflexivity.
  discriminate.
Defined.

(** ** Types *)

Lemma hitCount_perform_other PrintStats mainFileName SM st c key :
  isIncrement c = false →
  hitCount key (stats (perform PrintStats mainFileName SM st c)) = hitCount key (stats st).
Proof. destruct c; [done| |done]. intros _. cbn. by destruct PrintStats. Qed.

(** X9: a type match never increments a counter: it makes at most one
    call, an edit or a warning, and leaves every hit count as it was; the
    type handler returns true exactly when it emitted the edit. *)
Theorem cudaType_counts_nothing (T : RenameTables) (SM : SourceManager) (PrintStats : bool)
    (mainFileName : string) (ret : TypeLoc) (st : State) :
  let calls := run T SM (cudaType_node ret) in
  let st' := performAll PrintStats mainFileName SM st calls in
  countIncrements calls = 0
  ∧ (countEdits calls + countWarnings calls ≤ 1)%nat
  ∧ (∀ key, hitCount key (stats st') = hitCount key (stats st))
  ∧ (fst (cudaType T (cudaType_node ret)) = true ↔ countEdits calls = 1).
Proof.
  intros calls st'. unfold st', calls, run, cudaType, orElse.
  cbn [cudaCall cudaBuiltin cudaEnumConstantRef cudaLaunchKernel
       cudaSharedIncompleteArrayVar stringLiteral fst snd app].
  destruct (CUDA_TYPE_NAME_MAP T !! cudaType_typeName ret) as [hipCtr|].
  - destruct (unsupported hipCtr); cbn [fst snd app].
    + repeat split; try done; cbn; lia.
    + repeat split; try done; try (cbn; lia).
      intros key. cbn. by destruct PrintStats.
  - cbn [fst snd app]. repeat split; try done; cbn; lia.
Qed.

(** ** Diagnostics *)

Lemma prefix_append (p x : string) : String.prefix p (p ++ x) = true.
Proof.
  induction p as [|c p IH]; [by destruct x|].
  change (String.prefix (String c p) (String c (p ++ x)) = true).
  cbn [String.prefix]. by destruct (ascii_dec c c).
Qed.

Lemma errs_performAll PrintStats mainFileName SM calls : ∀ st,
  errs (performAll PrintStats mainFileName SM st calls)
  = (errs st ++ linesOf mainFileName SM calls)%list.
Proof.
  induction calls as [|c calls IH]; intros st; [by rewrite app_nil_r|].
  unfold performAll in *. cbn [foldl]. rewrite IH.
  destruct c; cbn; [done|done|]. by rewrite <- app_assoc.
Qed.

Lemma processString_warnsOnly T s start : Forall warnsOnly (processString T s start).
Proof.
  eapply Forall_impl; [apply (processString_literalCalls T s start)|].
  intros [counter name|rep sl|sl message msgType]; cbn; done.
Qed.

Lemma RewriteToken_warnsOnly T t : Forall warnsOnly (RewriteToken T t).
Proof.
  unfold RewriteToken. case_bool_decide; [apply processString_warnsOnly|].
  destruct (negb (isAnyIdentifier t)); [constructor|].
  destruct (CUDA_RENAMES_MAP T !! getIdentifierName t) as [found|]; [|constructor].
  destruct (unsupported found); repeat constructor.
Qed.

Lemma flat_map_Forall {A B} (P : B → Prop) (f : A → list B) l :
  (∀ x, Forall P (f x)) → Forall P (flat_map f l).
Proof.
  intros Hf. induction l as [|x l IH]; [constructor|].
  cbn [flat_map]. apply Forall_app. by split.
Qed.

Lemma handle_warnsOnly T SM ev : Forall warnsOnly (handle T SM ev).
Proof.
  destruct ev as [hash_loc file_name is_angled range|MD|tok numArgs Args|Result].
  - unfold handle, InclusionDirective. destruct (_ || _); [constructor|].
    destruct (CUDA_INCLUDE_MAP T !! file_name) as [found|]; [|constructor].
    destruct (unsupported found); repeat constructor.
  - unfold handle, MacroDefined. destruct (_ || _); [constructor|].
    apply flat_map_Forall, RewriteToken_warnsOnly.
  - unfold handle, MacroExpands. destruct (negb _); [constructor|].
    apply Forall_app. split; [apply RewriteToken_warnsOnly|].
    destruct Args as [args|]; [|constructor].
    apply flat_map_Forall. intros i. apply flat_map_Forall, RewriteToken_warnsOnly.
  - cbn [handle]. rewrite (run_handlerOf T SM Result).
    destruct Result as [call|ret|sLiteral|launchKernel|threadIdx|ref|sharedVar];
      cbn [handlerOf].
    + unfold cudaCall. destruct (CUDA_IDENTIFIER_MAP T !! _) as [found|];
        [destruct (unsupported found)|]; repeat constructor.
    + unfold cudaType. destruct (CUDA_TYPE_NAME_MAP T !! _) as [found|];
        [destruct (unsupported found)|]; repeat constructor.
    + unfold stringLiteral. case_bool_decide; [apply processString_warnsOnly|constructor].
    + repeat constructor.
    + unfold cudaBuiltin. destruct (getBase threadIdx) as [[declName|]|]; try constructor.
      destruct (CUDA_IDENTIFIER_MAP T !! _) as [found|];
        [destruct (unsupported found)|]; repeat constructor.
    + unfold cudaEnumConstantRef. destruct (CUDA_IDENTIFIER_MAP T !! _) as [found|];
        [destruct (unsupported found)|]; repeat constructor.
    + unfold cudaSharedIncompleteArrayVar.
      destruct (hasExternalFormalLinkage sharedVar); [|constructor].
      destruct (negb _); repeat constructor.
Qed.

Lemma linesOf_warnsOnly mainFileName SM calls :
  Forall warnsOnly calls →
  Forall (λ line, String.prefix "[HIPIFY] warning: " line = true)
         (linesOf mainFileName SM calls).
Proof.
  induction 1 as [|c calls Hc _ IH]; [constructor|].
  destruct c as [counter name|rep sl|sl message msgType]; cbn; [done|done|].
  cbn in Hc. subst msgType. constructor; [|done].
  unfold messageLine. cbn [getMsgType].
  apply (prefix_append "[HIPIFY] warning: ").
Qed.

Lemma errs_runJob T PrintStats mainFileName SM events :
  errs (runJob T PrintStats mainFileName SM events State_init)
  = linesOf mainFileName SM (flat_map (handle T SM) events).
Proof.
  unfold runJob, handleEndSource, handleEvents. rewrite !errs_performAll. cbn [errs State_init app].
  unfold insertHipHeaders. destruct (0 <? _)%nat; cbn; by rewrite app_nil_r.
Qed.

(** X10: what a job writes to stderr is one line for each
    [printHipifyMessage] of its handlers, in the order of the calls; every
    line begins with "[HIPIFY] warning: " (no handler reports an error), and
    the lines do not depend on -print-stats. *)
Theorem diagnostics_in_order (T : RenameTables) (PrintStats : bool) (mainFileName : string)
    (SM : SourceManager) (events : list Event) :
  errs (runJob T PrintStats mainFileName SM events State_init)
  = linesOf mainFileName SM (flat_map (handle T SM) events)
  ∧ Forall (λ line, String.prefix "[HIPIFY] warning: " line = true)
           (linesOf mainFileName SM (flat_map (handle T SM) events))
  ∧ errs (runJob T PrintStats mainFileName SM events State_init)
    = errs (runJob T (negb PrintStats) mainFileName SM events State_init).
Proof.
  split; [apply errs_runJob|]. split.
  - apply linesOf_warnsOnly, flat_map_Forall, handle_warnsOnly.
  - by rewrite !errs_runJob.
Qed.

(** ** Bytes and lines under -print-stats *)

Lemma bytesOf_cons_edit rep sl calls :
  bytesOf (insertReplacement rep sl :: calls) = getLength rep + bytesOf calls.
Proof. reflexivity. Qed.

Lemma touchedBytes_performAll mainFileName SM calls : ∀ st,
  touchedBytes (stats (performAll true mainFileName SM st calls))
  = touchedBytes (stats st) + bytesOf calls.
Proof.
  induction calls as [|c calls IH]; intros st; [cbn; lia|].
  unfold performAll in *. cbn [foldl]. rewrite IH.
  destruct c as [counter name|rep sl|sl message msgType]; [done| |done].
  rewrite bytesOf_cons_edit. cbn. lia.
Qed.

(** X11: with -print-stats the total of bytes changed grows by the length
    of every edit that a handler emits, whether the replacement set takes
    the edit or not: after a job it is the sum of the lengths of the
    handlers' edits (the header adds none), and the same edit emitted twice
    is held once and counted twice. *)
Theorem touched_bytes_count_every_edit (mainFileName : string) (SM : SourceManager) :
  (∀ st calls,
     touchedBytes (stats (performAll true mainFileName SM st calls))
     = touchedBytes (stats st) + bytesOf calls)
  ∧ (∀ T events,
       touchedBytes (stats (runJob T true mainFileName SM events State_init))
       = bytesOf (flat_map (handle T SM) events))
  ∧ (∀ rep sl,
       let st := performAll true mainFileName SM State_init
                   [insertReplacement rep sl; insertReplacement rep sl] in
       Replace st = [rep] ∧ touchedBytes (stats st) = 2 * getLength rep).
Proof.
  split; [intros st calls; apply touchedBytes_performAll|]. split.
  - intros T events. unfold runJob, handleEndSource, handleEvents.
    rewrite !touchedBytes_performAll. cbn [stats State_init touchedBytes Statistics_empty].
    unfold insertHipHeaders. destruct (0 <? _)%nat; cbn; lia.
  - intros rep sl st. unfold st. split.
    + rewrite Replace_performAll. cbn.
      unfold llcompat_insertReplacement at 2. cbn.
      unfold llcompat_insertReplacement. rewrite bool_decide_eq_true_2; [done|].
      by apply list_elem_of_singleton.
    + rewrite touchedBytes_performAll. cbn. lia.
Qed.

(** ** The driver: conflicts of options *)

Lemma mainLoop_conflict T frontEnd o NoOutput_ PrintStats_ many src sources dst Result seen w :
  isEmpty dst = false → Inplace o = true →
  mainLoop T frontEnd o NoOutput_ PrintStats_ many (src :: sources) dst Result seen w
  = (1, {| files := files w;
           stderr := (stderr w ++
             [text ("[HIPIFY] conflict: both -o and -inplace options are specified."
                    ++ newline)])%list;
           csv := csv w;
           system := system w |}).
Proof. intros Hd Hi. cbn [mainLoop]. by rewrite Hd, Hi. Qed.

(** X12: each of the four conflicts of options ends [main] with exit code
    1 and one more line on stderr; no file is translated; the three
    conflicts found before the loop leave the file system as it is, the
    conflict of -o with -inplace is found after the file of -o-stats was
    created, which is the only path that can differ. *)
Theorem option_conflicts (T : RenameTables) (frontEnd : FrontEnd) (o : Options) (w : World) :
  optionsConflict o = true →
  fst (main T frontEnd o w) = 1
  ∧ (∃ message, stderr (snd (main T frontEnd o w)) = (stderr w ++ [text message])%list)
  ∧ (earlyConflict o = true → files (snd (main T frontEnd o w)) = files w)
  ∧ (∀ path, path ≠ OutputStatsFilename o →
       files (snd (main T frontEnd o w)) !! path = files w !! path).
Proof.
  unfold optionsConflict, earlyConflict, main. intros Hc.
  destruct (negb (isEmpty (OutputFilename o)) && (1 <? List.length (fileSources o))%nat)
    eqn:H1; [cbn; by eauto|].
  destruct (NoOutput o && Inplace o) eqn:H2; [cbn; by eauto|].
  destruct (NoOutput o && negb (isEmpty (OutputFilename o))) eqn:H3; [cbn; by eauto|].
  cbn [orb] in Hc. apply andb_prop in Hc as [Hc Hsrc]. apply andb_prop in Hc as [Hout Hin].
  destruct (fileSources o) as [|src sources] eqn:Hs; [done|].
  rewrite mainLoop_conflict; [|by destruct (isEmpty (OutputFilename o))|done].
  cbn [fst snd stderr files]. split; [done|]. split; [by eauto|]. split; [done|].
  intros path Hpath. destruct (negb (isEmpty (OutputStatsFilename o))); [|done].
  by rewrite truncate_lookup_ne.
Qed.

Lemma option_conflicts_witness :
  fst (main tables_empty frontEnd_launch options_no_output_inplace world_a_cu) = 1
  ∧ files (snd (main tables_empty frontEnd_launch options_no_output_inplace world_a_cu))
    = files world_a_cu.
Proof.
  destruct (option_conflicts tables_empty frontEnd_launch options_no_output_inplace world_a_cu
              eq_refl) as (H1 & _ & H3 & _).
  split; [exact H1|]. apply H3. reflexivity.
Defined.

(** ** The driver: runs without output *)

Lemma translate_no_output T frontEnd sys PrintStats_ src dst fs path :
  path ≠ workingCopy src →
  snd (translate T frontEnd sys true PrintStats_ src dst fs) !! path = fs !! path.
Proof.
  intros Hp. unfold translate, workingCopy in *. cbn [negb snd].
  by rewrite remove_lookup_ne, copyFile_lookup_ne.
Qed.

Lemma mainLoop_no_output T frontEnd o PrintStats_ many path :
  ∀ sources dst Result seen w,
  (∀ src, src ∈ sources → path ≠ workingCopy src) →
  files (snd (mainLoop T frontEnd o true PrintStats_ many sources dst Result seen w)) !! path
  = files w !! path.
Proof.
  induction sources as [|src sources IH]; intros dst Result seen w Hp.
  - cbn [mainLoop]. by destruct many.
  - cbn [mainLoop]. destruct (negb (isEmpty dst) && Inplace o); [done|].
    destruct (translate T frontEnd (system w) true PrintStats_ src _ (files w))
      as [[st result] fs] eqn:Ht.
    rewrite IH; [|intros src' Hsrc'; apply Hp; by right]. cbn [files].
    pose proof (translate_no_output T frontEnd (system w) PrintStats_ src
                  (if isEmpty dst then if Inplace o then src else src ++ ".hip" else dst)
                  (files w) path) as Hpath.
    rewrite Ht in Hpath. apply Hpath, Hp. by left.
Qed.

(** X13: with -no-output or -examine no file is changed, apart from the
    file of -o-stats and the working copies [src.hipify-tmp], which are
    removed: every other path, the inputs among them, holds what it held
    before. *)
Theorem no_output_keeps_files (T : RenameTables) (frontEnd : FrontEnd) (o : Options)
    (w : World) (path : string) :
  NoOutput o = true ∨ Examine o = true →
  path ≠ OutputStatsFilename o →
  (∀ src, src ∈ fileSources o → path ≠ workingCopy src) →
  files (snd (main T frontEnd o w)) !! path = files w !! path.
Proof.
  intros Hno Hcsv Htmp. unfold main, conflict.
  destruct (_ && _); [done|]. destruct (_ && _); [done|]. destruct (_ && _); [done|].
  assert ((if Examine o then true else NoOutput o) = true) as ->.
  { destruct Hno as [-> | ->]; [by destruct (Examine o)|done]. }
  rewrite mainLoop_no_output by done. cbn [files].
  destruct (negb (isEmpty (OutputStatsFilename o))); [|done].
  by rewrite truncate_lookup_ne.
Qed.

Lemma no_output_keeps_files_witness :
  files (snd (main tables_empty frontEnd_launch
                {| OutputFilename := EmptyString; Inplace := false; NoBackup := false;
                   NoOutput := false; PrintStats := false;
                   OutputStatsFilename := EmptyString; Examine := true;
                   fileSources := ["a.cu"] |} world_a_cu)) !! "a.cu"
  = Some launch_source.
Proof.
  apply (no_output_keeps_files tables_empty frontEnd_launch
           {| OutputFilename := EmptyString; Inplace := false; NoBackup := false;
              NoOutput := false; PrintStats := false;
              OutputStatsFilename := EmptyString; Examine := true;
              fileSources := ["a.cu"] |} world_a_cu "a.cu").
  - right. reflexivity.
  - discriminate.
  - intros src Hsrc. apply list_elem_of_singleton in Hsrc. subst src. discriminate.
Defined.

(** ** The driver: one file with output *)

(** X14: a run on one file with output enabled, on a system that lets the
    working copy be created, the file of -o-stats being another file than
    the source.  The result is the value of [Tool.run], and
    one more when the rewriter could not save the working copy.  The text
    of the working copy is then the input with the replacements of the job
    applied (an input that does not exist counts as empty), or the input as
    it was when it could not be saved.  When the system moves the working
    copy, the destination holds this text and the working copy is gone;
    when it refuses, the working copy stays with this text and the
    destination is as it was.  Every path other than the destination, the
    working copy and the file of -o-stats holds what it held before, so
    that the input is changed only in place. *)
Theorem translate_one_file (T : RenameTables) (frontEnd : FrontEnd) (o : Options) (w : World)
    (src : string) :
  fileSources o = [src] →
  NoOutput o = false →
  Examine o = false →
  OutputFilename o = EmptyString ∨ Inplace o = false →
  OutputStatsFilename o ≠ src →
  opens (system w) (workingCopy src) = true →
  let content := default EmptyString (files w !! src) in
  let tool := frontEnd (workingCopy src) (Some content) in
  let st := runJob T (PrintStats o) (workingCopy src) (tool_SM tool) (tool_events tool)
              State_init in
  let saved := bool_decide (Replace st = []) || overwrites (system w) (workingCopy src) in
  let moved := renames (system w) (workingCopy src) (destination o src) in
  let translated := if saved then applyAllReplacements (Replace st) content else content in
  let result := main T frontEnd o w in
  fst result = tool_result tool + (if saved then 0 else 1)
  ∧ (if moved
     then files (snd result) !! destination o src = Some translated
          ∧ (destination o src ≠ workingCopy src →
             files (snd result) !! workingCopy src = None)
     else files (snd result) !! workingCopy src = Some translated
          ∧ (destination o src ≠ workingCopy src →
             destination o src ≠ OutputStatsFilename o →
             files (snd result) !! destination o src = files w !! destination o src))
  ∧ (∀ path, path ≠ destination o src → path ≠ workingCopy src →
       path ≠ OutputStatsFilename o →
       files (snd result) !! path = files w !! path).
Proof.
  intros Hsrc Hout Hex Hconf Hcsv Hopen content tool st saved moved translated result.
  subst result moved. unfold main. rewrite Hsrc, Hout, Hex.
  cbn [List.length Nat.ltb Nat.leb andb].
  rewrite andb_false_r. cbn [mainLoop].
  assert (negb (isEmpty (OutputFilename o)) && Inplace o = false) as ->.
  { destruct Hconf as [-> | ->]; [done|apply andb_false_r]. }
  fold (destination o src). set (dst := destination o src).
  set (moved := renames (system w) (workingCopy src) dst).
  set (fs0 := if negb (isEmpty (OutputStatsFilename o))
              then truncate (system w) (OutputStatsFilename o) (files w) else files w).
  assert (Hfs0 : ∀ path, path ≠ OutputStatsFilename o → fs0 !! path = files w !! path).
  { intros path Hpath. unfold fs0. destruct (negb (isEmpty (OutputStatsFilename o))); [|done].
    by rewrite truncate_lookup_ne. }
  unfold translate, copyFile. cbn [files system negb].
  fold fs0. fold (workingCopy src). rewrite Hopen, (Hfs0 src) by done. fold content.
  rewrite lookup_insert_eq. cbn [default]. change (id content) with content.
  fold tool. fold st.
  set (fs1 := <[workingCopy src := content]> fs0).
  assert (Hfs1 : ∀ path, path ≠ workingCopy src → path ≠ OutputStatsFilename o →
                         fs1 !! path = files w !! path).
  { intros path Ht Hc. unfold fs1. rewrite lookup_insert_ne by done. by apply Hfs0. }
  assert (Hover : overwriteChangedFiles (system w) (workingCopy src) (Replace st) fs1
                  = (negb saved, <[workingCopy src := translated]> fs1)).
  { unfold overwriteChangedFiles, saved, translated, fs1. rewrite lookup_insert_eq.
    destruct (Replace st) as [|rep Replace'] eqn:HR.
    - cbn. by rewrite insert_insert_eq.
    - rewrite bool_decide_eq_false_2 by done. cbn [orb negb].
      destruct (overwrites (system w) (workingCopy src)); cbn [negb]; [done|].
      by rewrite insert_insert_eq. }
  rewrite Hover. cbn [fst snd files]. unfold rename. rewrite lookup_insert_eq. fold moved.
  repeat apply conj.
  - destruct saved; cbn [negb]; lia.
  - destruct moved.
    + split; [apply lookup_insert_eq|]. intros Hne.
      by rewrite lookup_insert_ne, lookup_delete_eq.
    + split; [apply lookup_insert_eq|]. intros Hne Hc.
      rewrite lookup_insert_ne by done. by apply Hfs1.
  - intros path Hd Ht Hc. destruct moved.
    + rewrite lookup_insert_ne, lookup_delete_ne, lookup_insert_ne by done. by apply Hfs1.
    + rewrite lookup_insert_ne by done. by apply Hfs1.
Qed.

Lemma translate_one_file_witness :
  files (snd (main tables_empty frontEnd_launch options_default world_a_cu)) !! "a.cu.hip"
  = Some launch_translated
  ∧ files (snd (main tables_empty frontEnd_launch options_default world_a_cu)) !! "a.cu"
    = Some launch_source
  ∧ files (snd (main tables_cudaMalloc frontEnd_by_content options_o_nodir world_no_rename))
      !! "b.cpp.hipify-tmp" = Some plain_source
  ∧ files (snd (main tables_cudaMalloc frontEnd_by_content options_o_nodir world_no_rename))
      !! "nodir/out.cpp" = None.
Proof.
  destruct (translate_one_file tables_empty frontEnd_launch options_default world_a_cu "a.cu")
    as (_ & Hdst & Hrest); try reflexivity; [by left|discriminate|].
  destruct (translate_one_file tables_cudaMalloc frontEnd_by_content options_o_nodir
              world_no_rename "b.cpp")
    as (_ & Hfail & _); try reflexivity; [by right|discriminate|].
  split; [exact (proj1 Hdst)|]. split; [apply Hrest; discriminate|].
  split; [exact (proj1 Hfail)|].
  exact (proj2 Hfail ltac:(discriminate) ltac:(discriminate)).
Defined.

(** ** The driver: reports of statistics *)

Lemma filter_isReport_text (lines : list string) :
  List.filter isReport (text <$> lines) = [].
Proof. induction lines as [|l lines IH]; [done|]. exact IH. Qed.

Lemma mainLoop_reports T frontEnd o NoOutput_ PrintStats_ many :
  ∀ sources dst Result seen w,
  (sources = [] ∨ isEmpty dst = true ∨ Inplace o = false) →
  ∃ entries,
    fst <$> entries = sources
    ∧ csv (snd (mainLoop T frontEnd o NoOutput_ PrintStats_ many sources dst Result seen w))
      = (λ l, l ++ ((λ entry, statsReport (fst entry) (snd entry)) <$> entries)
                ++ (if many then [aggregateReport (seen ++ entries)] else []))%list
        <$> csv w
    ∧ List.filter isReport
        (stderr (snd (mainLoop T frontEnd o NoOutput_ PrintStats_ many sources dst Result seen w)))
      = (List.filter isReport (stderr w)
         ++ (if PrintStats_
             then ((λ entry, statsReport (fst entry) (snd entry)) <$> entries)
                  ++ (if many then [aggregateReport (seen ++ entries)] else [])
             else []))%list.
Proof.
  induction sources as [|src sources IH]; intros dst Result seen w Hok.
  - exists []. split; [done|]. cbn [mainLoop]. rewrite !app_nil_r.
    destruct many; cbn [snd csv stderr fmap list_fmap app].
    + split.
      * unfold print. by destruct (csv w).
      * destruct PrintStats_; [|by rewrite app_nil_r].
        by rewrite List.filter_app.
    + split.
      * destruct (csv w); cbn; [|done]. by rewrite app_nil_r.
      * destruct PrintStats_; by rewrite app_nil_r.
  - cbn [mainLoop].
    assert (negb (isEmpty dst) && Inplace o = false) as ->.
    { destruct Hok as [?|[-> | ->]]; [done|done|apply andb_false_r]. }
    destruct (translate T frontEnd (system w) NoOutput_ PrintStats_ src _ (files w))
      as [[st result] fs].
    edestruct (IH EmptyString (Result + result) (seen ++ [(src, stats st)])%list) as
      (entries & Hnames & Hcsv & Herr); [right; by left|].
    exists ((src, stats st) :: entries). split; [cbn; by rewrite Hnames|].
    rewrite Hcsv, Herr. cbn [csv stderr]. split.
    + unfold print. destruct (csv w) as [l|]; [|done]. cbn.
      by rewrite <- !app_assoc.
    + rewrite !List.filter_app, filter_isReport_text, app_nil_r.
      destruct PrintStats_; cbn; rewrite <- !app_assoc; [done|].
      by rewrite !app_nil_r.
Qed.

(** X15: in a run without conflict of options the stream of -o-stats
    receives one report for each source, in the order of the command line,
    followed, when there are several sources, by one aggregate report over
    the same statistics; with -print-stats or -examine stderr receives the
    same reports, and none otherwise. *)
Theorem reports_per_file (T : RenameTables) (frontEnd : FrontEnd) (o : Options) (w : World) :
  optionsConflict o = false →
  let many := (1 <? List.length (fileSources o))%nat in
  ∃ entries,
    fst <$> entries = fileSources o
    ∧ csv (snd (main T frontEnd o w))
      = (if isEmpty (OutputStatsFilename o) then None else Some (reportsOf many entries))
    ∧ List.filter isReport (stderr (snd (main T frontEnd o w)))
      = (List.filter isReport (stderr w)
         ++ (if PrintStats o || Examine o then reportsOf many entries else []))%list.
Proof.
  intros Hc many. unfold optionsConflict in Hc. unfold main.
  apply orb_false_elim in Hc as [Hc H4]. apply orb_false_elim in Hc as [Hc H3].
  apply orb_false_elim in Hc as [H1 H2]. rewrite H1, H2, H3. fold many.
  edestruct (mainLoop_reports T frontEnd o (if Examine o then true else NoOutput o)
               (if Examine o then true else PrintStats o) many (fileSources o)
               (OutputFilename o) 0 []) as (entries & Hnames & Hcsv & Herr).
  { destruct (fileSources o) as [|s l]; [by left|right].
    rewrite bool_decide_eq_false_2 in H4 by done. cbn [negb] in H4.
    rewrite andb_true_r in H4.
    destruct (isEmpty (OutputFilename o)); [by left|right].
    by destruct (Inplace o). }
  exists entries. split; [done|]. rewrite Hcsv, Herr. cbn [csv stderr]. split.
  - unfold reportsOf. by destruct (negb (isEmpty (OutputStatsFilename o))) eqn:H;
      destruct (isEmpty (OutputStatsFilename o)).
  - unfold reportsOf. by destruct (Examine o), (PrintStats o).
Qed.

Lemma reports_per_file_witness :
  ∃ entries,
    fst <$> entries = ["a.cu"]
    ∧ csv (snd (main tables_empty frontEnd_launch options_o_stats world_a_cu))
      = Some (reportsOf false entries)
    ∧ List.filter isReport
        (stderr (snd (main tables_empty frontEnd_launch options_o_stats world_a_cu))) = [].
Proof.
  apply (reports_per_file tables_empty frontEnd_launch options_o_stats world_a_cu).
  reflexivity.
Defined.

(** * Properties of the kernels of [hip_hcc.h] *)

Section KernelFacts.

Local Open Scope Z_scope.

Lemma reaches_step stride sizeBytes offset j :
  0 < stride → offset < sizeBytes → j ≠ offset →
  reaches stride sizeBytes (offset + stride) j ↔ reaches stride sizeBytes offset j.
Proof.
  intros Hs Hlt Hne. unfold reaches. split.
  - intros [[H1 H2] H3]. split; [lia|].
    replace (j - offset) with (j - (offset + stride) + 1 * stride) by lia.
    by rewrite Z.mod_add by lia.
  - intros [[H1 H2] H3].
    assert (stride ≤ j - offset).
    { destruct (decide (stride ≤ j - offset)) as [|Hsmall]; [done|].
      rewrite Z.mod_small in H3 by lia. lia. }
    split; [lia|].
    replace (j - (offset + stride)) with (j - offset + (-1) * stride) by lia.
    by rewrite Z.mod_add by lia.
Qed.

Lemma reaches_self stride sizeBytes offset :
  0 < stride → offset < sizeBytes → reaches stride sizeBytes offset offset.
Proof. intros Hs Hlt. unfold reaches. rewrite Z.sub_diag, Z.mod_0_l by lia. lia. Qed.

Lemma reaches_unique stride sizeBytes offset offset' j :
  0 ≤ offset < stride → 0 ≤ offset' < stride →
  reaches stride sizeBytes offset j → reaches stride sizeBytes offset' j → offset = offset'.
Proof.
  unfold reaches. intros Ho Ho' [[H1 H2] H3] [[H1' H2'] H3'].
  apply Z.mod_divide in H3 as [k Hk]; [|lia]. apply Z.mod_divide in H3' as [k' Hk']; [|lia].
  assert (offset - offset' = (k' - k) * stride) as Hd by lia.
  assert (k' - k = 0) by nia. lia.
Qed.

Lemma wrap_int_in_range z : 0 ≤ z ≤ INT_MAX → HipHcc.wrap_int z = z.
Proof.
  unfold HipHcc.wrap_int, INT_MAX. intros Hz.
  replace (2 ^ 31) with 2147483648 by reflexivity.
  replace (2 ^ 32) with 4294967296 by reflexivity.
  rewrite Z.mod_small by lia. lia.
Qed.

Lemma to_size_t_in_range z : 0 ≤ z ≤ INT_MAX → HipHcc.to_size_t z = z.
Proof.
  unfold HipHcc.to_size_t, INT_MAX. intros Hz.
  replace (2 ^ 64) with 18446744073709551616 by reflexivity.
  apply Z.mod_small. lia.
Qed.

(** One work-item that stores [f i] at every index [i] it reaches; its
    counter stays an [int] when the size and one stride do. *)
Lemma workItem_store {T} (f : Z → T) stride sizeBytes : ∀ fuel offset (a : Z → T),
  0 < stride → sizeBytes + stride ≤ INT_MAX + 1 → 0 ≤ offset ≤ INT_MAX →
  (Z.to_nat (sizeBytes - offset) < fuel)%nat →
  ∃ a', HipHcc.workItem fuel offset stride sizeBytes (λ i a, HipHcc.store i (f i) a) a = Some a'
        ∧ ∀ j, a' j = if decide (reaches stride sizeBytes offset j) then f j else a j.
Proof.
  induction fuel as [|fuel IH]; intros offset a Hs Hmax Ho Hfuel; [lia|].
  cbn [HipHcc.workItem]. rewrite to_size_t_in_range by done.
  destruct (offset <? sizeBytes) eqn:Hlt.
  - apply Z.ltb_lt in Hlt. rewrite wrap_int_in_range by lia.
    destruct (IH (offset + stride) (HipHcc.store offset (f offset) a)) as (a' & Ha' & Hj);
      [done|done|lia|lia|].
    exists a'. split; [done|]. intros j. rewrite Hj. unfold HipHcc.store.
    destruct (decide (j = offset)) as [->|Hne].
    + rewrite decide_False by (unfold reaches; lia).
      by rewrite decide_True by (by apply reaches_self).
    + destruct (decide (reaches stride sizeBytes offset j)) as [Hr|Hr].
      * rewrite decide_True; [done|]. by apply (reaches_step stride sizeBytes offset j).
      * rewrite decide_False; [done|]. intros Hr'. apply Hr.
        by apply (reaches_step stride sizeBytes offset j).
  - apply Z.ltb_ge in Hlt. exists a. split; [done|]. intros j.
    by rewrite decide_False by (unfold reaches; lia).
Qed.

End KernelFacts.

Section LaunchFacts.

Local Open Scope Z_scope.

Lemma launchThreads_facts compute_units sizeBytes :
  0 ≤ compute_units → 0 ≤ sizeBytes →
  let threads := HipHcc.launchThreads compute_units sizeBytes in
  0 ≤ threads ≤ 2048
  ∧ threads `mod` 256 = 0
  ∧ HipHcc.launchStride threads = threads
  ∧ (threads = 0 ↔ compute_units = 0 ∨ sizeBytes = 0)
  ∧ threads < sizeBytes + 256.
Proof.
  intros Hcu Hn threads. unfold threads, HipHcc.launchThreads, HipHcc.launchStride,
    HipHcc.threads_per_wg. cbv zeta.
  destruct (Z.min 8 compute_units * 256 >? sizeBytes) eqn:Hgt.
  - apply Z.gtb_lt in Hgt. repeat apply conj; try split; Z.div_mod_to_equations; lia.
  - rewrite Z.gtb_ltb in Hgt. apply Z.ltb_ge in Hgt.
    repeat apply conj; try split; Z.div_mod_to_equations; lia.
Qed.

(** The work-items of a launch, one after the other. *)
Lemma parallel_for_each_store {T} (f : Z → T) stride sizeBytes : ∀ (offsets : list Z) a,
  0 < stride → 0 ≤ sizeBytes → sizeBytes + stride ≤ INT_MAX + 1 →
  Forall (λ offset, 0 ≤ offset ≤ INT_MAX) offsets →
  ∃ a', foldl (λ (acc : option (Z → T)) (offset : Z),
                 match acc with
                 | Some a' => HipHcc.workItem (S (Z.to_nat sizeBytes)) offset stride sizeBytes
                                (λ i a, HipHcc.store i (f i) a) a'
                 | None => None
                 end) (Some a) offsets = Some a'
        ∧ ∀ j, a' j = if decide (Exists (λ offset, reaches stride sizeBytes offset j) offsets)
                      then f j else a j.
Proof.
  induction offsets as [|offset offsets IH]; intros a Hs Hn Hmax Hall.
  - exists a. split; [done|]. intros j. rewrite decide_False; [done|]. by intros ?%Exists_nil.
  - apply Forall_cons in Hall as [Ho Hall]. cbn [foldl].
    destruct (workItem_store f stride sizeBytes (S (Z.to_nat sizeBytes)) offset a)
      as (a1 & -> & H1); [done|done|done|lia|].
    destruct (IH a1) as (a' & -> & H'); [done..|].
    exists a'. split; [done|]. intros j. rewrite H', H1.
    destruct (decide (Exists _ offsets)) as [He|He].
    + rewrite decide_True; [done|]. by apply Exists_cons_tl.
    + destruct (decide (reaches stride sizeBytes offset j)) as [Hr|Hr].
      * rewrite decide_True; [done|]. by apply Exists_cons_hd.
      * rewrite decide_False; [done|]. by intros [?|?]%Exists_cons.
Qed.

Lemma reaches_some_offset threads sizeBytes j :
  0 < threads →
  Exists (λ offset, reaches threads sizeBytes offset j) (seqZ 0 threads) ↔ 0 ≤ j < sizeBytes.
Proof.
  intros Ht. rewrite Exists_exists. split.
  - intros (offset & Hin & [H1 H2]). apply elem_of_seqZ in Hin. lia.
  - intros Hj. exists (j `mod` threads).
    pose proof (Z.mod_pos_bound j threads Ht) as Hb.
    pose proof (Z.mod_le j threads ltac:(lia) Ht) as Hle.
    split; [apply elem_of_seqZ; lia|].
    split; [lia|]. rewrite Zminus_mod_idemp_r. rewrite Z.sub_diag. by apply Z.mod_0_l; lia.
Qed.

Lemma fill_result {T} (f : Z → T) compute_units sizeBytes (a : Z → T) :
  0 ≤ compute_units → 0 ≤ sizeBytes → sizeBytes + 2048 ≤ INT_MAX →
  ∃ a', HipHcc.parallel_for_each (HipHcc.launchThreads compute_units sizeBytes) sizeBytes
          (λ i a, HipHcc.store i (f i) a) a = Some a'
        ∧ ∀ j, a' j = if decide (0 ≤ j < sizeBytes ∧ 1 ≤ compute_units) then f j else a j.
Proof.
  intros Hcu Hn Hmax.
  destruct (launchThreads_facts compute_units sizeBytes Hcu Hn) as (Hb & _ & Hs & H0 & _).
  unfold HipHcc.parallel_for_each. cbv zeta. rewrite Hs.
  set (threads := HipHcc.launchThreads compute_units sizeBytes) in *.
  destruct (decide (threads = 0)) as [Hz|Hnz].
  - rewrite Hz. cbn. exists a. split; [done|]. intros j.
    rewrite decide_False; [done|]. apply H0 in Hz. lia.
  - destruct (parallel_for_each_store f threads sizeBytes (seqZ 0 threads) a)
      as (a' & Ha' & Hj); [lia|done|lia| |].
    { apply Forall_forall. intros offset Hin. apply elem_of_seqZ in Hin.
      unfold INT_MAX in *. lia. }
    exists a'. split; [done|]. intros j. rewrite Hj.
    assert (1 ≤ compute_units) by (destruct (decide (compute_units = 0)); [|lia]; tauto).
    destruct (decide (Exists _ _)) as [He|He].
    + apply reaches_some_offset in He; [|lia]. by rewrite decide_True.
    + rewrite decide_False; [done|]. intros [Hj' _]. apply He, reaches_some_offset; [lia|done].
Qed.

End LaunchFacts.

Section WriteFacts.

Local Open Scope Z_scope.

Lemma workItem_log stride sizeBytes : ∀ fuel offset (written : list Z),
  0 < stride → sizeBytes + stride ≤ INT_MAX + 1 → 0 ≤ offset ≤ INT_MAX →
  (Z.to_nat (sizeBytes - offset) < fuel)%nat →
  ∃ L, HipHcc.workItem fuel offset stride sizeBytes (λ i written, written ++ [i])%list written
       = Some (written ++ L)%list
       ∧ NoDup L ∧ ∀ j, j ∈ L ↔ reaches stride sizeBytes offset j.
Proof.
  induction fuel as [|fuel IH]; intros offset written Hs Hmax Ho Hfuel; [lia|].
  cbn [HipHcc.workItem]. rewrite to_size_t_in_range by done.
  destruct (offset <? sizeBytes) eqn:Hlt.
  - apply Z.ltb_lt in Hlt. rewrite wrap_int_in_range by lia.
    destruct (IH (offset + stride) (written ++ [offset])%list) as (L & HL & Hnd & Hin);
      [done|done|lia|lia|].
    exists (offset :: L). split; [by rewrite HL, <- app_assoc|]. split.
    + constructor; [|done]. rewrite Hin. unfold reaches. lia.
    + intros j. rewrite elem_of_cons, Hin.
      destruct (decide (j = offset)) as [->|Hne].
      * split; [intros _; by apply reaches_self|by left].
      * rewrite (reaches_step stride sizeBytes offset j) by done.
        split; [by intros [?|?]|by right].
  - apply Z.ltb_ge in Hlt. exists []. split; [by rewrite app_nil_r|].
    split; [constructor|]. intros j. split; [by intros ?%not_elem_of_nil|].
    unfold reaches. lia.
Qed.

Lemma parallel_for_each_log stride sizeBytes : ∀ (offsets : list Z) (written : list Z),
  0 < stride → 0 ≤ sizeBytes → sizeBytes + stride ≤ INT_MAX + 1 →
  Forall (λ offset, 0 ≤ offset < stride) offsets → NoDup offsets →
  ∃ L, foldl (λ (acc : option (list Z)) (offset : Z),
                match acc with
                | Some a' => HipHcc.workItem (S (Z.to_nat sizeBytes)) offset stride sizeBytes
                               (λ i written, written ++ [i])%list a'
                | None => None
                end) (Some written) offsets = Some (written ++ L)%list
       ∧ NoDup L
       ∧ ∀ j, j ∈ L ↔ Exists (λ offset, reaches stride sizeBytes offset j) offsets.
Proof.
  induction offsets as [|offset offsets IH]; intros written Hs Hn Hmax Hall Hnd.
  - exists []. split; [by rewrite app_nil_r|]. split; [constructor|].
    intros j. split; [by intros ?%not_elem_of_nil|by intros ?%Exists_nil].
  - apply Forall_cons in Hall as [Ho Hall]. apply NoDup_cons in Hnd as [Hnotin Hnd].
    cbn [foldl].
    destruct (workItem_log stride sizeBytes (S (Z.to_nat sizeBytes)) offset written)
      as (L1 & -> & Hnd1 & Hin1); [done|done|lia|lia|].
    destruct (IH (written ++ L1)%list) as (L2 & -> & Hnd2 & Hin2); [done..|].
    exists (L1 ++ L2)%list. split; [by rewrite app_assoc|]. split.
    + apply NoDup_app. split; [done|]. split; [|done].
      intros j Hj1 Hj2. apply Hin1 in Hj1. apply Hin2 in Hj2.
      apply Exists_exists in Hj2 as (offset' & Hoff' & Hr').
      assert (offset = offset') as ->; [|done].
      eapply reaches_unique; [| |exact Hj1|exact Hr']; [done|].
      rewrite Forall_forall in Hall. by apply Hall.
    + intros j. rewrite elem_of_app, Hin1, Hin2, Exists_cons. done.
Qed.

End WriteFacts.

Section KernelTheorems.

Local Open Scope Z_scope.

(** X16: the number of threads of a launch is a multiple of 256 between 0
    and 2048, it is the stride of the loop, it is 0 exactly when the device
    has no compute unit or the size is 0, and it exceeds the size by less
    than one tile. *)
Theorem launchThreads_range (compute_units sizeBytes : Z) :
  0 ≤ compute_units → 0 ≤ sizeBytes →
  let threads := HipHcc.launchThreads compute_units sizeBytes in
  0 ≤ threads ≤ 2048
  ∧ threads `mod` 256 = 0
  ∧ HipHcc.launchStride threads = threads
  ∧ (threads = 0 ↔ compute_units = 0 ∨ sizeBytes = 0)
  ∧ threads < sizeBytes + 256.
Proof.
  intros Hcu Hn threads. unfold threads, HipHcc.launchThreads, HipHcc.launchStride,
    HipHcc.threads_per_wg. cbv zeta.
  destruct (Z.min 8 compute_units * 256 >? sizeBytes) eqn:Hgt.
  - apply Z.gtb_lt in Hgt. repeat apply conj; try split; Z.div_mod_to_equations; lia.
  - rewrite Z.gtb_ltb in Hgt. apply Z.ltb_ge in Hgt.
    repeat apply conj; try split; Z.div_mod_to_equations; lia.
Qed.

Lemma launchThreads_range_witness :
  let threads := HipHcc.launchThreads 64 1000 in
  0 ≤ threads ≤ 2048 ∧ threads `mod` 256 = 0 ∧ HipHcc.launchStride threads = threads
  ∧ (threads = 0 ↔ 64 = 0 ∨ 1000 = 0) ∧ threads < 1000 + 256.
Proof. apply (launchThreads_range 64 1000); lia. Defined.

(** X17: for a size that keeps the loop counter an [int] ([sizeBytes +
    2048] is at most [INT_MAX]): on a device with at least one compute unit
    the fill kernel sets the elements of index 0 to [sizeBytes - 1] to the
    value and the copy kernel sets them to the elements of the source;
    every other element is left as it was; on a device without compute unit
    both leave the array as it was.  The loops end within their fuel. *)
Theorem fill_and_copy_kernels {T : Type} (compute_units sizeBytes : Z) (ptr a : Z → T)
    (val : T) :
  0 ≤ compute_units → 0 ≤ sizeBytes → sizeBytes + 2048 ≤ INT_MAX →
  (∃ ptr', HipHcc.ihipMemsetKernel compute_units ptr val sizeBytes = Some ptr'
           ∧ ∀ j, ptr' j = if decide (0 ≤ j < sizeBytes ∧ 1 ≤ compute_units)
                           then val else ptr j)
  ∧ (∃ c', HipHcc.ihipMemcpyKernel compute_units ptr a sizeBytes = Some c'
           ∧ ∀ j, c' j = if decide (0 ≤ j < sizeBytes ∧ 1 ≤ compute_units)
                         then a j else ptr j).
Proof.
  intros Hcu Hn Hmax. split.
  - apply (fill_result (λ _, val)); done.
  - apply (fill_result a); done.
Qed.

Lemma fill_and_copy_kernels_witness :
  ∃ ptr', HipHcc.ihipMemsetKernel 4 (λ _, 0) 7 600 = Some ptr'
          ∧ ∀ j, ptr' j = if decide (0 ≤ j < 600 ∧ 1 ≤ 4) then 7 else 0.
Proof.
  apply (proj1 (fill_and_copy_kernels 4 600 (λ _, 0) (λ _, 0) 7
                  ltac:(lia) ltac:(lia) ltac:(unfold INT_MAX; lia))).
Defined.

(** X18: for a size that keeps the loop counter an [int] ([sizeBytes +
    2048] is at most [INT_MAX]), the work-items of a launch write every
    index below [sizeBytes] exactly once and no other index: no two
    work-items write the same element. *)
Theorem kernel_writes_each_index_once (compute_units sizeBytes : Z) :
  0 ≤ compute_units → 0 ≤ sizeBytes → sizeBytes + 2048 ≤ INT_MAX →
  ∃ written, HipHcc.writtenIndices compute_units sizeBytes = Some written
             ∧ NoDup written
             ∧ ∀ j, j ∈ written ↔ 0 ≤ j < sizeBytes ∧ 1 ≤ compute_units.
Proof.
  intros Hcu Hn Hmax.
  destruct (launchThreads_facts compute_units sizeBytes Hcu Hn) as (Hb & _ & Hs & H0 & _).
  unfold HipHcc.writtenIndices, HipHcc.parallel_for_each. cbv zeta. rewrite Hs.
  set (threads := HipHcc.launchThreads compute_units sizeBytes) in *.
  destruct (decide (threads = 0)) as [Hz|Hnz].
  - rewrite Hz. cbn. exists []. split; [done|]. split; [constructor|].
    intros j. split; [by intros ?%not_elem_of_nil|]. apply H0 in Hz. lia.
  - destruct (parallel_for_each_log threads sizeBytes (seqZ 0 threads) [])
      as (L & HL & Hnd & Hin); [lia|done|lia| |apply NoDup_seqZ|].
    { apply Forall_forall. intros offset Hoff. apply elem_of_seqZ in Hoff. lia. }
    exists L. split; [done|]. split; [done|].
    assert (1 ≤ compute_units) by (destruct (decide (compute_units = 0)); [|lia]; tauto).
    intros j. rewrite Hin, reaches_some_offset by lia.
    split; [by intros ?|by intros [? _]].
Qed.

Lemma kernel_writes_each_index_once_witness :
  ∃ written, HipHcc.writtenIndices 1 3 = Some written
             ∧ NoDup written ∧ ∀ j, j ∈ written ↔ 0 ≤ j < 3 ∧ 1 ≤ 1.
Proof. apply (kernel_writes_each_index_once 1 3); unfold INT_MAX; lia. Defined.

End KernelTheorems.
